(** * watcher.js: local directory to object-store synchroniser

    A shallow embedding of [src/watcher.js] and the properties of its key
    mapper, walker, retrying executor, debouncer and orchestration.

    Layout: Part I holds every definition (the model of the JavaScript
    values and of the Node runtime pieces the script calls, then the script's
    own functions under their source names); Part II holds the lemmas and
    theorems. *)

From Stdlib Require Import ZArith String Ascii List Lia Bool.
From stdpp Require Import gmap strings list.

Local Open Scope string_scope.

(* ===================================================================== *)
(** * Part I: definitions                                                 *)
(* ===================================================================== *)

(** ** JavaScript strings

    A JavaScript string is modelled as a [string] of 8-bit characters.  The
    operations the script uses are [split] on a one-character separator,
    [join], [toLowerCase] and [===]. *)

Module JsString.

(** [s.split(sep)] for a one-character separator: the pieces between the
    occurrences of [sep]; an empty string splits into one empty piece. *)
Fixpoint split (sep : ascii) (s : string) : list string :=
  match s with
  | EmptyString => [EmptyString]
  | String c s' =>
      if Ascii.eqb c sep then EmptyString :: split sep s'
      else match split sep s' with
           | piece :: pieces => String c piece :: pieces
           | [] => [String c EmptyString]
           end
  end.

(** [pieces.join(glue)]. *)
Definition join (glue : string) (pieces : list string) : string :=
  String.concat glue pieces.

(** Character-wise map, used to state what split-then-join computes. *)
Fixpoint map_chars (f : ascii -> ascii) (s : string) : string :=
  match s with
  | EmptyString => EmptyString
  | String c s' => String (f c) (map_chars f s')
  end.

(** Occurrence of a character in a string. *)
Fixpoint contains (c : ascii) (s : string) : bool :=
  match s with
  | EmptyString => false
  | String d s' => Ascii.eqb d c || contains c s'
  end.

(** [c.toLowerCase()] on one character: the letters A-Z move to a-z, every
    other 8-bit character is unchanged.  (No character outside ASCII
    lowercases to ".", "p", "d" or "f", so the comparison with ".pdf" on line
    120 is not affected by leaving the other bytes alone.) *)
Definition lower_char (c : ascii) : ascii :=
  let n := nat_of_ascii c in
  if (65 <=? n)%nat && (n <=? 90)%nat then ascii_of_nat (n + 32) else c.

(** [s.toLowerCase()]. *)
Definition toLowerCase (s : string) : string := map_chars lower_char s.

Definition starts_with_slash (s : string) : bool :=
  match s with
  | String c _ => Ascii.eqb c "/"
  | EmptyString => false
  end.

Fixpoint ends_with_slash (s : string) : bool :=
  match s with
  | EmptyString => false
  | String c EmptyString => Ascii.eqb c "/"
  | String _ s' => ends_with_slash s'
  end.

End JsString.

(** ** Node's [path] module

    The script reaches the file-name algebra only through [path.sep],
    [path.resolve], [path.relative], [path.join] and [path.extname].  They
    are an interface here; [Posix.posix] below is the POSIX implementation
    that Node selects on Linux and macOS. *)

Record PathModule := {
  path_sep : ascii;
  path_resolve : string -> string;
  path_relative : string -> string -> string;
  path_join : string -> string -> string;
  path_extname : string -> string;
}.

Module Posix.
Import JsString.

(** [process.cwd()]: always an absolute path. *)
Record Cwd := {
  cwd_path : string;
  cwd_absolute : starts_with_slash cwd_path = true;
}.

(** One step of Node's [normalizeString], at the granularity of a segment.
    [res] is the stack of segments kept so far, last segment first.  Empty
    segments and "." are dropped; ".." removes the last kept segment, unless
    there is none or it is itself "..", in which case ".." is kept only when
    [allowAboveRoot]. *)
Definition push_segment (allowAboveRoot : bool) (res : list string) (seg : string)
  : list string :=
  if String.eqb seg "" || String.eqb seg "." then res
  else if String.eqb seg ".." then
    match res with
    | last :: rest =>
        if String.eqb last ".." then (if allowAboveRoot then ".." :: res else res)
        else rest
    | [] => if allowAboveRoot then [".."] else []
    end
  else seg :: res.

Definition normalizeSegments (allowAboveRoot : bool) (segs : list string) : list string :=
  rev (fold_left (push_segment allowAboveRoot) segs []).

Definition normalizeString (path : string) (allowAboveRoot : bool) : string :=
  join "/" (normalizeSegments allowAboveRoot (split "/" path)).

(** [path.posix.normalize]. *)
Definition normalize (path : string) : string :=
  if String.eqb path "" then "."
  else
    let isAbsolute := starts_with_slash path in
    let trailingSeparator := ends_with_slash path in
    let p := normalizeString path (negb isAbsolute) in
    if String.eqb p "" then
      (if isAbsolute then "/" else if trailingSeparator then "./" else ".")
    else
      let p' := if trailingSeparator then p +:+ "/" else p in
      if isAbsolute then "/" +:+ p' else p'.

(** [path.posix.join(a, b)]: the non-empty arguments glued with "/" and
    normalized; "." when both are empty. *)
Definition posix_join (a b : string) : string :=
  let joined :=
    if String.eqb a "" then b
    else if String.eqb b "" then a
    else a +:+ "/" +:+ b in
  if String.eqb joined "" then "." else normalize joined.

(** [path.posix.resolve(p)] with one argument: [p] itself when absolute,
    otherwise [p] appended to the working directory; then normalized. *)
Definition posix_resolve (cwd : Cwd) (p : string) : string :=
  let r1 := if String.eqb p "" then "" else p +:+ "/" in
  let abs1 := starts_with_slash p in
  let r2 := if abs1 then r1 else cwd_path cwd +:+ "/" +:+ r1 in
  let abs2 := if abs1 then true else starts_with_slash (cwd_path cwd) in
  let n := normalizeString r2 (negb abs2) in
  if abs2 then "/" +:+ n else if String.eqb n "" then "." else n.

(** The directory names of an absolute normalized path. *)
Definition segments (p : string) : list string :=
  filter (fun s => s <> "") (split "/" p).

Fixpoint drop_common (a b : list string) : list string * list string :=
  match a, b with
  | x :: a', y :: b' => if String.eqb x y then drop_common a' b' else (a, b)
  | _, _ => (a, b)
  end.

(** [path.posix.relative(from, to)]: both arguments are resolved, their
    common leading directories dropped, one ".." emitted per remaining
    directory of [from], followed by what remains of [to]. *)
Definition posix_relative (cwd : Cwd) (from to : string) : string :=
  if String.eqb from to then ""
  else
    let from' := posix_resolve cwd from in
    let to' := posix_resolve cwd to in
    if String.eqb from' to' then ""
    else
      let '(up, down) := drop_common (segments from') (segments to') in
      join "/" (map (fun _ => "..") up ++ down)%list.

(** Index-free helpers for [extname]. *)
Fixpoint strip_trailing_slashes_rev (r : string) : string :=
  match r with
  | String c r' => if Ascii.eqb c "/" then strip_trailing_slashes_rev r' else r
  | EmptyString => EmptyString
  end.

Fixpoint string_rev (s : string) : string :=
  match s with
  | EmptyString => EmptyString
  | String c s' => string_rev s' +:+ String c EmptyString
  end.

(** The last path component, without trailing slashes. *)
Definition base_part (path : string) : string :=
  match rev (split "/" (string_rev (strip_trailing_slashes_rev (string_rev path)))) with
  | last :: _ => last
  | [] => ""
  end.

(** The suffix of [s] that starts at its last "." ([None] without a dot),
    with the flag telling whether that dot is the first character. *)
Fixpoint last_dot (s : string) : option (bool * string) :=
  match s with
  | EmptyString => None
  | String c s' =>
      match last_dot s' with
      | Some (_, suffix) => Some (false, suffix)
      | None => if Ascii.eqb c "." then Some (true, s) else None
      end
  end.

(** [path.posix.extname]: from the last "." of the last path component to
    its end; empty when there is no dot, when the dot is the component's
    first character, or when the component is "..". *)
Definition posix_extname (path : string) : string :=
  let base := base_part path in
  match last_dot base with
  | None => ""
  | Some (true, _) => ""
  | Some (false, suffix) => if String.eqb base ".." then "" else suffix
  end.

(** A directory name that normalization keeps as it is. *)
Definition clean (s : string) : Prop :=
  s <> "" /\ s <> "." /\ s <> ".." /\ contains "/" s = false.

(** The absolute normalized path with directory names [l]. *)
Definition abs_path (l : list string) : string := String "/" (join "/" l).

Definition posix (cwd : Cwd) : PathModule := {|
  path_sep := "/"%char;
  path_resolve := posix_resolve cwd;
  path_relative := posix_relative cwd;
  path_join := posix_join;
  path_extname := posix_extname;
|}.

End Posix.

(** A path module in the Windows style, for paths without drive letters: the
    POSIX algebra with the roles of the two slashes exchanged, so that the
    separator is the backslash. *)
Module Backslash.
Import JsString.

Definition swap_slash (c : ascii) : ascii :=
  if Ascii.eqb c "\" then "/"%char
  else if Ascii.eqb c "/" then "\"%char
  else c.

Definition swapped (s : string) : string := map_chars swap_slash s.

Definition backslash (cwd : Posix.Cwd) : PathModule := {|
  path_sep := "\"%char;
  path_resolve := fun p => swapped (Posix.posix_resolve cwd (swapped p));
  path_relative := fun a b => swapped (Posix.posix_relative cwd (swapped a) (swapped b));
  path_join := fun a b => swapped (Posix.posix_join (swapped a) (swapped b));
  path_extname := fun p => swapped (Posix.posix_extname (swapped p));
|}.

End Backslash.

(** ** Configuration (lines 13-21)

    The values read from the environment.  [RETRY_LIMIT] and [DEBOUNCE_MS]
    come out of [parseInt] and may be any integer; [CONCURRENCY] is a count:
    [pLimit] refuses anything but a positive integer when the module loads. *)

Record Config := {
  BUCKET : string;
  LOCAL_DIR : string;
  CONCURRENCY : nat;
  RETRY_LIMIT : Z;
  DEBOUNCE_MS : Z;
}.

(** The defaults of lines 18-21. *)
Definition default_config (bucket : string) : Config := {|
  BUCKET := bucket;
  LOCAL_DIR := "./pdf";
  CONCURRENCY := 4;
  RETRY_LIMIT := 3;
  DEBOUNCE_MS := 500;
|}.

(** ** Completions

    How a call or an awaited promise ends: normally with a value, or by
    throwing (rejecting) with an error, kept as its message. *)

Inductive Completion (A : Type) : Type :=
| Normal (a : A)
| Throw (err : string).
Arguments Normal {A} a.
Arguments Throw {A} err.

Definition is_throw {A : Type} (c : Completion A) : bool :=
  match c with Throw _ => true | Normal _ => false end.

(** ** Key mapper (lines 43-47) *)

Section KeyMapper.
Context (P : PathModule) (cfg : Config).

Definition localPathToKey (localPath : string) : string :=
  let rel := path_relative P (path_resolve P (LOCAL_DIR cfg)) (path_resolve P localPath) in
  JsString.join "/" (JsString.split (path_sep P) rel).


End KeyMapper.

(** Whether [localPath] lies under the root: the directories of the resolved
    root are a prefix of those of the resolved path. *)
Fixpoint is_prefix (a b : list string) : bool :=
  match a, b with
  | [], _ => true
  | x :: a', y :: b' => String.eqb x y && is_prefix a' b'
  | _ :: _, [] => false
  end.

Definition under_root (cwd : Posix.Cwd) (cfg : Config) (localPath : string) : bool :=
  is_prefix (Posix.segments (Posix.posix_resolve cwd (LOCAL_DIR cfg)))
            (Posix.segments (Posix.posix_resolve cwd localPath)).


(** ** The local file tree

    What [fs.promises.readdir(dir, { withFileTypes: true })] shows: a
    directory is either unreadable ([readdir] rejects) or lists named
    entries, each a regular file ([isFile()]), a directory
    ([isDirectory()]) or something else (a link, a socket, ...). *)

Inductive FsNode : Type :=
| RegFile
| OtherNode
| Directory (d : FsDir)
with FsDir : Type :=
| Unreadable (err : string)
| Listing (es : FsEntries)
with FsEntries : Type :=
| ENil
| ECons (name : string) (n : FsNode) (rest : FsEntries).

Scheme FsNode_mut := Induction for FsNode Sort Prop
  with FsDir_mut := Induction for FsDir Sort Prop
  with FsEntries_mut := Induction for FsEntries Sort Prop.
Combined Scheme Fs_mutind from FsNode_mut, FsDir_mut, FsEntries_mut.

(** Some directory of the tree cannot be read. *)
Fixpoint node_unreadable (n : FsNode) : bool :=
  match n with
  | Directory d => dir_unreadable d
  | _ => false
  end
with dir_unreadable (d : FsDir) : bool :=
  match d with
  | Unreadable _ => true
  | Listing es => entries_unreadable es
  end
with entries_unreadable (es : FsEntries) : bool :=
  match es with
  | ENil => false
  | ECons _ n rest => node_unreadable n || entries_unreadable rest
  end.

(** ** Reconciliation walker (lines 110-123)

    [files] is the array the closure pushes to; it is threaded through the
    calls, and a rejection of [readdir] leaves through every enclosing
    [await walk(full)]: the function has no [try]. *)

Section Walker.
Context (P : PathModule).

(** The extension test of lines 119-120. *)
Definition is_pdf (name : string) : bool :=
  String.eqb (JsString.toLowerCase (path_extname P name)) ".pdf".

Fixpoint walk (dir : string) (d : FsDir) (files : list string) {struct d}
  : Completion unit * list string :=
  match d with
  | Unreadable err => (Throw err, files)
  | Listing es => walk_entries dir es files
  end
with walk_entries (dir : string) (es : FsEntries) (files : list string) {struct es}
  : Completion unit * list string :=
  match es with
  | ENil => (Normal tt, files)
  | ECons name n rest =>
      match walk_entry dir name n files with
      | (Normal _, files') => walk_entries dir rest files'
      | (Throw err, files') => (Throw err, files')
      end
  end
with walk_entry (dir : string) (name : string) (n : FsNode) (files : list string) {struct n}
  : Completion unit * list string :=
  let full := path_join P dir name in
  match n with
  | Directory sub => walk full sub files
  | RegFile =>
      if is_pdf name then (Normal tt, (files ++ [full])%list) else (Normal tt, files)
  | OtherNode => (Normal tt, files)
  end.

(** [entry_in name n es]: the listing [es] has an entry [name] of kind [n]. *)
Inductive entry_in : string -> FsNode -> FsEntries -> Prop :=
| entry_first name n rest : entry_in name n (ECons name n rest)
| entry_later name n name' n' rest :
    entry_in name n rest -> entry_in name n (ECons name' n' rest).

(** The regular files of a tree with the path [walk] builds for each:
    [file_at dir d full name] says that a regular file called [name] sits
    somewhere below directory [d], whose path is [dir], and that joining the
    directory names on the way down gives [full]. *)
Inductive file_at : string -> FsDir -> string -> string -> Prop :=
| file_here dir es name :
    entry_in name RegFile es ->
    file_at dir (Listing es) (path_join P dir name) name
| file_below dir es sub_name sub full name :
    entry_in sub_name (Directory sub) es ->
    file_at (path_join P dir sub_name) sub full name ->
    file_at dir (Listing es) full name.

End Walker.

(** ** Retrying operation executor (lines 49-97) *)

Inductive OpKind := KUpload | KDelete.

(** The commands handed to [client.send]. *)
Inductive Command :=
| PutObjectCommand (Bucket Key Body ContentType ACL : string)
| DeleteObjectCommand (Bucket Key : string).

(** The lines written by [console.log] and [console.error]. *)
Inductive LogLine :=
| LogUploaded (key : string)                                  (* line 64 *)
| LogDeleted (key : string)                                   (* line 86 *)
| LogError (op : OpKind) (key : string) (attempt : Z) (msg : string)  (* lines 66, 88 *)
| LogRetrying (key : string) (backoff : Z)                    (* line 69 *)
| LogFailed (op : OpKind) (key : string) (limit : Z).         (* lines 73, 94 *)

(** What one invocation chain does to the outside, in order. *)
Inductive Effect :=
| ReadFile (localPath : string)       (* fs.promises.readFile(localPath) *)
| Send (cmd : Command)                (* client.send(cmd) *)
| Console (line : LogLine)
| Sleep (ms : Z).                     (* await new Promise(res => setTimeout(res, ms)) *)

(** The collaborators of one invocation chain.  [io_readFile p n] and
    [io_send cmd n] are how the read and the remote call made during attempt
    [n] end; any pattern of failures is some such pair of functions.
    [io_mime] is [mime.lookup], [None] standing for its [false]. *)
Record Collaborators := {
  io_readFile : string -> Z -> Completion string;
  io_send : Command -> Z -> Completion unit;
  io_mime : string -> option string;
}.

(** Computations that append to the trace of effects and may throw.  [None]
    is reserved for a bounded self-call that ran out of fuel. *)
Definition Exec (A : Type) : Type :=
  list Effect -> option (Completion A * list Effect).

Definition exec_ret {A : Type} (a : A) : Exec A := fun tr => Some (Normal a, tr).

Definition exec_bind {A B : Type} (m : Exec A) (k : A -> Exec B) : Exec B :=
  fun tr =>
    match m tr with
    | Some (Normal a, tr') => k a tr'
    | Some (Throw err, tr') => Some (Throw err, tr')
    | None => None
    end.

(** [try { body } catch (err) { handler }]. *)
Definition try_catch {A : Type} (body : Exec A) (handler : string -> Exec A) : Exec A :=
  fun tr =>
    match body tr with
    | Some (Normal a, tr') => Some (Normal a, tr')
    | Some (Throw err, tr') => handler err tr'
    | None => None
    end.

(** Perform an effect whose completion the collaborators decide. *)
Definition perform {A : Type} (e : Effect) (outcome : Completion A) : Exec A :=
  fun tr => Some (outcome, (tr ++ [e])%list).

Definition console (line : LogLine) : Exec unit := perform (Console line) (Normal tt).
Definition sleep (ms : Z) : Exec unit := perform (Sleep ms) (Normal tt).
Definition out_of_fuel {A : Type} : Exec A := fun _ => None.

Notation "x <- m ;; k" := (exec_bind m (fun x => k))
  (at level 100, m at next level, right associativity).
Notation "m ;;; k" := (exec_bind m (fun _ => k))
  (at level 100, right associativity).

(** Whether a [try] block throws. *)
Definition body_throws (body : Exec unit) : bool :=
  match body [] with
  | Some (Throw _, _) => true
  | _ => false
  end.

Section Executor.
Context (P : PathModule) (cfg : Config) (io : Collaborators).

(** [200 * Math.pow(2, attempt)] (lines 68 and 90), for the attempts
    [attempt >= 0], the only ones reached from the default 1. *)
Definition backoff (attempt : Z) : Z := (200 * 2 ^ attempt)%Z.

(** Lines 52-64, the [try] block of [uploadFile]. *)
Definition upload_body (localPath key : string) (attempt : Z) : Exec unit :=
  data <- perform (ReadFile localPath) (io_readFile io localPath attempt) ;;
  let contentType :=
    match io_mime io localPath with
    | Some t => t
    | None => "application/octet-stream"
    end in
  let cmd := PutObjectCommand (BUCKET cfg) key data contentType "public-read" in
  perform (Send cmd) (io_send io cmd attempt) ;;;
  console (LogUploaded key).

(** Lines 81-86, the [try] block of [deleteKey]. *)
Definition delete_body (key : string) (attempt : Z) : Exec unit :=
  let cmd := DeleteObjectCommand (BUCKET cfg) key in
  perform (Send cmd) (io_send io cmd attempt) ;;;
  console (LogDeleted key).

(** [uploadFile(localPath, attempt)], lines 49-76.  The self-call of line 71
    is bounded by [fuel]. *)
Fixpoint uploadFile_fuel (fuel : nat) (localPath : string) (attempt : Z) : Exec unit :=
  let key := localPathToKey P cfg localPath in
  try_catch (upload_body localPath key attempt)
    (fun err =>
       console (LogError KUpload key attempt err) ;;;
       if (attempt <? RETRY_LIMIT cfg)%Z then
         console (LogRetrying key (backoff attempt)) ;;;
         sleep (backoff attempt) ;;;
         match fuel with
         | O => out_of_fuel
         | S fuel' => uploadFile_fuel fuel' localPath (attempt + 1)%Z
         end
       else
         console (LogFailed KUpload key (RETRY_LIMIT cfg))).

(** [deleteKey(localPath, attempt)], lines 78-97. *)
Fixpoint deleteKey_fuel (fuel : nat) (localPath : string) (attempt : Z) : Exec unit :=
  let key := localPathToKey P cfg localPath in
  try_catch (delete_body key attempt)
    (fun err =>
       console (LogError KDelete key attempt err) ;;;
       if (attempt <? RETRY_LIMIT cfg)%Z then
         sleep (backoff attempt) ;;;
         match fuel with
         | O => out_of_fuel
         | S fuel' => deleteKey_fuel fuel' localPath (attempt + 1)%Z
         end
       else
         console (LogFailed KDelete key (RETRY_LIMIT cfg))).

(** Self-calls still possible when [attempt] is running: none once
    [attempt >= RETRY_LIMIT]. *)
Definition retries_left (attempt : Z) : nat := Z.to_nat (RETRY_LIMIT cfg - attempt).

Definition uploadFile (localPath : string) (attempt : Z) : Exec unit :=
  uploadFile_fuel (retries_left attempt) localPath attempt.

Definition deleteKey (localPath : string) (attempt : Z) : Exec unit :=
  deleteKey_fuel (retries_left attempt) localPath attempt.

(** The [try] block throws during attempt [n]: the read or the remote call
    failed. *)
Definition upload_attempt_fails (localPath : string) (n : Z) : bool :=
  body_throws (upload_body localPath (localPathToKey P cfg localPath) n).

Definition delete_attempt_fails (localPath : string) (n : Z) : bool :=
  body_throws (delete_body (localPathToKey P cfg localPath) n).

(** The default parameter [attempt = 1]. *)
Definition first_attempt : Z := 1.

End Executor.

(** Readings of a trace. *)
Definition count_effects (which : Effect -> bool) (tr : list Effect) : nat :=
  length (List.filter which tr).

Definition is_read (e : Effect) : bool := match e with ReadFile _ => true | _ => false end.
Definition is_send (e : Effect) : bool := match e with Send _ => true | _ => false end.

Fixpoint sleeps (tr : list Effect) : list Z :=
  match tr with
  | [] => []
  | Sleep ms :: tr' => ms :: sleeps tr'
  | _ :: tr' => sleeps tr'
  end.

(** The executions of the [try] block and the pauses of a trace, in order:
    [None] for an effect that [which] recognises, [Some ms] for a pause. *)
Fixpoint rhythm (which : Effect -> bool) (tr : list Effect) : list (option Z) :=
  match tr with
  | [] => []
  | Sleep ms :: tr' => Some ms :: rhythm which tr'
  | e :: tr' => if which e then None :: rhythm which tr' else rhythm which tr'
  end.

(** The attempt numbers written in the error lines, in order. *)
Fixpoint error_attempts (tr : list Effect) : list Z :=
  match tr with
  | [] => []
  | Console (LogError _ _ attempt _) :: tr' => attempt :: error_attempts tr'
  | _ :: tr' => error_attempts tr'
  end.

(** [from, from + 1, ..., from + n - 1]. *)
Fixpoint Zseq (from : Z) (n : nat) : list Z :=
  match n with
  | O => []
  | S n' => from :: Zseq (from + 1)%Z n'
  end.

(** ** Dispatch limiter (line 38) *)

(** The task handed to [limit]: [() => uploadFile(f)] or [() => deleteKey(f)]. *)
Inductive Op :=
| Upload (localPath : string)
| Delete (localPath : string).

Definition op_path (op : Op) : string :=
  match op with Upload p => p | Delete p => p end.

Record Task := { task_id : nat; task_op : Op }.

(** Modelled from the spec: the limiter returned by [pLimit(CONCURRENCY)];
    the p-limit package is not part of the sources.  Section 4.3: a bounded
    pool of at most CONCURRENCY executing tasks, further tasks wait in a FIFO
    queue and begin only as a slot frees.  [scheduled] lists every call of
    [limit] in call order, [started] the tasks whose body has begun, in the
    order they began, [settled] the completions of the promises [limit]
    returned, and [peak] is the instrumented high-water mark of [running]. *)
Record Limiter := {
  scheduled : list Task;
  queue : list Task;
  running : list Task;
  started : list Task;
  settled : list (nat * Completion unit);
  peak : nat;
}.

Definition empty_limiter : Limiter := {|
  scheduled := []; queue := []; running := []; started := []; settled := []; peak := 0;
|}.

(** Modelled from the spec: admission of the head of the queue into a free
    slot of the pool ("begin only as a slot frees", section 4.3). *)
Definition start_next (concurrency : nat) (L : Limiter) : Limiter :=
  match queue L with
  | t :: q =>
      if (length (running L) <? concurrency)%nat then
        {| scheduled := scheduled L;
           queue := q;
           running := running L ++ [t];
           started := started L ++ [t];
           settled := settled L;
           peak := Nat.max (peak L) (S (length (running L))) |}
      else L
  | [] => L
  end.

(** Modelled from the spec: [limit(task)], the [schedule] of section 4.3.
    The task joins the back of the queue and is started at once when a slot
    is free. *)
Definition limit (concurrency : nat) (op : Op) (L : Limiter) : Limiter :=
  let t := {| task_id := length (scheduled L); task_op := op |} in
  start_next concurrency
    {| scheduled := scheduled L ++ [t];
       queue := queue L ++ [t];
       running := running L;
       started := started L;
       settled := settled L;
       peak := peak L |}.

Definition is_running (id : nat) (L : Limiter) : bool :=
  existsb (fun t => Nat.eqb (task_id t) id) (running L).

(** Modelled from the spec: the body of running task [id] has settled with
    [outcome]; its slot frees, the promise [limit] returned settles the same
    way, and the head of the queue is started. *)
Definition task_done (concurrency : nat) (id : nat) (outcome : Completion unit)
    (L : Limiter) : Limiter :=
  if is_running id L then
    start_next concurrency
      {| scheduled := scheduled L;
         queue := queue L;
         running := List.filter (fun t => negb (Nat.eqb (task_id t) id)) (running L);
         started := started L;
         settled := settled L ++ [(id, outcome)];
         peak := peak L |}
  else L.

(** The traffic a limiter sees. *)
Inductive LimiterEvent :=
| Schedule (op : Op)
| Finish (id : nat) (outcome : Completion unit).

Definition limiter_step (concurrency : nat) (L : Limiter) (e : LimiterEvent) : Limiter :=
  match e with
  | Schedule op => limit concurrency op L
  | Finish id outcome => task_done concurrency id outcome L
  end.

Definition limiter_run (concurrency : nat) (es : list LimiterEvent) : Limiter :=
  fold_left (limiter_step concurrency) es empty_limiter.

(** What holds of the limiter at every instant: the pool is within its
    bound, [peak] lies between the pool size and the bound, tasks began in
    the order they were scheduled, task ids count the calls, the running
    tasks are among the started ones, and no task waits while a slot is
    free. *)
Record limiter_inv (concurrency : nat) (L : Limiter) : Prop := {
  inv_bound : (length (running L) <= concurrency)%nat;
  inv_peak : (length (running L) <= peak L <= concurrency)%nat;
  inv_fifo : (started L ++ queue L)%list = scheduled L;
  inv_ids : map task_id (scheduled L) = seq 0 (length (scheduled L));
  inv_running : sublist (running L) (started L);
  inv_busy : queue L <> [] -> length (running L) = concurrency;
}.

(** A hundred uploads scheduled at once, then finished in the order of
    their ids. *)
Definition hundred_tasks : list LimiterEvent :=
  (map (fun i : nat => Schedule (Upload "pdf/a.pdf")) (seq 0 100)
   ++ map (fun i : nat => Finish i (Normal tt)) (seq 0 100))%list.

(** ** Timers, debounce map and the process as a whole *)

(** [setTimeout(callback, delay)]: the delay the runtime arms the timer
    with.  Node replaces a delay below 1 or above 2^31 - 1 by 1 ms. *)
Definition TIMEOUT_MAX : Z := 2147483647.

Definition timer_delay (delay : Z) : Z :=
  if (1 <=? delay)%Z && (delay <=? TIMEOUT_MAX)%Z then delay else 1%Z.

(** A timer armed by line 152: its id, the instant it is due, and what its
    closure captured ([key], [type], [filePath]).  A timer armed at instant
    [t] with delay [d] is due at [t + timer_delay d] and fires once the clock
    has reached that instant. *)
Record Timer := {
  timer_id : nat;
  timer_due : Z;
  timer_key : string;
  timer_type : string;
  timer_path : string;
}.

Inductive Phase :=
| InitialSyncing
| Watching
| Exited (status : Z).

(** The mutable state of the process: the clock and the armed timers of the
    runtime, [debounceMap] (line 41), the limiter (line 38), how far [main]
    has come, and the promises [initialSync] awaits on line 128. *)
Record World := {
  now : Z;
  next_timer : nat;
  timers : list Timer;
  debounceMap : gmap string nat;
  limiter : Limiter;
  phase : Phase;
  awaited : list nat;
}.

Definition with_limiter (W : World) (L : Limiter) : World :=
  {| now := now W; next_timer := next_timer W; timers := timers W;
     debounceMap := debounceMap W; limiter := L; phase := phase W;
     awaited := awaited W |}.

Definition with_phase (W : World) (ph : Phase) : World :=
  {| now := now W; next_timer := next_timer W; timers := timers W;
     debounceMap := debounceMap W; limiter := limiter W; phase := ph;
     awaited := awaited W |}.

Definition with_awaited (W : World) (ids : list nat) : World :=
  {| now := now W; next_timer := next_timer W; timers := timers W;
     debounceMap := debounceMap W; limiter := limiter W; phase := phase W;
     awaited := ids |}.

(** The process when [main] is entered at instant [t0]. *)
Definition boot (t0 : Z) : World := {|
  now := t0; next_timer := 1; timers := []; debounceMap := ∅;
  limiter := empty_limiter; phase := InitialSyncing; awaited := [];
|}.

(** [clearTimeout(id)]. *)
Definition clearTimeout (id : nat) (ts : list Timer) : list Timer :=
  List.filter (fun tm => negb (Nat.eqb (timer_id tm) id)) ts.

(** The events chokidar delivers (lines 164-175). *)
Inductive WatchEvent := EvAdd | EvChange | EvUnlink.

Definition event_type (ev : WatchEvent) : string :=
  match ev with
  | EvAdd => "add"
  | EvChange => "change"
  | EvUnlink => "unlink"
  end.

(** The operation a notification stands for. *)
Definition event_op (ev : WatchEvent) (filePath : string) : Op :=
  match ev with
  | EvAdd | EvChange => Upload filePath
  | EvUnlink => Delete filePath
  end.

(** The task the callback of lines 152-159 hands to [limit], if any. *)
Definition timer_op (tm : Timer) : option Op :=
  if String.eqb (timer_type tm) "add" || String.eqb (timer_type tm) "change" then
    Some (Upload (timer_path tm))
  else if String.eqb (timer_type tm) "unlink" then Some (Delete (timer_path tm))
  else None.

Section Engine.
Context (P : PathModule) (cfg : Config).

(** [scheduleOp(type, filePath)], lines 146-161.  A timer id is an object
    (or a positive number), so [if (existing)] holds exactly when the map has
    an entry for the key. *)
Definition scheduleOp (type filePath : string) (W : World) : World :=
  let key := localPathToKey P cfg filePath in
  let existing := debounceMap W !! key in
  let ts := match existing with
            | Some id => clearTimeout id (timers W)
            | None => timers W
            end in
  let id := next_timer W in
  let tm := {| timer_id := id; timer_due := (now W + timer_delay (DEBOUNCE_MS cfg))%Z;
               timer_key := key; timer_type := type; timer_path := filePath |} in
  {| now := now W;
     next_timer := S id;
     timers := ts ++ [tm];
     debounceMap := <[key := id]> (debounceMap W);
     limiter := limiter W;
     phase := phase W;
     awaited := awaited W |}.

(** The callback of lines 152-159, run when timer [tm] fires. *)
Definition fire (W : World) (tm : Timer) : World :=
  let W1 := {| now := now W; next_timer := next_timer W; timers := timers W;
               debounceMap := delete (timer_key tm) (debounceMap W);
               limiter := limiter W; phase := phase W; awaited := awaited W |} in
  if String.eqb (timer_type tm) "add" || String.eqb (timer_type tm) "change" then
    with_limiter W1 (limit (CONCURRENCY cfg) (Upload (timer_path tm)) (limiter W1))
  else if String.eqb (timer_type tm) "unlink" then
    with_limiter W1 (limit (CONCURRENCY cfg) (Delete (timer_path tm)) (limiter W1))
  else W1.

Definition is_due (t : Z) (tm : Timer) : bool := (timer_due tm <=? t)%Z.

(** The clock reaches [t]: every armed timer that is due by then fires, in
    the order the timers were armed (all are armed with the same delay, so
    this is also the order in which they fall due). *)
Definition advance (t : Z) (W : World) : World :=
  let t' := Z.max (now W) t in
  fold_left fire (List.filter (is_due t') (timers W))
    {| now := t'; next_timer := next_timer W;
       timers := List.filter (fun tm => negb (is_due t' tm)) (timers W);
       debounceMap := debounceMap W; limiter := limiter W; phase := phase W;
       awaited := awaited W |}.

(** The handlers of lines 164-175. *)
Definition on_event (ev : WatchEvent) (p : string) (W : World) : World :=
  scheduleOp (event_type ev) p W.

(** A notification delivered at instant [t]. *)
Definition deliver (W : World) (n : Z * WatchEvent * string) : World :=
  let '(t, ev, p) := n in on_event ev p (advance t W).

(** The promise [limit] returned for task [id]. *)
Definition promise_of (L : Limiter) (id : nat) : option (Completion unit) :=
  match List.find (fun s => Nat.eqb (fst s) id) (settled L) with
  | Some (_, c) => Some c
  | None => None
  end.

(** [Promise.all(ids)]: rejected as soon as one of the promises is, fulfilled
    once all of them are, pending otherwise. *)
Definition promise_all (L : Limiter) (ids : list nat) : option (Completion unit) :=
  match List.find (fun s => existsb (Nat.eqb (fst s)) ids && is_throw (snd s)) (settled L) with
  | Some (_, c) => Some c
  | None =>
      if forallb (fun id => match promise_of L id with Some _ => true | None => false end) ids
      then Some (Normal tt) else None
  end.

(** [initialSync()] up to the [await] of line 128: the walk, then one call of
    [limit] per file found; the promises are remembered in [awaited]. *)
Definition initialSync (root : FsDir) (W : World) : Completion unit * World :=
  match walk P (LOCAL_DIR cfg) root [] with
  | (Throw err, _) => (Throw err, W)
  | (Normal _, files) =>
      let first_id := length (scheduled (limiter W)) in
      let L := fold_left (fun L f => limit (CONCURRENCY cfg) (Upload f) L) files (limiter W) in
      (Normal tt, with_awaited (with_limiter W L) (seq first_id (length files)))
  end.

(** [startWatcher()]: the subscription is attached. *)
Definition startWatcher (W : World) : World := with_phase W Watching.

(** [main()] up to its first suspension.  [access_ok] is the answer of
    [fs.promises.access(LOCAL_DIR, R_OK)]; a rejection of [initialSync]
    reaches the [catch] of line 194. *)
Definition main (t0 : Z) (access_ok : bool) (root : FsDir) : World :=
  if access_ok then
    match initialSync root (boot t0) with
    | (Normal _, W) => W
    | (Throw _, W) => with_phase W (Exited 1)
    end
  else with_phase (boot t0) (Exited 1).

(** What can happen to the process afterwards: the body of running task
    [id] settles; the continuation of the [await] of line 128 gets its turn;
    chokidar has an event for the script at instant [t]; the clock reaches
    [t]; the interrupt signal arrives. *)
Inductive Event :=
| TaskSettles (id : nat)
| MainResumes
| FsNotify (t : Z) (ev : WatchEvent) (p : string)
| Tick (t : Z)
| Sigint.

(** How the body of a task ends; [ios id] are the collaborators as task
    [id] meets them. *)
Definition run_task (ios : nat -> Collaborators) (t : Task) : option (Completion unit) :=
  let body :=
    match task_op t with
    | Upload f => uploadFile P cfg (ios (task_id t)) f first_attempt
    | Delete f => deleteKey P cfg (ios (task_id t)) f first_attempt
    end in
  match body [] with
  | Some (c, _) => Some c
  | None => None
  end.

(** One event.  After [process.exit] nothing happens any more.  The
    continuation of line 128 goes on to [startWatcher] (lines 129 and 191)
    when [Promise.all] is fulfilled and to the [catch] of line 194 when it is
    rejected.  Events of the file system reach the script only through the
    subscription [startWatcher] attaches ([ignoreInitial] is set); the
    handler of the interrupt signal (lines 181-185) is registered there too,
    before that the signal ends the process the default way. *)
Definition step (ios : nat -> Collaborators) (W : World) (e : Event) : World :=
  match phase W with
  | Exited _ => W
  | ph =>
      match e with
      | TaskSettles id =>
          match List.find (fun t => Nat.eqb (task_id t) id) (running (limiter W)) with
          | Some t =>
              match run_task ios t with
              | Some c => with_limiter W (task_done (CONCURRENCY cfg) id c (limiter W))
              | None => W
              end
          | None => W
          end
      | MainResumes =>
          match ph with
          | InitialSyncing =>
              match promise_all (limiter W) (awaited W) with
              | Some (Normal _) => startWatcher W
              | Some (Throw _) => with_phase W (Exited 1)
              | None => W
              end
          | _ => W
          end
      | FsNotify t ev p =>
          match ph with
          | Watching => deliver W (t, ev, p)
          | _ => W
          end
      | Tick t => advance t W
      | Sigint =>
          match ph with
          | Watching => with_phase W (Exited 0)
          | _ => with_phase W (Exited 130)
          end
      end
  end.

Definition run (ios : nat -> Collaborators) (W : World) (es : list Event) : World :=
  fold_left (step ios) es W.

(** The operations submitted for key [k]. *)
Definition ops_for (k : string) (W : World) : list Op :=
  List.filter (fun op => String.eqb (localPathToKey P cfg (op_path op)) k)
    (map task_op (scheduled (limiter W))).

(** The armed timers of key [k]. *)
Definition pending_for (k : string) (W : World) : list Timer :=
  List.filter (fun tm => String.eqb (timer_key tm) k) (timers W).

(** The events after a notification for key [k] keep its burst going: the
    clock does not run backwards ([clock] is the instant of the event
    before), and each further notification for [k] arrives less than the
    delay of the timer after the one before it, which arrived at [last].
    Notifications for other keys, ticks of the clock, settling tasks and
    turns of [main] may come in between and afterwards, at any instant; the
    process is not interrupted. *)
Fixpoint burst_goes_on (k : string) (clock last : Z) (es : list Event) : bool :=
  match es with
  | [] => true
  | FsNotify t _ p :: es' =>
      (clock <=? t)%Z
      && (if String.eqb (localPathToKey P cfg p) k
          then (t <? last + timer_delay (DEBOUNCE_MS cfg))%Z && burst_goes_on k t t es'
          else burst_goes_on k t last es')
  | Tick t :: es' => (clock <=? t)%Z && burst_goes_on k t last es'
  | Sigint :: _ => false
  | _ :: es' => burst_goes_on k clock last es'
  end.

(** The last notification for key [k] among [n] and then [es]. *)
Fixpoint burst_last (k : string) (n : Z * WatchEvent * string) (es : list Event)
  : Z * WatchEvent * string :=
  match es with
  | [] => n
  | FsNotify t ev p :: es' =>
      if String.eqb (localPathToKey P cfg p) k then burst_last k (t, ev, p) es'
      else burst_last k n es'
  | _ :: es' => burst_last k n es'
  end.

(** What holds of the timers and of [debounceMap] at every instant: the map
    records exactly the armed timers, under the key of their path, and timer
    ids are never reused. *)
Record debounce_inv (W : World) : Prop := {
  timer_in_map : forall tm,
    In tm (timers W) -> debounceMap W !! timer_key tm = Some (timer_id tm);
  map_has_timer : forall k id,
    debounceMap W !! k = Some id ->
    exists tm, In tm (timers W) /\ timer_key tm = k /\ timer_id tm = id;
  timer_key_of_path : forall tm,
    In tm (timers W) -> timer_key tm = localPathToKey P cfg (timer_path tm);
  timer_ids_fresh : forall tm, In tm (timers W) -> (timer_id tm < next_timer W)%nat;
  timer_ids_nodup : NoDup (map timer_id (timers W));
}.

End Engine.

(** What holds at every instant of a run that began with a completed walk
    over [files]. *)
Record sync_inv (files : list string) (W : World) : Prop := {
  sync_awaited : awaited W = seq 0 (length files);
  sync_uploads_first : exists later,
    map task_op (scheduled (limiter W)) = (map Upload files ++ later)%list
    /\ (phase W = InitialSyncing -> later = []);
  sync_debouncer_idle : phase W = InitialSyncing ->
    timers W = [] /\ debounceMap W = ∅ /\ next_timer W = 1%nat;
  sync_all_normal : Forall (fun s => snd s = Normal tt) (settled (limiter W));
  sync_settled : phase W = Watching ->
    forall id, In id (awaited W) -> promise_of (limiter W) id = Some (Normal tt);
}.

(** ** Concrete processes used in the examples *)

Module Sample.

Definition cwd : Posix.Cwd :=
  {| Posix.cwd_path := "/home/user/site"; Posix.cwd_absolute := eq_refl |}.

Definition cfg : Config := default_config "papers".

(** The same configuration with the root spelled in the Windows style. *)
Definition cfg_backslash : Config := {|
  BUCKET := "papers"; LOCAL_DIR := ".\pdf";
  CONCURRENCY := 4; RETRY_LIMIT := 3; DEBOUNCE_MS := 500;
|}.

(** Collaborators whose remote store is unreachable: every read succeeds,
    every remote call fails. *)
Definition io_remote_down : Collaborators := {|
  io_readFile := fun _ _ => Normal "%PDF-1.7";
  io_send := fun _ _ => Throw "ECONNRESET";
  io_mime := fun _ => Some "application/pdf";
|}.

(** Collaborators that never fail. *)
Definition io_healthy : Collaborators := {|
  io_readFile := fun _ _ => Normal "%PDF-1.7";
  io_send := fun _ _ => Normal tt;
  io_mime := fun _ => Some "application/pdf";
|}.

(** What follows the first change of pdf/a.pdf in the burst of section 8: a
    second change and a removal, 10 ms apart, with notifications for another
    file and a turn of the clock in between and afterwards. *)
Definition burst_tail : list Event :=
  [FsNotify 5 EvAdd "pdf/b.pdf"; FsNotify 10 EvChange "pdf/a.pdf"; Tick 15;
   FsNotify 20 EvUnlink "pdf/a.pdf"; FsNotify 30 EvChange "pdf/b.pdf"].

(** A configuration whose delay is beyond what a timer takes. *)
Definition cfg_long_delay : Config := {|
  BUCKET := "papers"; LOCAL_DIR := "./pdf";
  CONCURRENCY := 4; RETRY_LIMIT := 3; DEBOUNCE_MS := 2147483648;
|}.


(** A root with an unreadable directory next to a readable one. *)
Definition tree_locked : FsDir :=
  Listing
    (ECons "locked" (Directory (Unreadable "EACCES"))
    (ECons "open" (Directory (Listing (ECons "x.pdf" RegFile ENil)))
     ENil)).

(** A readable root with files of several kinds. *)
Definition tree_mixed : FsDir :=
  Listing
    (ECons "notes.txt" RegFile
    (ECons "paper.pdf" RegFile
    (ECons "sub" (Directory (Listing
        (ECons "Scan.PDF" RegFile
        (ECons "link" OtherNode
        (ECons ".pdf" RegFile ENil)))))
     ENil))).

End Sample.

(** ** Further readings of a trace *)

Definition is_failed_line (e : Effect) : bool :=
  match e with Console (LogFailed _ _ _) => true | _ => false end.

Fixpoint Zsum (l : list Z) : Z :=
  match l with
  | [] => 0%Z
  | x :: l' => (x + Zsum l')%Z
  end.

(** The attempts a call that starts at attempt 1 can reach: one, or
    RETRY_LIMIT of them when that is more. *)
Definition attempts_allowed (cfg : Config) : Z := Z.max 1 (RETRY_LIMIT cfg).

Section TraceShape.
Context (P : PathModule) (cfg : Config) (io : Collaborators) (localPath : string).

(** What an effect of [uploadFile(localPath)] may be: a read of that path, a
    put of something the read returned, into the configured bucket, under the
    key of the path, publicly readable and typed by [mime.lookup] or as
    octet-stream; a log line about that key; a pause. *)
Definition upload_effect (e : Effect) : Prop :=
  let key := localPathToKey P cfg localPath in
  match e with
  | ReadFile p => p = localPath
  | Send (PutObjectCommand bucket k body contentType acl) =>
      bucket = BUCKET cfg /\ k = key /\ acl = "public-read"
      /\ contentType = match io_mime io localPath with
                       | Some t => t
                       | None => "application/octet-stream"
                       end
      /\ exists n, io_readFile io localPath n = Normal body
  | Send (DeleteObjectCommand _ _) => False
  | Console (LogUploaded k) => k = key
  | Console (LogError KUpload k _ _) => k = key
  | Console (LogRetrying k _) => k = key
  | Console (LogFailed KUpload k _) => k = key
  | Console _ => False
  | Sleep _ => True
  end.

(** What an effect of [deleteKey(localPath)] may be: a delete of the key of
    the path in the configured bucket, a log line about that key, a pause. *)
Definition delete_effect (e : Effect) : Prop :=
  let key := localPathToKey P cfg localPath in
  match e with
  | ReadFile _ => False
  | Send (DeleteObjectCommand bucket k) => bucket = BUCKET cfg /\ k = key
  | Send (PutObjectCommand _ _ _ _ _) => False
  | Console (LogDeleted k) => k = key
  | Console (LogError KDelete k _ _) => k = key
  | Console (LogFailed KDelete k _) => k = key
  | Console _ => False
  | Sleep _ => True
  end.

End TraceShape.

Module Cases.


(** Collaborators for a file that has vanished. *)
Definition io_file_gone : Collaborators := {|
  io_readFile := fun _ _ => Throw "ENOENT";
  io_send := fun _ _ => Normal tt;
  io_mime := fun _ => Some "application/pdf";
|}.

(** A root with a dependency directory that ships a manual. *)
Definition tree_vendored : FsDir :=
  Listing
    (ECons "node_modules" (Directory (Listing
        (ECons "lib" (Directory (Listing (ECons "manual.pdf" RegFile ENil))) ENil)))
    (ECons "own.pdf" RegFile ENil)).

End Cases.

(** ** Normal forms of POSIX paths *)

(** The stacks of segments [Posix.push_segment] builds (last segment first):
    no empty segment, no ".", no "/" inside a segment, and a ".." only at the
    bottom or on another "..". *)
Fixpoint normal_stack (T : list string) : Prop :=
  match T with
  | [] => True
  | x :: T' =>
      x <> "" /\ x <> "." /\ JsString.contains "/" x = false
      /\ (x = ".." -> match T' with [] => True | y :: _ => y = ".." end)
      /\ normal_stack T'
  end.

(** The path with segments [M], absolute or not. *)
Definition normal_path (absolute : bool) (M : list string) : string :=
  if absolute then String "/" (JsString.join "/" M) else JsString.join "/" M.

(** The name of a directory entry: not empty, not "." or "..", without "/". *)
Definition clean_name (s : string) : bool :=
  negb (String.eqb s "") && negb (String.eqb s ".") && negb (String.eqb s "..")
  && negb (JsString.contains "/" s).

(** Every entry of the tree has such a name. *)
Fixpoint well_named_node (n : FsNode) : bool :=
  match n with
  | Directory d => well_named_dir d
  | _ => true
  end
with well_named_dir (d : FsDir) : bool :=
  match d with
  | Unreadable _ => true
  | Listing es => well_named_entries es
  end
with well_named_entries (es : FsEntries) : bool :=
  match es with
  | ENil => true
  | ECons name n rest => clean_name name && well_named_node n && well_named_entries rest
  end.

(** The names a listing has. *)
Fixpoint entry_names (es : FsEntries) : list string :=
  match es with
  | ENil => []
  | ECons name _ rest => name :: entry_names rest
  end.

(** No directory of the tree lists a name twice. *)
Fixpoint distinct_names_node (n : FsNode) : bool :=
  match n with
  | Directory d => distinct_names_dir d
  | _ => true
  end
with distinct_names_dir (d : FsDir) : bool :=
  match d with
  | Unreadable _ => true
  | Listing es => distinct_names_entries es
  end
with distinct_names_entries (es : FsEntries) : bool :=
  match es with
  | ENil => true
  | ECons name n rest =>
      negb (existsb (String.eqb name) (entry_names rest))
      && distinct_names_node n && distinct_names_entries rest
  end.

(** [located d dirs name]: below directory [d], going down through the
    directories named [dirs], there is a regular file called [name]. *)
Inductive located : FsDir -> list string -> string -> Prop :=
| located_here es name :
    entry_in name RegFile es -> located (Listing es) [] name
| located_below es sub_name sub dirs name :
    entry_in sub_name (Directory sub) es ->
    located sub dirs name ->
    located (Listing es) (sub_name :: dirs) name.

(** ** The filter of the watcher (line 136) *)

(** [s.includes(sub)]: [sub] occurs somewhere in [s]. *)
Fixpoint includes (s sub : string) : bool :=
  String.prefix sub s
  || match s with
     | EmptyString => false
     | String _ s' => includes s' sub
     end.

(** [ignored: (p) => p.includes("node_modules") || p.includes(".git")]. *)
Definition ignored (p : string) : bool :=
  includes p "node_modules" || includes p ".git".

(* ===================================================================== *)
(** * Part II: lemmas and theorems                                        *)
(* ===================================================================== *)

Import JsString Posix.

Section StringFacts.

Lemma split_nonempty (c : ascii) (s : string) : split c s <> [].
Proof.
  destruct s as [|d s]; simpl; [discriminate|].
  destruct (Ascii.eqb d c); [discriminate|].
  destruct (split c s); discriminate.
Qed.

(** [s.split(sep).join(glue)] rewrites every [sep] of [s] to [glue]. *)
Lemma join_split_map (c g : ascii) (s : string) :
  join (String g "") (split c s)
  = map_chars (fun d => if Ascii.eqb d c then g else d) s.
Proof.
  induction s as [|d s IH]; simpl; [reflexivity|].
  destruct (Ascii.eqb d c) eqn:E.
  - unfold join in *. simpl. destruct (split c s) eqn:Es.
    + exfalso. eapply split_nonempty; eauto.
    + rewrite <- IH. reflexivity.
  - unfold join in *. destruct (split c s) as [|h t] eqn:Es.
    + exfalso. eapply split_nonempty; eauto.
    + rewrite <- IH. simpl. destruct t; reflexivity.
Qed.

Lemma contains_map_chars_replace (c g : ascii) (s : string) :
  c <> g ->
  contains c (map_chars (fun d => if Ascii.eqb d c then g else d) s) = false.
Proof.
  intros Hne. induction s as [|d s IH]; simpl; [reflexivity|].
  rewrite IH, orb_false_r.
  destruct (Ascii.eqb d c) eqn:E.
  - apply Ascii.eqb_neq. congruence.
  - exact E.
Qed.

Lemma map_chars_id (f : ascii -> ascii) (s : string) :
  (forall d, f d = d) -> map_chars f s = s.
Proof. intros Hf. induction s; simpl; [reflexivity|]. now rewrite Hf, IHs. Qed.

Lemma join_split_same (c : ascii) (s : string) :
  join (String c "") (split c s) = s.
Proof.
  rewrite join_split_map. apply map_chars_id.
  intros d. destruct (Ascii.eqb d c) eqn:E; [|reflexivity].
  apply Ascii.eqb_eq in E. congruence.
Qed.

End StringFacts.

Section SplitFacts.
Context (c : ascii).

Lemma split_app (a b : string) :
  split c (a +:+ String c b) = (split c a ++ split c b)%list.
Proof.
  induction a as [|d a IH]; simpl.
  - rewrite Ascii.eqb_refl. reflexivity.
  - destruct (Ascii.eqb d c); [now rewrite IH|].
    rewrite IH. destruct (split c a) eqn:E; [|reflexivity].
    exfalso. eapply split_nonempty; eauto.
Qed.

Lemma split_no_sep (s : string) : contains c s = false -> split c s = [s].
Proof.
  induction s as [|d s IH]; simpl; [reflexivity|].
  intros H. apply orb_false_elim in H as [Hd Hs].
  rewrite Hd, (IH Hs). reflexivity.
Qed.

Lemma split_pieces_no_sep (s : string) :
  Forall (fun piece => contains c piece = false) (split c s).
Proof.
  induction s as [|d s IH]; simpl.
  - repeat constructor.
  - destruct (Ascii.eqb d c) eqn:E.
    + constructor; [reflexivity|exact IH].
    + destruct (split c s) as [|h t]; inversion IH; subst; constructor; simpl;
        try rewrite E; auto.
Qed.

Lemma join_cons2 (x y : string) (l : list string) :
  join (String c "") (x :: y :: l) = x +:+ String c (join (String c "") (y :: l)).
Proof. reflexivity. Qed.

Lemma split_join (l : list string) :
  Forall (fun piece => contains c piece = false) l -> l <> [] ->
  split c (join (String c "") l) = l.
Proof.
  induction l as [|x l IH]; intros Hl Hne; [congruence|].
  inversion Hl as [|? ? Hx Hl']; subst.
  destruct l as [|y l].
  - apply split_no_sep, Hx.
  - rewrite join_cons2, split_app, (split_no_sep x Hx), IH; auto; discriminate.
Qed.

End SplitFacts.

Lemma append_nil_l (t : string) : "" +:+ t = t.
Proof. reflexivity. Qed.

Lemma append_cons (a : ascii) (s t : string) : String a s +:+ t = String a (s +:+ t).
Proof. reflexivity. Qed.

Lemma append_empty_r (s : string) : s +:+ "" = s.
Proof. induction s; [reflexivity|]. rewrite append_cons. congruence. Qed.

Lemma clean_no_sep (l : list string) :
  Forall clean l -> Forall (fun s => contains "/" s = false) l.
Proof. induction 1 as [|x l (_&_&_&Hx) _ IH]; constructor; assumption. Qed.

Lemma push_segment_clean_id (b : bool) (acc : list string) (seg : string) :
  clean seg -> push_segment b acc seg = seg :: acc.
Proof.
  intros (H1 & H2 & H3 & _). unfold push_segment.
  apply String.eqb_neq in H1, H2, H3. now rewrite H1, H2, H3.
Qed.

Lemma push_segment_false_clean (acc : list string) (seg : string) :
  Forall clean acc -> contains "/" seg = false ->
  Forall clean (push_segment false acc seg).
Proof.
  intros Hacc Hseg. unfold push_segment.
  destruct (String.eqb seg "") eqn:E1; simpl; [exact Hacc|].
  destruct (String.eqb seg ".") eqn:E2; simpl; [exact Hacc|].
  destruct (String.eqb seg "..") eqn:E3.
  - destruct acc as [|last rest]; [constructor|].
    destruct (String.eqb last ".."); [exact Hacc|].
    now inversion Hacc.
  - constructor; [|exact Hacc].
    apply String.eqb_neq in E1, E2, E3. repeat split; assumption.
Qed.

Lemma fold_push_false_clean (segs acc : list string) :
  Forall clean acc -> Forall (fun s => contains "/" s = false) segs ->
  Forall clean (fold_left (push_segment false) segs acc).
Proof.
  revert acc. induction segs as [|s segs IH]; intros acc Hacc Hs; simpl; [exact Hacc|].
  inversion Hs; subst. apply IH; [|assumption].
  now apply push_segment_false_clean.
Qed.

Lemma fold_push_clean_id (b : bool) (segs acc : list string) :
  Forall clean segs ->
  fold_left (push_segment b) segs acc = (rev segs ++ acc)%list.
Proof.
  revert acc. induction segs as [|s segs IH]; intros acc Hs; simpl; [reflexivity|].
  inversion Hs; subst.
  rewrite push_segment_clean_id by assumption.
  rewrite IH by assumption. now rewrite <- app_assoc.
Qed.

Lemma normalizeSegments_false_clean (segs : list string) :
  Forall (fun s => contains "/" s = false) segs ->
  Forall clean (normalizeSegments false segs).
Proof.
  intros H. unfold normalizeSegments. apply Forall_rev.
  apply fold_push_false_clean; [constructor|exact H].
Qed.

Lemma push_segment_empty (b : bool) (acc : list string) :
  push_segment b acc "" = acc.
Proof. reflexivity. Qed.

Lemma normalize_abs_path (l : list string) :
  Forall clean l ->
  normalizeSegments false (split "/" (abs_path l +:+ "/")) = l.
Proof.
  intros Hl. unfold abs_path. rewrite append_cons.
  change (split "/" (String "/" (join "/" l +:+ "/")))
    with ("" :: split "/" (join "/" l +:+ String "/" "")).
  rewrite split_app. simpl.
  unfold normalizeSegments. simpl.
  rewrite fold_left_app. simpl.
  destruct l as [|x l].
  - reflexivity.
  - rewrite split_join; [|now apply clean_no_sep|discriminate].
    rewrite fold_push_clean_id by assumption.
    rewrite push_segment_empty, app_nil_r. apply rev_involutive.
Qed.

Lemma abs_path_nonempty (l : list string) : String.eqb (abs_path l) "" = false.
Proof. reflexivity. Qed.

Lemma resolve_shape (cwd : Cwd) (p : string) :
  exists l, Forall clean l /\ posix_resolve cwd p = abs_path l.
Proof.
  unfold posix_resolve.
  set (r1 := if String.eqb p "" then "" else p +:+ "/").
  destruct (starts_with_slash p) eqn:Hp.
  - eexists; split; [|reflexivity].
    apply normalizeSegments_false_clean, split_pieces_no_sep.
  - rewrite (cwd_absolute cwd).
    eexists; split; [|reflexivity].
    apply normalizeSegments_false_clean, split_pieces_no_sep.
Qed.

Lemma resolve_abs_path (cwd : Cwd) (l : list string) :
  Forall clean l -> posix_resolve cwd (abs_path l) = abs_path l.
Proof.
  intros Hl. unfold posix_resolve.
  rewrite abs_path_nonempty.
  change (starts_with_slash (abs_path l)) with true. cbv iota.
  unfold normalizeString. rewrite normalize_abs_path by assumption.
  reflexivity.
Qed.

Lemma segments_abs_path (l : list string) :
  Forall clean l -> segments (abs_path l) = l.
Proof.
  intros Hl. unfold segments, abs_path. simpl.
  rewrite filter_cons_False by (intros H; now apply H).
  destruct l as [|x l]; [reflexivity|].
  rewrite split_join; [|now apply clean_no_sep|discriminate].
  induction Hl as [|y l' Hy Hl' IH]; [reflexivity|].
  rewrite filter_cons_True by (destruct Hy as (H&_); exact H).
  f_equal. destruct l'; [reflexivity|]. apply IH.
Qed.

Lemma abs_path_inj (l1 l2 : list string) :
  Forall clean l1 -> Forall clean l2 -> abs_path l1 = abs_path l2 -> l1 = l2.
Proof.
  intros H1 H2 E. rewrite <- (segments_abs_path l1 H1), <- (segments_abs_path l2 H2).
  now rewrite E.
Qed.

Lemma resolve_idempotent (cwd : Cwd) (p : string) :
  posix_resolve cwd (posix_resolve cwd p) = posix_resolve cwd p.
Proof.
  destruct (resolve_shape cwd p) as (l & Hl & E). rewrite E.
  now apply resolve_abs_path.
Qed.

Lemma drop_common_refl (l : list string) : drop_common l l = ([], []).
Proof. induction l as [|x l IH]; simpl; [reflexivity|]. now rewrite String.eqb_refl. Qed.

Lemma drop_common_app (l x : list string) : drop_common l (l ++ x) = ([], x).
Proof.
  induction l as [|y l IH]; simpl; [now destruct x|]. now rewrite String.eqb_refl.
Qed.

Lemma drop_common_prefix (a b : list string) :
  fst (drop_common a b) = [] <-> is_prefix a b = true.
Proof.
  revert b. induction a as [|x a IH]; intros b; simpl.
  - destruct b; simpl; tauto.
  - destruct b as [|y b]; simpl.
    + split; discriminate.
    + destruct (String.eqb x y); simpl; [apply IH|]. split; discriminate.
Qed.

Lemma drop_common_down_clean (a b : list string) :
  Forall clean b -> Forall clean (snd (drop_common a b)).
Proof.
  revert b. induction a as [|x a IH]; intros b Hb; simpl.
  - now destruct b.
  - destruct b as [|y b]; simpl; [constructor|].
    destruct (String.eqb x y); simpl; [|assumption].
    apply IH. now inversion Hb.
Qed.

(** The key of a path, from the directories of the resolved root and of the
    resolved path. *)
Lemma posix_key_of_segments (cwd : Cwd) (cfg : Config) (p : string) (lr lp : list string) :
  Forall clean lr -> Forall clean lp ->
  posix_resolve cwd (LOCAL_DIR cfg) = abs_path lr ->
  posix_resolve cwd p = abs_path lp ->
  localPathToKey (posix cwd) cfg p
  = join "/" (map (fun _ => "..") (fst (drop_common lr lp)) ++ snd (drop_common lr lp))%list.
Proof.
  intros Hr Hp Er Ep. unfold localPathToKey. simpl.
  rewrite join_split_same, Er, Ep. unfold posix_relative.
  destruct (String.eqb (abs_path lr) (abs_path lp)) eqn:E.
  - apply String.eqb_eq, abs_path_inj in E; [|assumption..]. subst lp.
    now rewrite drop_common_refl.
  - rewrite !resolve_abs_path by assumption. rewrite E.
    rewrite !segments_abs_path by assumption.
    now destruct (drop_common lr lp).
Qed.

Lemma under_root_segments (cwd : Cwd) (cfg : Config) (p : string) (lr lp : list string) :
  Forall clean lr -> Forall clean lp ->
  posix_resolve cwd (LOCAL_DIR cfg) = abs_path lr ->
  posix_resolve cwd p = abs_path lp ->
  under_root cwd cfg p = is_prefix lr lp.
Proof.
  intros Hr Hp Er Ep. unfold under_root.
  now rewrite Er, Ep, !segments_abs_path.
Qed.



(** The file ./pdf/sub/doc.pdf under the root ./pdf, for any working
    directory. *)
Lemma posix_key_example (cwd : Cwd) (cfg : Config) :
  LOCAL_DIR cfg = "./pdf" ->
  localPathToKey (posix cwd) cfg "./pdf/sub/doc.pdf" = "sub/doc.pdf".
Proof.
  intros HL.
  set (st := fold_left (push_segment false) (split "/" (cwd_path cwd)) []).
  assert (Hst : Forall clean st).
  { apply fold_push_false_clean; [constructor|apply split_pieces_no_sep]. }
  assert (Hpdf : clean "pdf") by (repeat split; discriminate).
  assert (Hsub : clean "sub") by (repeat split; discriminate).
  assert (Hdoc : clean "doc.pdf") by (repeat split; discriminate).
  assert (Er : posix_resolve cwd (LOCAL_DIR cfg) = abs_path (rev st ++ ["pdf"])).
  { rewrite HL. unfold posix_resolve. simpl starts_with_slash. cbv iota.
    rewrite (cwd_absolute cwd). simpl String.eqb. cbv iota.
    unfold normalizeString, normalizeSegments.
    change (cwd_path cwd +:+ "/" +:+ "./pdf" +:+ "/")
      with (cwd_path cwd +:+ String "/" "./pdf/").
    rewrite split_app, fold_left_app. fold st. reflexivity. }
  assert (Ep : posix_resolve cwd "./pdf/sub/doc.pdf"
               = abs_path ((rev st ++ ["pdf"]) ++ ["sub"; "doc.pdf"])).
  { unfold posix_resolve. simpl starts_with_slash. cbv iota.
    rewrite (cwd_absolute cwd). simpl String.eqb. cbv iota.
    unfold normalizeString, normalizeSegments.
    change (cwd_path cwd +:+ "/" +:+ "./pdf/sub/doc.pdf" +:+ "/")
      with (cwd_path cwd +:+ String "/" "./pdf/sub/doc.pdf/").
    rewrite split_app, fold_left_app. fold st. simpl. now rewrite <- !app_assoc. }
  assert (Hr : Forall clean (rev st ++ ["pdf"])).
  { apply Forall_app. split; [now apply Forall_rev|now repeat constructor]. }
  assert (Hp : Forall clean ((rev st ++ ["pdf"]) ++ ["sub"; "doc.pdf"])).
  { apply Forall_app. split; [assumption|now repeat constructor]. }
  rewrite (posix_key_of_segments cwd cfg _ _ _ Hr Hp Er Ep).
  now rewrite drop_common_app.
Qed.

(** ** The key mapper *)

(** C4: the key mapper is deterministic and separator-normalized.  For every
    path module and configuration, two local paths that resolve to the same
    absolute path get the same key; the key is the root-relative path with
    every occurrence of the module's separator rewritten to "/", so a
    separator other than "/" never occurs in a key; and under POSIX, for any
    working directory, root ./pdf maps ./pdf/sub/doc.pdf to sub/doc.pdf. *)
Theorem localPathToKey_deterministic_normalized
    (P : PathModule) (cfg : Config) (cwd : Cwd) :
  (forall p1 p2 : string,
      path_resolve P p1 = path_resolve P p2 ->
      localPathToKey P cfg p1 = localPathToKey P cfg p2)
  /\ (forall p : string,
      localPathToKey P cfg p
      = map_chars (fun c => if Ascii.eqb c (path_sep P) then "/"%char else c)
          (path_relative P (path_resolve P (LOCAL_DIR cfg)) (path_resolve P p)))
  /\ (forall p : string,
      path_sep P <> "/"%char ->
      contains (path_sep P) (localPathToKey P cfg p) = false)
  /\ (LOCAL_DIR cfg = "./pdf" ->
      localPathToKey (posix cwd) cfg "./pdf/sub/doc.pdf" = "sub/doc.pdf").
Proof.
  repeat split.
  - intros p1 p2 E. unfold localPathToKey. now rewrite E.
  - intros p. unfold localPathToKey. apply join_split_map.
  - intros p Hsep. unfold localPathToKey.
    change "/" with (String "/" "") at 1.
    rewrite join_split_map. now apply contains_map_chars_replace.
  - apply posix_key_example.
Qed.

Lemma localPathToKey_deterministic_normalized_witness :
  (posix_resolve Sample.cwd "./pdf/a.pdf" = posix_resolve Sample.cwd "pdf/draft/../a.pdf"
   /\ localPathToKey (posix Sample.cwd) Sample.cfg "./pdf/a.pdf"
      = localPathToKey (posix Sample.cwd) Sample.cfg "pdf/draft/../a.pdf")
  /\ contains "\" (localPathToKey (Backslash.backslash Sample.cwd)
                     Sample.cfg_backslash ".\pdf\sub\doc.pdf") = false
  /\ localPathToKey (posix Sample.cwd) Sample.cfg "./pdf/sub/doc.pdf" = "sub/doc.pdf".
Proof.
  destruct (localPathToKey_deterministic_normalized (posix Sample.cwd) Sample.cfg Sample.cwd)
    as (Hsame & _ & _ & Hexample).
  destruct (localPathToKey_deterministic_normalized
              (Backslash.backslash Sample.cwd) Sample.cfg_backslash Sample.cwd)
    as (_ & _ & Hsep & _).
  split; [split; [vm_compute; reflexivity|]|split].
  - apply Hsame. vm_compute. reflexivity.
  - apply Hsep. simpl. discriminate.
  - apply Hexample. reflexivity.
Defined.



Example backslash_key :
  localPathToKey (Backslash.backslash Sample.cwd) Sample.cfg_backslash
    ".\pdf\sub\doc.pdf" = "sub/doc.pdf".
Proof. vm_compute. reflexivity. Qed.

(** ** The walker *)

Section WalkerFacts.
Context (P : PathModule).

(** [walk] rejects exactly when some directory of the tree is unreadable. *)
Lemma walk_throws_iff_unreadable :
  (forall n dir name files,
      is_throw (fst (walk_entry P dir name n files)) = node_unreadable n)
  /\ (forall d dir files,
      is_throw (fst (walk P dir d files)) = dir_unreadable d)
  /\ (forall es dir files,
      is_throw (fst (walk_entries P dir es files)) = entries_unreadable es).
Proof.
  apply Fs_mutind.
  - intros dir name files. simpl. now destruct (is_pdf P name).
  - reflexivity.
  - intros d IH dir name files. simpl. apply IH.
  - reflexivity.
  - intros es IH dir files. simpl. apply IH.
  - reflexivity.
  - intros name n IHn rest IHrest dir files. simpl.
    specialize (IHn dir name files).
    destruct (walk_entry P dir name n files) as [[[]|err] files'] eqn:E; simpl in *.
    + rewrite <- IHn. simpl. apply IHrest.
    + now rewrite <- IHn.
Qed.

Lemma walk_throws (d : FsDir) (dir : string) (files : list string) :
  dir_unreadable d = true ->
  exists err files', walk P dir d files = (Throw err, files').
Proof.
  intros H. destruct walk_throws_iff_unreadable as (_ & Hd & _).
  specialize (Hd d dir files). rewrite H in Hd.
  destruct (walk P dir d files) as [[[]|err] files']; [discriminate|eauto].
Qed.

Lemma walk_returns (d : FsDir) (dir : string) (files : list string) :
  dir_unreadable d = false ->
  exists files', walk P dir d files = (Normal tt, files').
Proof.
  intros H. destruct walk_throws_iff_unreadable as (_ & Hd & _).
  specialize (Hd d dir files). rewrite H in Hd.
  destruct (walk P dir d files) as [[[]|err] files']; [eauto|discriminate].
Qed.

(** The regular files below a listing, entry by entry. *)
Lemma file_at_nil (dir full name : string) :
  ~ file_at P dir (Listing ENil) full name.
Proof. intros H. inversion H as [? ? ? Hin|? ? ? ? ? ? Hin]; inversion Hin. Qed.

Lemma file_at_cons (dir ename : string) (n : FsNode) (rest : FsEntries) (full name : string) :
  file_at P dir (Listing (ECons ename n rest)) full name
  <-> (n = RegFile /\ name = ename /\ full = path_join P dir ename)
      \/ (exists sub, n = Directory sub /\ file_at P (path_join P dir ename) sub full name)
      \/ file_at P dir (Listing rest) full name.
Proof.
  split.
  - intros H. inversion H as [? ? ? Hin|? ? sn sub ? ? Hin Hsub]; subst.
    + inversion Hin; subst; [left; auto|].
      right; right. now constructor.
    + inversion Hin; subst; [right; left; eauto|].
      right; right. econstructor 2; eauto.
  - intros [(-> & -> & ->)|[(sub & -> & Hsub)|H]].
    + constructor. constructor.
    + econstructor 2; [constructor|exact Hsub].
    + inversion H; subst.
      * constructor. now constructor.
      * econstructor 2; [constructor; eassumption|eassumption].
Qed.

(** What a completed walk has pushed. *)
Lemma walk_pushes_eligible_files :
  (forall n dir ename files files',
      walk_entry P dir ename n files = (Normal tt, files') ->
      forall f, In f files' <->
        In f files
        \/ (n = RegFile /\ f = path_join P dir ename /\ is_pdf P ename = true)
        \/ (exists sub name, n = Directory sub
              /\ file_at P (path_join P dir ename) sub f name /\ is_pdf P name = true))
  /\ (forall d dir files files',
      walk P dir d files = (Normal tt, files') ->
      forall f, In f files' <->
        In f files \/ exists name, file_at P dir d f name /\ is_pdf P name = true)
  /\ (forall es dir files files',
      walk_entries P dir es files = (Normal tt, files') ->
      forall f, In f files' <->
        In f files \/ exists name, file_at P dir (Listing es) f name /\ is_pdf P name = true).
Proof.
  apply Fs_mutind.
  - (* RegFile *)
    intros dir ename files files' H f. simpl in H.
    destruct (is_pdf P ename) eqn:E; inversion H; subst.
    + rewrite in_app_iff. simpl. split.
      * intros [?|[<-|[]]]; [now left|right; left; auto].
      * intros [?|[(_ & -> & _)|(sub & ? & ? & _)]]; [now left|right; now left|discriminate].
    + split; [now left|].
      intros [?|[(_ & _ & ?)|(sub & ? & ? & _)]]; [assumption|discriminate..].
  - (* OtherNode *)
    intros dir ename files files' H f. inversion H; subst.
    split; [now left|].
    intros [?|[(? & _)|(sub & ? & ? & _)]]; [assumption|discriminate..].
  - (* Directory *)
    intros d IH dir ename files files' H f. simpl in H.
    rewrite (IH _ _ _ H f). split.
    + intros [?|(name & ? & ?)]; [now left|]. right; right. eauto.
    + intros [?|[(? & _)|(sub & name & Heq & ? & ?)]]; [now left|discriminate|].
      inversion Heq; subst. right. eauto.
  - (* Unreadable *)
    intros err dir files files' H. discriminate H.
  - (* Listing *)
    intros es IH dir files files' H f. simpl in H. apply (IH _ _ _ H).
  - (* ENil *)
    intros dir files files' H f. inversion H; subst.
    split; [now left|]. intros [?|(name & Hat & _)]; [assumption|].
    now apply file_at_nil in Hat.
  - (* ECons *)
    intros ename n IHn rest IHrest dir files files' H f. simpl in H.
    destruct (walk_entry P dir ename n files) as [[[]|err] files1] eqn:E; [|discriminate].
    rewrite (IHrest _ _ _ H f), (IHn _ _ _ _ E f). split.
    + intros [[?|[(-> & -> & Hpdf)|(sub & name & -> & Hat & Hpdf)]]|(name & Hat & Hpdf)].
      * now left.
      * right. exists ename. split; [|assumption]. apply file_at_cons. left. auto.
      * right. exists name. split; [|assumption]. apply file_at_cons. right; left. eauto.
      * right. exists name. split; [|assumption]. apply file_at_cons. right; right. assumption.
    + intros [?|(name & Hat & Hpdf)]; [left; now left|].
      apply file_at_cons in Hat as [(-> & -> & ->)|[(sub & -> & Hat)|Hat]].
      * left. right. left. auto.
      * left. right. right. eauto.
      * right. eauto.
Qed.

Lemma walk_files_exact (d : FsDir) (dir : string) (files : list string) :
  walk P dir d [] = (Normal tt, files) ->
  forall f, In f files <-> exists name, file_at P dir d f name /\ is_pdf P name = true.
Proof.
  intros H f. destruct walk_pushes_eligible_files as (_ & Hd & _).
  rewrite (Hd _ _ _ _ H f). simpl. tauto.
Qed.

End WalkerFacts.

(** ** The extension of a POSIX file name *)

Lemma append_assoc3 (a b d : string) : (a +:+ b) +:+ d = a +:+ (b +:+ d).
Proof. induction a as [|x a IH]; [reflexivity|]. rewrite !append_cons. now rewrite IH. Qed.

Lemma string_rev_app (a b : string) :
  string_rev (a +:+ b) = string_rev b +:+ string_rev a.
Proof.
  induction a as [|x a IH].
  - simpl. now rewrite append_nil_l, append_empty_r.
  - rewrite append_cons. simpl. now rewrite IH, append_assoc3.
Qed.

Lemma string_rev_involutive (s : string) : string_rev (string_rev s) = s.
Proof.
  induction s as [|x s IH]; [reflexivity|].
  simpl. rewrite string_rev_app. simpl. now rewrite IH.
Qed.

Lemma contains_app (c : ascii) (a b : string) :
  contains c (a +:+ b) = contains c a || contains c b.
Proof.
  induction a as [|x a IH]; [reflexivity|].
  rewrite append_cons. simpl. now rewrite IH, orb_assoc.
Qed.

Lemma contains_string_rev (c : ascii) (s : string) :
  contains c (string_rev s) = contains c s.
Proof.
  induction s as [|x s IH]; [reflexivity|].
  simpl. rewrite contains_app, IH. simpl. rewrite orb_false_r. apply orb_comm.
Qed.

Lemma strip_no_slash (r : string) :
  contains "/" r = false -> strip_trailing_slashes_rev r = r.
Proof.
  destruct r as [|c r]; [reflexivity|]. simpl.
  intros H. apply orb_false_elim in H as [-> _]. reflexivity.
Qed.

Lemma base_part_no_slash (name : string) :
  contains "/" name = false -> base_part name = name.
Proof.
  intros H. unfold base_part.
  rewrite strip_no_slash by now rewrite contains_string_rev.
  rewrite string_rev_involutive, split_no_sep by assumption. reflexivity.
Qed.

Lemma last_dot_none (s : string) :
  last_dot s = None <-> contains "." s = false.
Proof.
  induction s as [|c s IH]; simpl; [tauto|].
  destruct (last_dot s) as [[b suf]|].
  - split; [discriminate|]. intros H. apply orb_false_elim in H as [_ H].
    apply IH in H. discriminate.
  - destruct (Ascii.eqb c "."); simpl; [split; discriminate|].
    split; [intros _; now apply IH|reflexivity].
Qed.

Lemma last_dot_app (pre rest : string) :
  contains "." rest = false ->
  last_dot (pre +:+ String "." rest) = Some (String.eqb pre "", String "." rest).
Proof.
  intros H. induction pre as [|c pre IH].
  - rewrite append_nil_l. simpl. apply last_dot_none in H. now rewrite H.
  - rewrite append_cons. simpl. now rewrite IH.
Qed.

Lemma last_dot_some (s : string) (b : bool) (suf : string) :
  last_dot s = Some (b, suf) ->
  exists pre rest,
    s = pre +:+ suf /\ suf = String "." rest /\ contains "." rest = false
    /\ b = String.eqb pre "".
Proof.
  revert b suf. induction s as [|c s IH]; intros b suf; simpl; [discriminate|].
  destruct (last_dot s) as [[b' suf']|] eqn:E.
  - intros H. inversion H; subst.
    destruct (IH _ _ eq_refl) as (pre & rest & -> & -> & Hrest & _).
    exists (String c pre), rest. repeat split; assumption.
  - destruct (Ascii.eqb c ".") eqn:Ec; [|discriminate].
    intros H. inversion H; subst. apply Ascii.eqb_eq in Ec. subst c.
    exists "", s. repeat split. now apply last_dot_none.
Qed.

Lemma lower_char_dot (c : ascii) : lower_char c = "."%char <-> c = "."%char.
Proof.
  destruct c as [[] [] [] [] [] [] [] []]; vm_compute; split; congruence.
Qed.

Lemma lower_char_not_dot (c d : ascii) :
  lower_char c = d -> d <> "."%char -> Ascii.eqb c "." = false.
Proof.
  intros H Hd. apply Ascii.eqb_neq. intros ->. apply Hd. rewrite <- H. reflexivity.
Qed.

(** An extension that lowercases to ".pdf" is a dot followed by three
    characters that are not dots. *)
Lemma lower_pdf_shape (ext : string) :
  toLowerCase ext = ".pdf" ->
  exists rest, ext = String "." rest /\ contains "." rest = false
               /\ String.length rest = 3%nat.
Proof.
  unfold toLowerCase.
  destruct ext as [|c0 [|c1 [|c2 [|c3 [|c4 ext]]]]]; cbn [map_chars]; try discriminate.
  intros H. injection H as H0 H1 H2 H3.
  apply (proj1 (lower_char_dot c0)) in H0. subst c0.
  eexists. split; [reflexivity|]. split; [|reflexivity]. simpl.
  rewrite (lower_char_not_dot c1 _ H1), (lower_char_not_dot c2 _ H2),
    (lower_char_not_dot c3 _ H3) by discriminate.
  reflexivity.
Qed.

Lemma length_app_string (a b : string) :
  String.length (a +:+ b) = (String.length a + String.length b)%nat.
Proof. induction a as [|x a IH]; [reflexivity|]. rewrite append_cons. simpl. now rewrite IH. Qed.

(** A name without "/" passes the test of lines 119-120 exactly when it is a
    non-empty stem followed by ".pdf" in some mix of cases. *)
Lemma posix_is_pdf_iff (cwd : Cwd) (name : string) :
  contains "/" name = false ->
  is_pdf (posix cwd) name = true
  <-> exists stem ext, name = stem +:+ ext /\ stem <> "" /\ toLowerCase ext = ".pdf".
Proof.
  intros Hname. unfold is_pdf. simpl. unfold posix_extname.
  rewrite base_part_no_slash by assumption.
  rewrite String.eqb_eq. split.
  - destruct (last_dot name) as [[[] suf]|] eqn:E; try discriminate.
    destruct (String.eqb name ".."); [discriminate|].
    intros Hlow. apply last_dot_some in E as (pre & rest & -> & -> & _ & Hb).
    exists pre, (String "." rest). repeat split; [|assumption].
    intros ->. discriminate.
  - intros (stem & ext & -> & Hstem & Hlow).
    destruct (lower_pdf_shape ext Hlow) as (rest & -> & Hrest & Hlen).
    rewrite (last_dot_app stem rest Hrest).
    apply String.eqb_neq in Hstem. rewrite Hstem.
    destruct (String.eqb (stem +:+ String "." rest) "..") eqn:E; [|assumption].
    apply String.eqb_eq in E. apply (f_equal String.length) in E.
    rewrite length_app_string in E. simpl in E. lia.
Qed.

Lemma is_pdf_eq (P : PathModule) (name : string) :
  is_pdf P name = true <-> toLowerCase (path_extname P name) = ".pdf".
Proof. unfold is_pdf. apply String.eqb_eq. Qed.

Lemma main_after_failed_walk (P : PathModule) (cfg : Config) (t0 : Z) (root : FsDir) :
  dir_unreadable root = true ->
  (exists err, fst (initialSync P cfg root (boot t0)) = Throw err)
  /\ main P cfg t0 true root = with_phase (boot t0) (Exited 1).
Proof.
  intros H. destruct (walk_throws P root (LOCAL_DIR cfg) [] H) as (err & files & E).
  unfold main, initialSync. rewrite E. simpl. eauto.
Qed.

(** C6, as the code has it: a read error on any directory of the tree aborts
    the walk.  The rejection leaves [walk] and [initialSync], and [main]
    exits with status 1 before a single file is submitted; the walk completes,
    and then holds every eligible file, exactly when every directory is
    readable. *)
Theorem walk_aborts_on_unreadable_directory
    (P : PathModule) (cfg : Config) (t0 : Z) (root : FsDir) :
  (dir_unreadable root = true ->
     (exists err files, walk P (LOCAL_DIR cfg) root [] = (Throw err, files))
     /\ (exists err, fst (initialSync P cfg root (boot t0)) = Throw err)
     /\ main P cfg t0 true root = with_phase (boot t0) (Exited 1))
  /\ (dir_unreadable root = false ->
     exists files,
       walk P (LOCAL_DIR cfg) root [] = (Normal tt, files)
       /\ forall f name,
           file_at P (LOCAL_DIR cfg) root f name -> is_pdf P name = true -> In f files).
Proof.
  split; intros H.
  - split; [now apply walk_throws|]. now apply main_after_failed_walk.
  - destruct (walk_returns P root (LOCAL_DIR cfg) [] H) as (files & E).
    exists files. split; [exact E|]. intros f name Hat Hpdf.
    apply (walk_files_exact P _ _ _ E). eauto.
Qed.

Lemma walk_aborts_on_unreadable_directory_witness :
  (dir_unreadable Sample.tree_locked = true
   /\ main (posix Sample.cwd) Sample.cfg 0 true Sample.tree_locked
      = with_phase (boot 0) (Exited 1))
  /\ (dir_unreadable Sample.tree_mixed = false
      /\ exists files,
          walk (posix Sample.cwd) (LOCAL_DIR Sample.cfg) Sample.tree_mixed []
          = (Normal tt, files)
          /\ forall f name,
              file_at (posix Sample.cwd) (LOCAL_DIR Sample.cfg) Sample.tree_mixed f name ->
              is_pdf (posix Sample.cwd) name = true -> In f files).
Proof.
  split; (split; [reflexivity|]).
  - apply (walk_aborts_on_unreadable_directory
             (posix Sample.cwd) Sample.cfg 0 Sample.tree_locked).
    reflexivity.
  - apply (walk_aborts_on_unreadable_directory
             (posix Sample.cwd) Sample.cfg 0 Sample.tree_mixed).
    reflexivity.
Defined.

(** C6 fails as stated: with an unreadable directory next to a readable one
    that holds x.pdf, the walk rejects, nothing is submitted, and the
    eligible file of the sibling directory is not produced. *)
Lemma walk_does_not_skip_unreadable_subtree :
  file_at (posix Sample.cwd) "./pdf" Sample.tree_locked "pdf/open/x.pdf" "x.pdf"
  /\ is_pdf (posix Sample.cwd) "x.pdf" = true
  /\ walk (posix Sample.cwd) "./pdf" Sample.tree_locked [] = (Throw "EACCES", [])
  /\ scheduled (limiter (main (posix Sample.cwd) Sample.cfg 0 true Sample.tree_locked)) = []
  /\ ~ (exists files,
         walk (posix Sample.cwd) "./pdf" Sample.tree_locked [] = (Normal tt, files)
         /\ In "pdf/open/x.pdf" files).
Proof.
  split.
  { apply (file_below (posix Sample.cwd) "./pdf" _ "open"
             (Listing (ECons "x.pdf" RegFile ENil)) "pdf/open/x.pdf" "x.pdf").
    - apply entry_later, entry_first.
    - apply (file_here (posix Sample.cwd) "pdf/open" _ "x.pdf"), entry_first. }
  split; [reflexivity|]. split; [reflexivity|]. split; [reflexivity|].
  intros (files & H & _). discriminate H.
Qed.

(** C7, as the code has it: the eligibility filter is the fixed extension
    ".pdf", compared without regard to case; no configuration value enters
    it.  Whatever the configuration, a completed walk holds exactly the
    regular files under the root whose lowercased extension is ".pdf". *)
Theorem walk_selects_exactly_pdf_files
    (P : PathModule) (cfg : Config) (root : FsDir) (files : list string) :
  walk P (LOCAL_DIR cfg) root [] = (Normal tt, files) ->
  forall f : string,
    In f files
    <-> exists name,
          file_at P (LOCAL_DIR cfg) root f name
          /\ toLowerCase (path_extname P name) = ".pdf".
Proof.
  intros H f. rewrite (walk_files_exact P _ _ _ H f).
  split; intros (name & Hat & Hpdf); exists name; (split; [exact Hat|]);
    now apply is_pdf_eq.
Qed.

Lemma walk_selects_exactly_pdf_files_witness :
  walk (posix Sample.cwd) (LOCAL_DIR Sample.cfg) Sample.tree_mixed []
  = (Normal tt, ["pdf/paper.pdf"; "pdf/sub/Scan.PDF"])
  /\ forall f : string,
      In f ["pdf/paper.pdf"; "pdf/sub/Scan.PDF"]
      <-> exists name,
            file_at (posix Sample.cwd) (LOCAL_DIR Sample.cfg) Sample.tree_mixed f name
            /\ toLowerCase (path_extname (posix Sample.cwd) name) = ".pdf".
Proof.
  split; [reflexivity|].
  apply (walk_selects_exactly_pdf_files (posix Sample.cwd) Sample.cfg Sample.tree_mixed).
  reflexivity.
Defined.

(** C7 fails as stated: notes.txt is a regular file under the root, and no
    configuration makes the walk produce it; every configuration with root
    ./pdf yields the same two PDF files. *)
Lemma walk_filter_is_not_configurable :
  file_at (posix Sample.cwd) "./pdf" Sample.tree_mixed "pdf/notes.txt" "notes.txt"
  /\ path_extname (posix Sample.cwd) "notes.txt" = ".txt"
  /\ (forall cfg : Config,
        LOCAL_DIR cfg = "./pdf" ->
        walk (posix Sample.cwd) (LOCAL_DIR cfg) Sample.tree_mixed []
        = (Normal tt, ["pdf/paper.pdf"; "pdf/sub/Scan.PDF"]))
  /\ ~ (exists cfg : Config,
          LOCAL_DIR cfg = "./pdf"
          /\ In "pdf/notes.txt"
               (snd (walk (posix Sample.cwd) (LOCAL_DIR cfg) Sample.tree_mixed []))).
Proof.
  split.
  { apply (file_here (posix Sample.cwd) "./pdf" _ "notes.txt"), entry_first. }
  split; [reflexivity|]. split.
  - intros cfg ->. reflexivity.
  - intros (cfg & HL & Hin). rewrite HL in Hin. vm_compute in Hin.
    destruct Hin as [H|[H|[]]]; discriminate H.
Qed.

(** C10: the extension test of the walker ignores case.  A directory entry
    that is a regular file is pushed exactly when its extension, lowercased,
    equals ".pdf"; for a POSIX file name this means a non-empty stem followed
    by ".pdf" in any mix of cases, so report.PDF and Thesis.Pdf are
    selected. *)
Theorem walk_extension_test_ignores_case
    (P : PathModule) (cwd : Cwd) (dir name : string) (files : list string) :
  walk_entry P dir name RegFile files
  = (Normal tt,
     if String.eqb (toLowerCase (path_extname P name)) ".pdf"
     then (files ++ [path_join P dir name])%list else files)
  /\ (In (path_join P dir name) (snd (walk_entry P dir name RegFile []))
      <-> toLowerCase (path_extname P name) = ".pdf")
  /\ (contains "/" name = false ->
      (toLowerCase (path_extname (posix cwd) name) = ".pdf"
       <-> exists stem ext,
             name = stem +:+ ext /\ stem <> "" /\ toLowerCase ext = ".pdf"))
  /\ is_pdf (posix cwd) "report.PDF" = true
  /\ is_pdf (posix cwd) "Thesis.Pdf" = true
  /\ is_pdf (posix cwd) "notes.txt" = false.
Proof.
  split; [|split; [|split]].
  - simpl. unfold is_pdf. now destruct (String.eqb _ ".pdf").
  - simpl. unfold is_pdf. destruct (String.eqb _ ".pdf") eqn:E; simpl.
    + apply String.eqb_eq in E. tauto.
    + apply String.eqb_neq in E. tauto.
  - intros Hname. rewrite <- is_pdf_eq. now apply posix_is_pdf_iff.
  - repeat split; reflexivity.
Qed.

Lemma walk_extension_test_ignores_case_witness :
  contains "/" "Scan.PDF" = false
  /\ (toLowerCase (path_extname (posix Sample.cwd) "Scan.PDF") = ".pdf"
      <-> exists stem ext,
            "Scan.PDF" = stem +:+ ext /\ stem <> "" /\ toLowerCase ext = ".pdf").
Proof.
  split; [reflexivity|].
  apply (walk_extension_test_ignores_case (posix Sample.cwd) Sample.cwd "pdf/sub" "Scan.PDF" []).
  reflexivity.
Defined.

(** ** The retrying executor *)

Lemma count_effects_app (which : Effect -> bool) (a b : list Effect) :
  count_effects which (a ++ b) = (count_effects which a + count_effects which b)%nat.
Proof. unfold count_effects. now rewrite List.filter_app, length_app. Qed.

Lemma sleeps_app (a b : list Effect) : sleeps (a ++ b) = (sleeps a ++ sleeps b)%list.
Proof.
  induction a as [|e a IH]; [reflexivity|].
  destruct e; simpl; now rewrite IH.
Qed.

Lemma error_attempts_app (a b : list Effect) :
  error_attempts (a ++ b) = (error_attempts a ++ error_attempts b)%list.
Proof.
  induction a as [|e a IH]; [reflexivity|].
  destruct e as [| |[]|]; simpl; now rewrite IH.
Qed.

Lemma rhythm_app (which : Effect -> bool) (a b : list Effect) :
  rhythm which (a ++ b) = (rhythm which a ++ rhythm which b)%list.
Proof.
  induction a as [|e a IH]; [reflexivity|].
  destruct e; simpl; rewrite IH; try reflexivity; now destruct (which _).
Qed.

Lemma Zseq_snoc (from : Z) (n : nat) :
  Zseq from (S n) = (Zseq from n ++ [(from + Z.of_nat n)%Z])%list.
Proof.
  revert from. induction n as [|n IH]; intros from.
  - simpl. now rewrite Z.add_0_r.
  - change (Zseq from (S (S n))) with (from :: Zseq (from + 1)%Z (S n)).
    rewrite IH. simpl. do 3 f_equal. lia.
Qed.

Lemma Zseq_length (from : Z) (n : nat) : length (Zseq from n) = n.
Proof. revert from. induction n; intros; simpl; auto. Qed.

(** The two executors share one loop; its properties are proved once, for any
    [try] block [body] and any function [loop] that unfolds the way lines
    49-76 and 78-97 do.  [announce] is what is logged before the pause (the
    "Retrying" line of [uploadFile], nothing in [deleteKey]) and [marker]
    recognises the effect that counts one execution of the block. *)
Section RetryLoop.
Context (cfg : Config) (kind : OpKind) (key : string).
Context (body : Z -> Exec unit) (announce : Z -> list Effect).
Context (loop : nat -> Z -> Exec unit) (marker : Effect -> bool).

Hypothesis body_appends : forall n tr,
  body n tr = match body n [] with
              | Some (c, e) => Some (c, (tr ++ e)%list)
              | None => None
              end.
Hypothesis body_total : forall n, body n [] <> None.
Hypothesis body_marks_once : forall n c e,
  body n [] = Some (c, e) ->
  count_effects marker e = 1%nat /\ sleeps e = [] /\ error_attempts e = []
  /\ rhythm marker e = [None].
Hypothesis announce_quiet : forall n,
  count_effects marker (announce n) = 0%nat
  /\ sleeps (announce n) = [] /\ error_attempts (announce n) = []
  /\ rhythm marker (announce n) = [].
Hypothesis marker_console : forall l, marker (Console l) = false.
Hypothesis marker_sleep : forall ms, marker (Sleep ms) = false.

Hypothesis loop_unfold : forall fuel n tr,
  loop fuel n tr =
  match body n tr with
  | Some (Normal a, tr1) => Some (Normal a, tr1)
  | Some (Throw err, tr1) =>
      let tr2 := (tr1 ++ [Console (LogError kind key n err)])%list in
      if (n <? RETRY_LIMIT cfg)%Z then
        match fuel with
        | O => None
        | S fuel' =>
            loop fuel' (n + 1)%Z (tr2 ++ announce n ++ [Sleep (backoff n)])%list
        end
      else Some (Normal tt, (tr2 ++ [Console (LogFailed kind key (RETRY_LIMIT cfg))])%list)
  | None => None
  end.

(** The loop always ends normally: whatever the block does, no rejection
    leaves it. *)
Lemma loop_settles (fuel : nat) (n : Z) (tr : list Effect) :
  (Z.to_nat (RETRY_LIMIT cfg - n) <= fuel)%nat ->
  exists tr', loop fuel n tr = Some (Normal tt, tr').
Proof.
  revert n tr. induction fuel as [|fuel IH]; intros n tr Hfuel;
    rewrite loop_unfold, body_appends;
    pose proof (body_total n) as Htot;
    destruct (body n []) as [[[[]|err] e]|]; try congruence; eauto; cbv zeta;
    destruct (n <? RETRY_LIMIT cfg)%Z eqn:E; eauto.
  - apply Z.ltb_lt in E. lia.
  - apply IH. apply Z.ltb_lt in E. lia.
Qed.

(** When the block throws at every attempt. *)
Lemma loop_all_fail (fuel : nat) (n : Z) (tr : list Effect) :
  (forall m, (n <= m <= Z.max n (RETRY_LIMIT cfg))%Z -> body_throws (body m) = true) ->
  (Z.to_nat (RETRY_LIMIT cfg - n) <= fuel)%nat ->
  exists tr',
    loop fuel n tr = Some (Normal tt, tr')
    /\ count_effects marker tr'
       = (count_effects marker tr + S (Z.to_nat (RETRY_LIMIT cfg - n)))%nat
    /\ error_attempts tr'
       = (error_attempts tr ++ Zseq n (S (Z.to_nat (RETRY_LIMIT cfg - n))))%list
    /\ sleeps tr'
       = (sleeps tr ++ map backoff (Zseq n (Z.to_nat (RETRY_LIMIT cfg - n))))%list
    /\ rhythm marker tr'
       = (rhythm marker tr
          ++ None :: flat_map (fun a => [Some (backoff a); None])
                       (Zseq n (Z.to_nat (RETRY_LIMIT cfg - n))))%list
    /\ last tr' = Some (Console (LogFailed kind key (RETRY_LIMIT cfg))).
Proof.
  revert n tr. induction fuel as [|fuel IH]; intros n tr Hfail Hfuel;
    rewrite loop_unfold, body_appends;
    pose proof (Hfail n ltac:(lia)) as Hn; unfold body_throws in Hn;
    pose proof (body_marks_once n) as Hmark;
    destruct (body n []) as [[[[]|err] e]|]; try discriminate; cbv zeta;
    destruct (Hmark _ _ eq_refl) as (Hm & Hs & He & Hr);
    destruct (n <? RETRY_LIMIT cfg)%Z eqn:E.
  - apply Z.ltb_lt in E. lia.
  - apply Z.ltb_ge in E.
    replace (Z.to_nat (RETRY_LIMIT cfg - n)) with 0%nat by lia.
    eexists. split; [reflexivity|].
    rewrite !count_effects_app, !error_attempts_app, !sleeps_app, !rhythm_app, Hm, Hs, He, Hr.
    unfold count_effects. simpl. rewrite !marker_console. simpl.
    rewrite last_snoc, !app_nil_r. repeat split; lia.
  - apply Z.ltb_lt in E.
    destruct (IH (n + 1)%Z (((tr ++ e) ++ [Console (LogError kind key n err)])
                            ++ announce n ++ [Sleep (backoff n)])%list)
      as (tr' & Hrun & Hc & Herr & Hsl & Hrh & Hlast); [intros m Hm'; apply Hfail; lia|lia|].
    exists tr'. split; [exact Hrun|].
    destruct (announce_quiet n) as (Ha1 & Ha2 & Ha3 & Ha4).
    replace (Z.to_nat (RETRY_LIMIT cfg - n))
      with (S (Z.to_nat (RETRY_LIMIT cfg - (n + 1)))) by lia.
    rewrite Hc, Herr, Hsl, Hrh.
    rewrite !count_effects_app, !error_attempts_app, !sleeps_app, !rhythm_app,
      Hm, Hs, He, Hr, Ha1, Ha2, Ha3, Ha4.
    unfold count_effects. simpl. rewrite marker_console, marker_sleep. simpl.
    rewrite !app_nil_r, <- !app_assoc. simpl.
    repeat split; [lia|assumption].
  - apply Z.ltb_ge in E.
    replace (Z.to_nat (RETRY_LIMIT cfg - n)) with 0%nat by lia.
    eexists. split; [reflexivity|].
    rewrite !count_effects_app, !error_attempts_app, !sleeps_app, !rhythm_app, Hm, Hs, He, Hr.
    unfold count_effects. simpl. rewrite !marker_console. simpl.
    rewrite last_snoc, !app_nil_r. repeat split; lia.
Qed.

End RetryLoop.

Section ExecutorFacts.
Context (P : PathModule) (cfg : Config) (io : Collaborators) (localPath : string).

Local Abbreviation key := (localPathToKey P cfg localPath).

Lemma upload_body_appends (n : Z) (tr : list Effect) :
  upload_body cfg io localPath key n tr
  = match upload_body cfg io localPath key n [] with
    | Some (c, e) => Some (c, (tr ++ e)%list)
    | None => None
    end.
Proof.
  unfold upload_body, exec_bind, perform, console, perform.
  destruct (io_readFile io localPath n) as [data|err]; simpl; [|reflexivity].
  destruct (io_send io _ n) as [[]|err]; simpl; now rewrite <- ?app_assoc.
Qed.

Lemma upload_body_marks_once (n : Z) (c : Completion unit) (e : list Effect) :
  upload_body cfg io localPath key n [] = Some (c, e) ->
  count_effects is_read e = 1%nat /\ sleeps e = [] /\ error_attempts e = []
  /\ rhythm is_read e = [None].
Proof.
  unfold upload_body, exec_bind, perform, console, perform.
  destruct (io_readFile io localPath n) as [data|err]; simpl.
  - destruct (io_send io _ n) as [[]|err]; simpl; intros H; inversion H; subst; auto.
  - intros H; inversion H; subst; auto.
Qed.

Lemma upload_body_total (n : Z) : upload_body cfg io localPath key n [] <> None.
Proof.
  unfold upload_body, exec_bind, perform, console, perform.
  destruct (io_readFile io localPath n) as [data|err]; simpl; [|discriminate].
  destruct (io_send io _ n) as [[]|err]; discriminate.
Qed.

Lemma uploadFile_fuel_unfold (fuel : nat) (n : Z) (tr : list Effect) :
  uploadFile_fuel P cfg io fuel localPath n tr =
  match upload_body cfg io localPath key n tr with
  | Some (Normal a, tr1) => Some (Normal a, tr1)
  | Some (Throw err, tr1) =>
      let tr2 := (tr1 ++ [Console (LogError KUpload key n err)])%list in
      if (n <? RETRY_LIMIT cfg)%Z then
        match fuel with
        | O => None
        | S fuel' =>
            uploadFile_fuel P cfg io fuel' localPath (n + 1)%Z
              (tr2 ++ [Console (LogRetrying key (backoff n))] ++ [Sleep (backoff n)])%list
        end
      else Some (Normal tt, (tr2 ++ [Console (LogFailed KUpload key (RETRY_LIMIT cfg))])%list)
  | None => None
  end.
Proof.
  destruct fuel; simpl; unfold try_catch; fold key;
    destruct (upload_body cfg io localPath key n tr) as [[[a|err] tr1]|]; try reflexivity;
    unfold exec_bind, console, sleep, perform, out_of_fuel; simpl;
    destruct (n <? RETRY_LIMIT cfg)%Z; try reflexivity.
  now rewrite <- !app_assoc.
Qed.

Lemma delete_body_appends (n : Z) (tr : list Effect) :
  delete_body cfg io key n tr
  = match delete_body cfg io key n [] with
    | Some (c, e) => Some (c, (tr ++ e)%list)
    | None => None
    end.
Proof.
  unfold delete_body, exec_bind, perform, console, perform.
  destruct (io_send io _ n) as [[]|err]; simpl; now rewrite <- ?app_assoc.
Qed.

Lemma delete_body_marks_once (n : Z) (c : Completion unit) (e : list Effect) :
  delete_body cfg io key n [] = Some (c, e) ->
  count_effects is_send e = 1%nat /\ sleeps e = [] /\ error_attempts e = []
  /\ rhythm is_send e = [None].
Proof.
  unfold delete_body, exec_bind, perform, console, perform.
  destruct (io_send io _ n) as [[]|err]; simpl; intros H; inversion H; subst; auto.
Qed.

Lemma delete_body_total (n : Z) : delete_body cfg io key n [] <> None.
Proof.
  unfold delete_body, exec_bind, perform, console, perform.
  destruct (io_send io _ n) as [[]|err]; discriminate.
Qed.

Lemma deleteKey_fuel_unfold (fuel : nat) (n : Z) (tr : list Effect) :
  deleteKey_fuel P cfg io fuel localPath n tr =
  match delete_body cfg io key n tr with
  | Some (Normal a, tr1) => Some (Normal a, tr1)
  | Some (Throw err, tr1) =>
      let tr2 := (tr1 ++ [Console (LogError KDelete key n err)])%list in
      if (n <? RETRY_LIMIT cfg)%Z then
        match fuel with
        | O => None
        | S fuel' =>
            deleteKey_fuel P cfg io fuel' localPath (n + 1)%Z
              (tr2 ++ [] ++ [Sleep (backoff n)])%list
        end
      else Some (Normal tt, (tr2 ++ [Console (LogFailed KDelete key (RETRY_LIMIT cfg))])%list)
  | None => None
  end.
Proof.
  destruct fuel; simpl; unfold try_catch; fold key;
    destruct (delete_body cfg io key n tr) as [[[a|err] tr1]|]; try reflexivity;
    unfold exec_bind, console, sleep, perform, out_of_fuel; simpl;
    destruct (n <? RETRY_LIMIT cfg)%Z; reflexivity.
Qed.

(** Every call of [uploadFile] ends normally. *)
Lemma uploadFile_settles (n : Z) (tr : list Effect) :
  exists tr', uploadFile P cfg io localPath n tr = Some (Normal tt, tr').
Proof.
  unfold uploadFile.
  apply (loop_settles cfg KUpload key (upload_body cfg io localPath key)
           (fun n => [Console (LogRetrying key (backoff n))])
           (fun fuel n => uploadFile_fuel P cfg io fuel localPath n)).
  - apply upload_body_appends.
  - apply upload_body_total.
  - apply uploadFile_fuel_unfold.
  - unfold retries_left. lia.
Qed.

Lemma deleteKey_settles (n : Z) (tr : list Effect) :
  exists tr', deleteKey P cfg io localPath n tr = Some (Normal tt, tr').
Proof.
  unfold deleteKey.
  apply (loop_settles cfg KDelete key (delete_body cfg io key) (fun _ => [])
           (fun fuel n => deleteKey_fuel P cfg io fuel localPath n)).
  - apply delete_body_appends.
  - apply delete_body_total.
  - apply deleteKey_fuel_unfold.
  - unfold retries_left. lia.
Qed.

Lemma uploadFile_all_fail (n : Z) :
  (forall m, (n <= m <= Z.max n (RETRY_LIMIT cfg))%Z ->
             upload_attempt_fails P cfg io localPath m = true) ->
  exists tr,
    uploadFile P cfg io localPath n [] = Some (Normal tt, tr)
    /\ count_effects is_read tr = S (Z.to_nat (RETRY_LIMIT cfg - n))
    /\ error_attempts tr = Zseq n (S (Z.to_nat (RETRY_LIMIT cfg - n)))
    /\ sleeps tr = map backoff (Zseq n (Z.to_nat (RETRY_LIMIT cfg - n)))
    /\ rhythm is_read tr
       = None :: flat_map (fun a => [Some (backoff a); None])
                   (Zseq n (Z.to_nat (RETRY_LIMIT cfg - n)))
    /\ last tr = Some (Console (LogFailed KUpload key (RETRY_LIMIT cfg))).
Proof.
  intros Hfail. unfold uploadFile.
  apply (loop_all_fail cfg KUpload key (upload_body cfg io localPath key)
           (fun n => [Console (LogRetrying key (backoff n))])
           (fun fuel n => uploadFile_fuel P cfg io fuel localPath n) is_read).
  - apply upload_body_appends.
  - apply upload_body_marks_once.
  - intros m. repeat split.
  - reflexivity.
  - reflexivity.
  - apply uploadFile_fuel_unfold.
  - exact Hfail.
  - unfold retries_left. lia.
Qed.

Lemma deleteKey_all_fail (n : Z) :
  (forall m, (n <= m <= Z.max n (RETRY_LIMIT cfg))%Z ->
             delete_attempt_fails P cfg io localPath m = true) ->
  exists tr,
    deleteKey P cfg io localPath n [] = Some (Normal tt, tr)
    /\ count_effects is_send tr = S (Z.to_nat (RETRY_LIMIT cfg - n))
    /\ error_attempts tr = Zseq n (S (Z.to_nat (RETRY_LIMIT cfg - n)))
    /\ sleeps tr = map backoff (Zseq n (Z.to_nat (RETRY_LIMIT cfg - n)))
    /\ rhythm is_send tr
       = None :: flat_map (fun a => [Some (backoff a); None])
                   (Zseq n (Z.to_nat (RETRY_LIMIT cfg - n)))
    /\ last tr = Some (Console (LogFailed KDelete key (RETRY_LIMIT cfg))).
Proof.
  intros Hfail. unfold deleteKey.
  apply (loop_all_fail cfg KDelete key (delete_body cfg io key) (fun _ => [])
           (fun fuel n => deleteKey_fuel P cfg io fuel localPath n) is_send).
  - apply delete_body_appends.
  - apply delete_body_marks_once.
  - intros m. repeat split.
  - reflexivity.
  - reflexivity.
  - apply deleteKey_fuel_unfold.
  - exact Hfail.
  - unfold retries_left. lia.
Qed.

End ExecutorFacts.




(** C3: error containment.  Whatever the read and the remote call do, at
    whatever attempts, [uploadFile] and [deleteKey] end normally: no
    rejection reaches the caller.  When every attempt fails, the last thing
    done is to log the failure of that key. *)
Theorem executor_never_rejects
    (P : PathModule) (cfg : Config) (io : Collaborators) (localPath : string) :
  (exists tr,
      uploadFile P cfg io localPath first_attempt [] = Some (Normal tt, tr)
      /\ ((forall n, (1 <= n <= Z.max 1 (RETRY_LIMIT cfg))%Z ->
                     upload_attempt_fails P cfg io localPath n = true) ->
          last tr = Some (Console (LogFailed KUpload (localPathToKey P cfg localPath)
                                     (RETRY_LIMIT cfg)))))
  /\ (exists tr,
      deleteKey P cfg io localPath first_attempt [] = Some (Normal tt, tr)
      /\ ((forall n, (1 <= n <= Z.max 1 (RETRY_LIMIT cfg))%Z ->
                     delete_attempt_fails P cfg io localPath n = true) ->
          last tr = Some (Console (LogFailed KDelete (localPathToKey P cfg localPath)
                                     (RETRY_LIMIT cfg))))).
Proof.
  split.
  - destruct (uploadFile_settles P cfg io localPath first_attempt []) as (tr & Hrun).
    exists tr. split; [exact Hrun|]. intros Hfail.
    destruct (uploadFile_all_fail P cfg io localPath 1 Hfail) as (tr' & Hrun' & _ & _ & _ & _ & Hl).
    unfold first_attempt in Hrun. congruence.
  - destruct (deleteKey_settles P cfg io localPath first_attempt []) as (tr & Hrun).
    exists tr. split; [exact Hrun|]. intros Hfail.
    destruct (deleteKey_all_fail P cfg io localPath 1 Hfail) as (tr' & Hrun' & _ & _ & _ & _ & Hl).
    unfold first_attempt in Hrun. congruence.
Qed.

Lemma executor_never_rejects_witness :
  (forall n, (1 <= n <= Z.max 1 (RETRY_LIMIT Sample.cfg))%Z ->
     upload_attempt_fails (Posix.posix Sample.cwd) Sample.cfg Sample.io_remote_down
       "pdf/a.pdf" n = true)
  /\ exists tr,
       uploadFile (Posix.posix Sample.cwd) Sample.cfg Sample.io_remote_down
         "pdf/a.pdf" first_attempt [] = Some (Normal tt, tr)
       /\ last tr = Some (Console (LogFailed KUpload "a.pdf" 3)).
Proof.
  split; [intros n _; reflexivity|].
  destruct (executor_never_rejects (Posix.posix Sample.cwd) Sample.cfg
              Sample.io_remote_down "pdf/a.pdf") as ((tr & Hrun & Hlast) & _).
  exists tr. split; [exact Hrun|]. apply Hlast. intros n _. reflexivity.
Defined.

(** The full trace of a permanently failing upload under the defaults. *)
Example upload_trace_remote_down :
  uploadFile (Posix.posix Sample.cwd) Sample.cfg Sample.io_remote_down "pdf/a.pdf" 1 []
  = Some (Normal tt,
      [ ReadFile "pdf/a.pdf";
        Send (PutObjectCommand "papers" "a.pdf" "%PDF-1.7" "application/pdf" "public-read");
        Console (LogError KUpload "a.pdf" 1 "ECONNRESET");
        Console (LogRetrying "a.pdf" 400); Sleep 400;
        ReadFile "pdf/a.pdf";
        Send (PutObjectCommand "papers" "a.pdf" "%PDF-1.7" "application/pdf" "public-read");
        Console (LogError KUpload "a.pdf" 2 "ECONNRESET");
        Console (LogRetrying "a.pdf" 800); Sleep 800;
        ReadFile "pdf/a.pdf";
        Send (PutObjectCommand "papers" "a.pdf" "%PDF-1.7" "application/pdf" "public-read");
        Console (LogError KUpload "a.pdf" 3 "ECONNRESET");
        Console (LogFailed KUpload "a.pdf" 3) ]).
Proof. vm_compute. reflexivity. Qed.

(** ** The dispatch limiter *)

Section LimiterFacts.
Context (concurrency : nat).

Lemma start_next_scheduled (L : Limiter) :
  scheduled (start_next concurrency L) = scheduled L.
Proof.
  unfold start_next. destruct (queue L); [reflexivity|].
  now destruct (length (running L) <? concurrency)%nat.
Qed.

Lemma start_next_settled (L : Limiter) :
  settled (start_next concurrency L) = settled L.
Proof.
  unfold start_next. destruct (queue L); [reflexivity|].
  now destruct (length (running L) <? concurrency)%nat.
Qed.

Lemma limit_scheduled (op : Op) (L : Limiter) :
  scheduled (limit concurrency op L)
  = (scheduled L ++ [{| task_id := length (scheduled L); task_op := op |}])%list.
Proof. unfold limit. now rewrite start_next_scheduled. Qed.

Lemma limit_settled (op : Op) (L : Limiter) :
  settled (limit concurrency op L) = settled L.
Proof. unfold limit. now rewrite start_next_settled. Qed.

(** Starting the head of the queue keeps the invariant, provided that
    whenever more than one task waits at most one slot is free. *)
Lemma start_next_inv (L : Limiter) :
  (length (running L) <= concurrency)%nat ->
  (length (running L) <= peak L <= concurrency)%nat ->
  (started L ++ queue L)%list = scheduled L ->
  map task_id (scheduled L) = seq 0 (length (scheduled L)) ->
  sublist (running L) (started L) ->
  ((1 < length (queue L))%nat -> (concurrency <= S (length (running L)))%nat) ->
  limiter_inv concurrency (start_next concurrency L).
Proof.
  intros Hb Hp Hf Hi Hr Hnear. unfold start_next.
  destruct (queue L) as [|t q] eqn:Eq.
  - split; auto; rewrite Eq; [exact Hf|congruence].
  - destruct (length (running L) <? concurrency)%nat eqn:E.
    + apply Nat.ltb_lt in E. split; simpl.
      * rewrite length_app. simpl. lia.
      * rewrite length_app. simpl. lia.
      * rewrite <- Hf, <- app_assoc. reflexivity.
      * exact Hi.
      * now apply sublist_app.
      * intros Hq. rewrite length_app. simpl.
        assert (1 < length (t :: q))%nat as H1 by (destruct q; [congruence|simpl; lia]).
        specialize (Hnear H1). lia.
    + apply Nat.ltb_ge in E. split; auto.
      * rewrite Eq. exact Hf.
      * intros _. lia.
Qed.

Lemma limit_inv (op : Op) (L : Limiter) :
  limiter_inv concurrency L -> limiter_inv concurrency (limit concurrency op L).
Proof.
  intros [Hb Hp Hf Hi Hr Hbusy]. unfold limit. apply start_next_inv; simpl; auto.
  - rewrite app_assoc, Hf. reflexivity.
  - rewrite map_app, length_app, Hi. simpl. rewrite Nat.add_1_r, seq_S. reflexivity.
  - rewrite length_app. simpl. intros H. rewrite Hbusy; [lia|].
    destruct (queue L); [simpl in H; lia|discriminate].
Qed.

Lemma sublist_filter_bool {A : Type} (f : A -> bool) (l : list A) :
  sublist (List.filter f l) l.
Proof.
  induction l as [|x l IH]; simpl; [constructor|].
  destruct (f x); now constructor.
Qed.

Lemma filter_out_one (id : nat) (l : list Task) :
  NoDup (map task_id l) ->
  existsb (fun t => Nat.eqb (task_id t) id) l = true ->
  S (length (List.filter (fun t => negb (Nat.eqb (task_id t) id)) l)) = length l.
Proof.
  induction l as [|t l IH]; simpl; [discriminate|].
  intros Hnd Hex. apply NoDup_cons in Hnd as [Hnin Hnd].
  destruct (Nat.eqb (task_id t) id) eqn:E; simpl.
  - f_equal. apply Nat.eqb_eq in E. subst id.
    rewrite (List.forallb_filter_id _ l); [reflexivity|].
    apply List.forallb_forall. intros x Hx.
    apply negb_true_iff, Nat.eqb_neq. intros Heq. apply Hnin.
    rewrite <- Heq. apply list_elem_of_In. apply in_map. exact Hx.
  - f_equal. apply IH; assumption.
Qed.

Lemma running_ids_nodup (L : Limiter) :
  limiter_inv concurrency L -> NoDup (map task_id (running L)).
Proof.
  intros [_ _ Hf Hi Hr _].
  assert (Hsub : sublist (map task_id (running L)) (map task_id (scheduled L))).
  { apply (fmap_sublist task_id). rewrite <- Hf. now apply sublist_inserts_r. }
  eapply sublist_NoDup; [|exact Hsub]. rewrite Hi. apply NoDup_seq.
Qed.

Lemma task_done_inv (id : nat) (outcome : Completion unit) (L : Limiter) :
  limiter_inv concurrency L -> limiter_inv concurrency (task_done concurrency id outcome L).
Proof.
  intros HL. pose proof (running_ids_nodup L HL) as Hnd.
  destruct HL as [Hb Hp Hf Hi Hr Hbusy]. unfold task_done, is_running.
  destruct (existsb _ (running L)) eqn:Ex; [|now split].
  pose proof (filter_out_one id (running L) Hnd Ex) as Hlen.
  apply start_next_inv; simpl; auto.
  - lia.
  - lia.
  - etransitivity; [apply sublist_filter_bool|exact Hr].
  - intros H. assert (queue L <> []) as Hq by (destruct (queue L); [simpl in H; lia|discriminate]).
    specialize (Hbusy Hq). lia.
Qed.

Lemma empty_limiter_inv : limiter_inv concurrency empty_limiter.
Proof. split; simpl; auto; try lia. congruence. Qed.

Lemma limiter_step_inv (L : Limiter) (e : LimiterEvent) :
  limiter_inv concurrency L -> limiter_inv concurrency (limiter_step concurrency L e).
Proof. destruct e; simpl; [apply limit_inv|apply task_done_inv]. Qed.

Lemma fold_limiter_step_inv (es : list LimiterEvent) (L : Limiter) :
  limiter_inv concurrency L ->
  limiter_inv concurrency (fold_left (limiter_step concurrency) es L).
Proof.
  revert L. induction es as [|e es IH]; intros L HL; simpl; [exact HL|].
  apply IH, limiter_step_inv, HL.
Qed.

Lemma start_next_peak (L : Limiter) : (peak L <= peak (start_next concurrency L))%nat.
Proof.
  unfold start_next. destruct (queue L); [lia|].
  destruct (length (running L) <? concurrency)%nat; simpl; lia.
Qed.

Lemma limiter_step_peak (L : Limiter) (e : LimiterEvent) :
  (peak L <= peak (limiter_step concurrency L e))%nat.
Proof.
  destruct e as [op|id outcome]; simpl.
  - unfold limit. etransitivity; [|apply start_next_peak]. simpl. lia.
  - unfold task_done. destruct (is_running id L); [|lia].
    etransitivity; [|apply start_next_peak]. simpl. lia.
Qed.

Lemma fold_limiter_step_peak (es : list LimiterEvent) (L : Limiter) :
  (peak L <= peak (fold_left (limiter_step concurrency) es L))%nat.
Proof.
  revert L. induction es as [|e es IH]; intros L; simpl; [lia|].
  etransitivity; [apply (limiter_step_peak L e)|apply IH].
Qed.

(** *** What a call of [limit] and a completion do *)

Lemma is_running_In (id : nat) (L : Limiter) :
  In id (map task_id (running L)) -> is_running id L = true.
Proof.
  intros H. apply in_map_iff in H as (t & <- & Ht). unfold is_running.
  apply existsb_exists. exists t. split; [exact Ht|apply Nat.eqb_refl].
Qed.

(** A task scheduled while a slot is free begins at once; otherwise it
    joins the back of the queue. *)
Lemma limit_effect (op : Op) (L : Limiter) :
  limiter_inv concurrency L ->
  let t := {| task_id := length (scheduled L); task_op := op |} in
  let L' := limit concurrency op L in
  scheduled L' = (scheduled L ++ [t])%list
  /\ settled L' = settled L
  /\ if (length (running L) <? concurrency)%nat
     then running L' = (running L ++ [t])%list /\ started L' = (started L ++ [t])%list
          /\ queue L' = []
     else running L' = running L /\ started L' = started L
          /\ queue L' = (queue L ++ [t])%list.
Proof.
  intros [Hb Hp Hf Hi Hr Hbusy] t L'. subst L'.
  split; [apply limit_scheduled|]. split; [apply limit_settled|].
  unfold limit, start_next. cbn [queue running started].
  destruct (length (running L) <? concurrency)%nat eqn:E.
  - apply Nat.ltb_lt in E.
    assert (Hq : queue L = []).
    { destruct (queue L) as [|x q] eqn:Eq; [reflexivity|].
      assert (length (running L) = concurrency) by (apply Hbusy; discriminate). lia. }
    rewrite Hq. cbn [app]. auto.
  - destruct (queue L ++ [{| task_id := length (scheduled L); task_op := op |}])%list
      as [|x q] eqn:Eq; [now destruct (queue L)|]. auto.
Qed.

(** The completion of a running task settles its promise, frees its slot,
    and starts the head of the queue in it. *)
Lemma task_done_effect (id : nat) (outcome : Completion unit) (L : Limiter) :
  limiter_inv concurrency L ->
  In id (map task_id (running L)) ->
  let L' := task_done concurrency id outcome L in
  let others := List.filter (fun t => negb (Nat.eqb (task_id t) id)) (running L) in
  scheduled L' = scheduled L
  /\ settled L' = (settled L ++ [(id, outcome)])%list
  /\ S (length others) = length (running L)
  /\ match queue L with
     | [] => running L' = others /\ started L' = started L /\ queue L' = []
     | t :: q => running L' = (others ++ [t])%list
                 /\ started L' = (started L ++ [t])%list /\ queue L' = q
     end.
Proof.
  intros HL Hid L' others. subst L'.
  pose proof (running_ids_nodup L HL) as Hnd.
  pose proof (is_running_In id L Hid) as Hrun.
  pose proof (filter_out_one id (running L) Hnd Hrun) as Hlen.
  destruct HL as [Hb Hp Hf Hi Hr Hbusy].
  unfold task_done. rewrite Hrun.
  split; [now rewrite start_next_scheduled|]. split; [now rewrite start_next_settled|].
  split; [exact Hlen|].
  unfold start_next. cbn [queue running started].
  destruct (queue L) as [|t q]; [auto|].
  fold others.
  assert ((length others <? concurrency)%nat = true) as ->
    by (apply Nat.ltb_lt; subst others; lia).
  auto.
Qed.

(** Every task that has begun is running or has settled. *)
Lemma start_next_accounts (L : Limiter) :
  length (started L) = (length (running L) + length (settled L))%nat ->
  length (started (start_next concurrency L))
  = (length (running (start_next concurrency L))
     + length (settled (start_next concurrency L)))%nat.
Proof.
  intros H. unfold start_next. destruct (queue L); [exact H|].
  destruct (length (running L) <? concurrency)%nat; [|exact H].
  simpl. rewrite !length_app. simpl. lia.
Qed.

Lemma limiter_step_accounts (L : Limiter) (e : LimiterEvent) :
  limiter_inv concurrency L ->
  length (started L) = (length (running L) + length (settled L))%nat ->
  length (started (limiter_step concurrency L e))
  = (length (running (limiter_step concurrency L e))
     + length (settled (limiter_step concurrency L e)))%nat.
Proof.
  intros HL H. destruct e as [op|id outcome]; simpl.
  - unfold limit. apply start_next_accounts. exact H.
  - unfold task_done. destruct (is_running id L) eqn:E; [|exact H].
    apply start_next_accounts. cbn [started running settled].
    pose proof (filter_out_one id (running L) (running_ids_nodup L HL) E) as Hlen.
    rewrite length_app. simpl. lia.
Qed.

Lemma fold_limiter_step_accounts (es : list LimiterEvent) (L : Limiter) :
  limiter_inv concurrency L ->
  length (started L) = (length (running L) + length (settled L))%nat ->
  length (started (fold_left (limiter_step concurrency) es L))
  = (length (running (fold_left (limiter_step concurrency) es L))
     + length (settled (fold_left (limiter_step concurrency) es L)))%nat.
Proof.
  revert L. induction es as [|e es IH]; intros L HL H; simpl; [exact H|].
  apply IH; [now apply limiter_step_inv|now apply limiter_step_accounts].
Qed.

(** The tasks that have begun are the first ones scheduled, as many as
    have settled and CONCURRENCY more. *)
Lemma started_is_prefix (L : Limiter) :
  limiter_inv concurrency L ->
  length (started L) = (length (running L) + length (settled L))%nat ->
  started L = firstn (length (settled L) + concurrency) (scheduled L).
Proof.
  intros [Hb Hp Hf Hi Hr Hbusy] Hacc. rewrite <- Hf.
  destruct (queue L) as [|t q] eqn:Eq.
  - rewrite app_nil_r. symmetry. apply firstn_all2. lia.
  - assert (Hfull : length (running L) = concurrency) by (apply Hbusy; discriminate).
    rewrite firstn_app.
    replace (length (settled L) + concurrency - length (started L))%nat with 0%nat by lia.
    rewrite firstn_all2 by lia. simpl. now rewrite app_nil_r.
Qed.

End LimiterFacts.

(** C9: bound and order of the dispatch limiter.  After any sequence of
    calls of [limit] and task completions, at most CONCURRENCY tasks are
    running, and the instrumented peak of the running count, which dominates
    the count at every earlier instant, is at most CONCURRENCY; the tasks
    that have begun are the first ones scheduled, in the order they were
    scheduled, the waiting ones follow in that order, and none waits while a
    slot is free.  Every task that has begun is running or has settled, so
    the tasks begun are exactly the first (settled + CONCURRENCY) scheduled.
    A task scheduled while a slot is free begins at once, otherwise it goes
    to the back of the queue; the completion of a running task settles its
    promise and frees its slot, and the head of the queue begins in that
    slot at once.  With CONCURRENCY = 4 and a hundred tasks the peak is 4 and
    all hundred have begun, in order, once they have all completed. *)
Theorem limiter_bound_and_fifo (concurrency : nat) (events : list LimiterEvent) :
  let L := limiter_run concurrency events in
  (length (running L) <= concurrency)%nat
  /\ (peak L <= concurrency)%nat
  /\ (forall before after : list LimiterEvent,
        events = (before ++ after)%list ->
        (length (running (limiter_run concurrency before)) <= peak L)%nat)
  /\ (started L ++ queue L)%list = scheduled L
  /\ sublist (running L) (started L)
  /\ (queue L <> [] -> length (running L) = concurrency)
  /\ peak (limiter_run 4 hundred_tasks) = 4%nat
  /\ length (started L) = (length (running L) + length (settled L))%nat
  /\ started L = firstn (length (settled L) + concurrency) (scheduled L)
  /\ (forall op : Op,
        let t := {| task_id := length (scheduled L); task_op := op |} in
        let L' := limiter_step concurrency L (Schedule op) in
        scheduled L' = (scheduled L ++ [t])%list
        /\ settled L' = settled L
        /\ if (length (running L) <? concurrency)%nat
           then running L' = (running L ++ [t])%list
                /\ started L' = (started L ++ [t])%list /\ queue L' = []
           else running L' = running L /\ started L' = started L
                /\ queue L' = (queue L ++ [t])%list)
  /\ (forall (id : nat) (outcome : Completion unit),
        In id (map task_id (running L)) ->
        let L' := limiter_step concurrency L (Finish id outcome) in
        let others := List.filter (fun t => negb (Nat.eqb (task_id t) id)) (running L) in
        scheduled L' = scheduled L
        /\ settled L' = (settled L ++ [(id, outcome)])%list
        /\ S (length others) = length (running L)
        /\ match queue L with
           | [] => running L' = others /\ started L' = started L /\ queue L' = []
           | t :: q => running L' = (others ++ [t])%list
                       /\ started L' = (started L ++ [t])%list /\ queue L' = q
           end)
  /\ map task_id (started (limiter_run 4 hundred_tasks)) = seq 0 100.
Proof.
  intros L.
  pose proof (fold_limiter_step_inv concurrency events empty_limiter
                (empty_limiter_inv concurrency)) as HL.
  pose proof (fold_limiter_step_accounts concurrency events empty_limiter
                (empty_limiter_inv concurrency) eq_refl) as Hacc.
  fold (limiter_run concurrency events) in HL, Hacc. fold L in HL, Hacc.
  pose proof HL as [Hb Hp Hf Hi Hr Hbusy].
  split; [exact Hb|]. split; [lia|]. split.
  { intros before after ->. subst L. unfold limiter_run. rewrite fold_left_app.
    etransitivity; [|apply fold_limiter_step_peak].
    apply (fold_limiter_step_inv concurrency before empty_limiter
             (empty_limiter_inv concurrency)). }
  split; [exact Hf|]. split; [exact Hr|]. split; [exact Hbusy|].
  split; [reflexivity|]. split; [exact Hacc|].
  split; [now apply started_is_prefix|].
  split; [intros op; now apply limit_effect|].
  split; [intros id outcome Hid; now apply task_done_effect|].
  reflexivity.
Qed.

Example hundred_tasks_run :
  let L := limiter_run 4 hundred_tasks in
  peak L = 4%nat /\ length (scheduled L) = 100%nat
  /\ map task_id (started L) = seq 0 100 /\ running L = [] /\ queue L = []
  /\ length (settled L) = 100%nat.
Proof. vm_compute. repeat split. Qed.

Lemma limiter_bound_and_fifo_witness :
  let before := map (fun _ : nat => Schedule (Upload "pdf/a.pdf")) (seq 0 6) in
  let after := [Finish 0 (Normal tt)] in
  let L0 := limiter_run 4 before in
  let L := limiter_run 4 (before ++ after) in
  (In 0%nat (map task_id (running L0)) /\ map task_id (queue L0) = [4; 5]%nat)
  /\ (map task_id (running L) = [1; 2; 3; 4]%nat
      /\ map task_id (started L) = [0; 1; 2; 3; 4]%nat
      /\ map task_id (queue L) = [5]%nat
      /\ settled L = [(0%nat, Normal tt)])
  /\ queue L <> []
  /\ length (running L) = 4%nat
  /\ (length (running (limiter_run 4 before)) <= peak L)%nat.
Proof.
  intros before after L0 L.
  assert (Hin : In 0%nat (map task_id (running L0))) by (simpl; auto).
  destruct (limiter_bound_and_fifo 4 before)
    as (_ & _ & _ & _ & _ & _ & _ & _ & _ & _ & Hfinish & _).
  destruct (Hfinish 0%nat (Normal tt) Hin) as (_ & Hsettled & _ & Hnext).
  destruct (limiter_bound_and_fifo 4 (before ++ after)) as (_ & _ & Hpeak & _ & _ & Hbusy & _).
  assert (Hq : queue L <> []) by (vm_compute; discriminate).
  split; [split; [exact Hin|reflexivity]|].
  split; [|split; [exact Hq|split; [exact (Hbusy Hq)|exact (Hpeak before after eq_refl)]]].
  change (queue (limiter_run 4 before))
    with [{| task_id := 4; task_op := Upload "pdf/a.pdf" |};
          {| task_id := 5; task_op := Upload "pdf/a.pdf" |}] in Hnext.
  destruct Hnext as (Hrun & Hst & Hqu).
  change L with (limiter_step 4 (limiter_run 4 before) (Finish 0 (Normal tt))).
  rewrite Hrun, Hst, Hqu, Hsettled. repeat split.
Defined.

(** ** Timers and the debounce map *)

Lemma filter_comm_bool {A : Type} (f g : A -> bool) (l : list A) :
  List.filter f (List.filter g l) = List.filter g (List.filter f l).
Proof.
  induction l as [|x l IH]; simpl; [reflexivity|].
  destruct (f x) eqn:Ef, (g x) eqn:Eg; simpl; rewrite ?Ef, ?Eg, IH; reflexivity.
Qed.

Lemma filter_nil_iff {A : Type} (f : A -> bool) (l : list A) :
  List.filter f l = [] <-> forall x, In x l -> f x = false.
Proof.
  induction l as [|x l IH]; simpl; [tauto|].
  destruct (f x) eqn:E.
  - split; [discriminate|]. intros H. specialize (H x (or_introl eq_refl)). congruence.
  - rewrite IH. split; [intros H y [<-|Hy]; auto|auto].
Qed.

Lemma NoDup_map_inj_on {A B : Type} (f : A -> B) (l : list A) (a b : A) :
  NoDup (map f l) -> In a l -> In b l -> f a = f b -> a = b.
Proof.
  induction l as [|x l IH]; simpl; [tauto|].
  intros Hnd Ha Hb Hf. apply NoDup_cons in Hnd as [Hx Hnd].
  destruct Ha as [<-|Ha], Hb as [<-|Hb]; auto.
  - exfalso. apply Hx. rewrite Hf. apply list_elem_of_In, in_map, Hb.
  - exfalso. apply Hx. rewrite <- Hf. apply list_elem_of_In, in_map, Ha.
Qed.

Lemma filter_at_most_one {A : Type} (f : A -> bool) (l : list A) :
  NoDup l ->
  (forall a b, In a l -> In b l -> f a = true -> f b = true -> a = b) ->
  (length (List.filter f l) <= 1)%nat.
Proof.
  induction l as [|x l IH]; simpl; [lia|].
  intros Hnd Huniq. apply NoDup_cons in Hnd as [Hx Hnd].
  destruct (f x) eqn:E.
  - assert (List.filter f l = []) as ->; [|simpl; lia].
    apply filter_nil_iff. intros y Hy. destruct (f y) eqn:Ey; [|reflexivity].
    exfalso. apply Hx. rewrite (Huniq x y); auto. now apply list_elem_of_In.
  - apply IH; auto.
Qed.

Lemma NoDup_of_map {A B : Type} (f : A -> B) (l : list A) :
  NoDup (map f l) -> NoDup l.
Proof.
  induction l as [|x l IH]; simpl; intros H; [constructor|].
  apply NoDup_cons in H as [Hx H]. apply NoDup_cons. split; [|auto].
  intros Hin. apply Hx. apply list_elem_of_In, in_map. now apply list_elem_of_In.
Qed.

Section DebounceFacts.
Context (P : PathModule) (cfg : Config).

Local Abbreviation key_of := (localPathToKey P cfg).
Local Abbreviation inv := (debounce_inv P cfg).

(** *** The callback *)

Lemma fire_limiter (W : World) (tm : Timer) :
  limiter (fire cfg W tm)
  = match timer_op tm with
    | Some op => limit (CONCURRENCY cfg) op (limiter W)
    | None => limiter W
    end.
Proof.
  unfold fire, timer_op.
  destruct (String.eqb (timer_type tm) "add" || String.eqb (timer_type tm) "change");
    [reflexivity|].
  now destruct (String.eqb (timer_type tm) "unlink").
Qed.

Lemma fire_frame (W : World) (tm : Timer) :
  now (fire cfg W tm) = now W /\ next_timer (fire cfg W tm) = next_timer W
  /\ timers (fire cfg W tm) = timers W
  /\ debounceMap (fire cfg W tm) = delete (timer_key tm) (debounceMap W)
  /\ phase (fire cfg W tm) = phase W /\ awaited (fire cfg W tm) = awaited W.
Proof.
  unfold fire.
  destruct (String.eqb (timer_type tm) "add" || String.eqb (timer_type tm) "change");
    [repeat split|].
  destruct (String.eqb (timer_type tm) "unlink"); repeat split.
Qed.

Lemma fold_fire_frame (tms : list Timer) (W : World) :
  let W' := fold_left (fire cfg) tms W in
  now W' = now W /\ next_timer W' = next_timer W /\ timers W' = timers W
  /\ phase W' = phase W /\ awaited W' = awaited W.
Proof.
  revert W. induction tms as [|tm tms IH]; intros W; simpl; [repeat split|].
  destruct (IH (fire cfg W tm)) as (H1 & H2 & H3 & H4 & H5).
  destruct (fire_frame W tm) as (F1 & F2 & F3 & _ & F4 & F5).
  repeat split; congruence.
Qed.

Lemma fold_fire_map (tms : list Timer) (W : World) (k : string) :
  debounceMap (fold_left (fire cfg) tms W) !! k
  = if existsb (fun tm => String.eqb (timer_key tm) k) tms then None
    else debounceMap W !! k.
Proof.
  revert W. induction tms as [|tm tms IH]; intros W; simpl; [reflexivity|].
  rewrite IH. destruct (fire_frame W tm) as (_ & _ & _ & -> & _).
  destruct (existsb _ tms); [now rewrite orb_true_r|]. rewrite orb_false_r.
  destruct (String.eqb (timer_key tm) k) eqn:E.
  - apply String.eqb_eq in E. subst k. apply lookup_delete_eq.
  - apply String.eqb_neq in E. now apply lookup_delete_ne.
Qed.

Lemma fold_fire_ops (tms : list Timer) (W : World) :
  map task_op (scheduled (limiter (fold_left (fire cfg) tms W)))
  = (map task_op (scheduled (limiter W)) ++ omap timer_op tms)%list.
Proof.
  revert W. induction tms as [|tm tms IH]; intros W; simpl; [now rewrite app_nil_r|].
  rewrite IH, fire_limiter. destruct (timer_op tm) as [op|]; [|reflexivity].
  rewrite limit_scheduled, map_app, <- app_assoc. reflexivity.
Qed.

Lemma fold_fire_settled (tms : list Timer) (W : World) :
  settled (limiter (fold_left (fire cfg) tms W)) = settled (limiter W).
Proof.
  revert W. induction tms as [|tm tms IH]; intros W; simpl; [reflexivity|].
  rewrite IH, fire_limiter. destruct (timer_op tm); [apply limit_settled|reflexivity].
Qed.

(** *** The clock *)

Lemma advance_frame (t : Z) (W : World) :
  let W' := advance cfg t W in
  now W' = Z.max (now W) t /\ next_timer W' = next_timer W
  /\ timers W' = List.filter (fun tm => negb (is_due (Z.max (now W) t) tm)) (timers W)
  /\ phase W' = phase W /\ awaited W' = awaited W.
Proof.
  unfold advance.
  match goal with |- context [fold_left (fire cfg) ?l ?W0] =>
    destruct (fold_fire_frame l W0) as (H1 & H2 & H3 & H4 & H5) end.
  repeat split; assumption.
Qed.

Lemma advance_map (t : Z) (W : World) (k : string) :
  debounceMap (advance cfg t W) !! k
  = if existsb (fun tm => String.eqb (timer_key tm) k)
         (List.filter (is_due (Z.max (now W) t)) (timers W))
    then None else debounceMap W !! k.
Proof. unfold advance. now rewrite fold_fire_map. Qed.

Lemma advance_ops (t : Z) (W : World) :
  map task_op (scheduled (limiter (advance cfg t W)))
  = (map task_op (scheduled (limiter W))
     ++ omap timer_op (List.filter (is_due (Z.max (now W) t)) (timers W)))%list.
Proof. unfold advance. now rewrite fold_fire_ops. Qed.

Lemma advance_settled (t : Z) (W : World) :
  settled (limiter (advance cfg t W)) = settled (limiter W).
Proof. unfold advance. now rewrite fold_fire_settled. Qed.

Lemma advance_no_timers (t : Z) (W : World) :
  timers W = [] ->
  timers (advance cfg t W) = [] /\ debounceMap (advance cfg t W) = debounceMap W
  /\ limiter (advance cfg t W) = limiter W.
Proof. intros H. unfold advance. rewrite H. simpl. auto. Qed.

(** *** The invariant *)

Lemma timers_unique_key (W : World) (a b : Timer) :
  inv W -> In a (timers W) -> In b (timers W) -> timer_key a = timer_key b -> a = b.
Proof.
  intros [Hin _ _ _ Hnd] Ha Hb Hk.
  apply (NoDup_map_inj_on timer_id (timers W)); auto.
  pose proof (Hin a Ha) as H1. pose proof (Hin b Hb) as H2.
  rewrite Hk in H1. congruence.
Qed.

Lemma pending_at_most_one (W : World) (k : string) :
  inv W -> (length (pending_for k W) <= 1)%nat.
Proof.
  intros HW. unfold pending_for. apply filter_at_most_one.
  - eapply NoDup_of_map, timer_ids_nodup, HW.
  - intros a b Ha Hb Hka Hkb. apply String.eqb_eq in Hka, Hkb.
    apply (timers_unique_key W); auto. congruence.
Qed.

Lemma pending_none_iff (W : World) (k : string) :
  inv W -> debounceMap W !! k = None <-> pending_for k W = [].
Proof.
  intros [Hin Hmap _ _ _]. unfold pending_for. rewrite filter_nil_iff. split.
  - intros Hnone tm Htm. apply String.eqb_neq. intros <-.
    rewrite (Hin tm Htm) in Hnone. discriminate.
  - intros Hno. destruct (debounceMap W !! k) as [id|] eqn:E; [|reflexivity].
    destruct (Hmap k id E) as (tm & Htm & <- & _).
    specialize (Hno tm Htm). rewrite String.eqb_refl in Hno. discriminate.
Qed.

Lemma boot_inv (t0 : Z) : inv (boot t0).
Proof.
  split; simpl; try tauto; try constructor.
  intros k id H. rewrite lookup_empty in H. discriminate.
Qed.

Lemma with_limiter_inv (W : World) (L : Limiter) : inv W -> inv (with_limiter W L).
Proof. intros [? ? ? ? ?]. split; assumption. Qed.

Lemma with_phase_inv (W : World) (ph : Phase) : inv W -> inv (with_phase W ph).
Proof. intros [? ? ? ? ?]. split; assumption. Qed.

Lemma with_awaited_inv (W : World) (ids : list nat) : inv W -> inv (with_awaited W ids).
Proof. intros [? ? ? ? ?]. split; assumption. Qed.

Lemma clearTimeout_In (id : nat) (ts : list Timer) (tm : Timer) :
  In tm (clearTimeout id ts) <-> In tm ts /\ timer_id tm <> id.
Proof.
  unfold clearTimeout. rewrite filter_In, negb_true_iff, Nat.eqb_neq. tauto.
Qed.

(** The armed timers that [scheduleOp] keeps are those of the other keys. *)
Lemma kept_timers_other_key (W : World) (k : string) (tm : Timer) :
  inv W ->
  In tm (match debounceMap W !! k with
         | Some id => clearTimeout id (timers W)
         | None => timers W
         end) <-> In tm (timers W) /\ timer_key tm <> k.
Proof.
  intros HW. destruct HW as [Hin Hmap Hpath Hfresh Hnd].
  destruct (debounceMap W !! k) as [id|] eqn:E.
  - rewrite clearTimeout_In. split; intros [Htm Hne]; (split; [exact Htm|]).
    + intros <-. rewrite (Hin tm Htm) in E. congruence.
    + intros <-. destruct (Hmap k _ E) as (tm' & Htm' & Hk & Hid).
      apply Hne. rewrite <- Hk. f_equal. symmetry.
      apply (NoDup_map_inj_on timer_id (timers W)); auto.
  - split; [|tauto]. intros Htm. split; [exact Htm|].
    intros <-. rewrite (Hin tm Htm) in E. discriminate.
Qed.

Lemma scheduleOp_inv (type filePath : string) (W : World) :
  inv W -> inv (scheduleOp P cfg type filePath W).
Proof.
  intros HW. pose proof (kept_timers_other_key W (key_of filePath)) as Hkept.
  pose proof HW as [Hin Hmap Hpath Hfresh Hnd].
  unfold scheduleOp. split; simpl.
  - intros tm Htm. apply in_app_or in Htm as [Htm|[<-|[]]]; simpl.
    + apply Hkept in Htm as [Htm Hne]; [|exact HW].
      rewrite lookup_insert_ne by congruence. now apply Hin.
    + apply lookup_insert_eq.
  - intros k id Hk. destruct (decide (key_of filePath = k)) as [<-|Hne].
    + rewrite lookup_insert_eq in Hk. inversion Hk; subst.
      eexists. split; [apply in_or_app; right; left; reflexivity|]. split; reflexivity.
    + rewrite lookup_insert_ne in Hk by assumption.
      destruct (Hmap k id Hk) as (tm & Htm & Hkey & Hid).
      exists tm. split; [|auto]. apply in_or_app. left.
      apply Hkept; [exact HW|]. split; [exact Htm|]. congruence.
  - intros tm Htm. apply in_app_or in Htm as [Htm|[<-|[]]]; [|reflexivity].
    apply Hkept in Htm as [Htm _]; [|exact HW]. now apply Hpath.
  - intros tm Htm. apply in_app_or in Htm as [Htm|[<-|[]]]; simpl; [|lia].
    apply Hkept in Htm as [Htm _]; [|exact HW]. specialize (Hfresh tm Htm). lia.
  - rewrite map_app. simpl. apply NoDup_app. split; [|split].
    + eapply sublist_NoDup; [exact Hnd|]. apply (fmap_sublist timer_id).
      destruct (debounceMap W !! key_of filePath); [apply sublist_filter_bool|reflexivity].
    + intros id Hid Hid'. apply list_elem_of_In in Hid, Hid'.
      destruct Hid' as [<-|[]]. apply in_map_iff in Hid as (tm & Heq & Htm).
      apply Hkept in Htm as [Htm _]; [|exact HW]. specialize (Hfresh tm Htm). lia.
    + apply NoDup_singleton.
Qed.

Lemma advance_inv (t : Z) (W : World) : inv W -> inv (advance cfg t W).
Proof.
  intros HW. pose proof HW as [Hin Hmap Hpath Hfresh Hnd].
  destruct (advance_frame t W) as (Hnow & Hnext & Htimers & _ & _).
  split.
  - intros tm Htm. rewrite Htimers in Htm. apply filter_In in Htm as [Htm Hdue].
    rewrite advance_map.
    destruct (existsb _ _) eqn:Ex; [|now apply Hin].
    apply existsb_exists in Ex as (tm' & Htm' & Hk).
    apply filter_In in Htm' as [Htm' Hdue']. apply String.eqb_eq in Hk.
    rewrite (timers_unique_key W tm' tm HW Htm' Htm Hk) in Hdue'.
    rewrite Hdue' in Hdue. discriminate.
  - intros k id Hk. rewrite advance_map in Hk.
    destruct (existsb _ _) eqn:Ex; [discriminate|].
    destruct (Hmap k id Hk) as (tm & Htm & Hkey & Hid).
    exists tm. split; [|auto]. rewrite Htimers. apply filter_In. split; [exact Htm|].
    destruct (is_due (Z.max (now W) t) tm) eqn:Hdue; [|reflexivity].
    exfalso. apply not_true_iff_false in Ex. apply Ex.
    apply existsb_exists. exists tm. split; [now apply filter_In|].
    apply String.eqb_eq. exact Hkey.
  - intros tm Htm. rewrite Htimers in Htm. apply filter_In in Htm as [Htm _]. now apply Hpath.
  - intros tm Htm. rewrite Htimers in Htm. apply filter_In in Htm as [Htm _].
    rewrite Hnext. now apply Hfresh.
  - rewrite Htimers. eapply sublist_NoDup; [exact Hnd|].
    apply (fmap_sublist timer_id), sublist_filter_bool.
Qed.

Lemma deliver_inv (W : World) (n : Z * WatchEvent * string) :
  inv W -> inv (deliver P cfg W n).
Proof.
  destruct n as [[t ev] p]. intros HW. unfold deliver, on_event.
  apply scheduleOp_inv, advance_inv, HW.
Qed.

End DebounceFacts.

Lemma filter_absorb {A : Type} (f g : A -> bool) (l : list A) :
  (forall x, In x l -> f x = true -> g x = true) ->
  List.filter f (List.filter g l) = List.filter f l.
Proof.
  induction l as [|x l IH]; intros H; [reflexivity|]. simpl.
  destruct (g x) eqn:Eg; simpl.
  - destruct (f x); [f_equal|]; apply IH; intros; apply H; auto; now right.
  - destruct (f x) eqn:Ef.
    + rewrite (H x (or_introl eq_refl) Ef) in Eg. discriminate.
    + apply IH. intros; apply H; auto; now right.
Qed.

(** The delay of a timer is at least 1 ms, and is the delay asked for when
    that lies between 1 and 2^31 - 1. *)
Lemma timer_delay_pos (d : Z) : (1 <= timer_delay d)%Z.
Proof.
  unfold timer_delay. destruct (1 <=? d)%Z eqn:E; simpl; [|lia].
  destruct (d <=? TIMEOUT_MAX)%Z; lia.
Qed.

Lemma timer_delay_in_range (d : Z) :
  (1 <= d <= TIMEOUT_MAX)%Z -> timer_delay d = d.
Proof.
  intros [H1 H2]. unfold timer_delay.
  apply Z.leb_le in H1, H2. now rewrite H1, H2.
Qed.

Section BurstFacts.
Context (P : PathModule) (cfg : Config).

Local Abbreviation key_of := (localPathToKey P cfg).
Local Abbreviation inv := (debounce_inv P cfg).

Lemma timer_op_path (tm : Timer) (op : Op) :
  timer_op tm = Some op -> op_path op = timer_path tm.
Proof.
  unfold timer_op.
  destruct (String.eqb (timer_type tm) "add" || String.eqb (timer_type tm) "change").
  - intros H. now inversion H.
  - destruct (String.eqb (timer_type tm) "unlink"); intros H; now inversion H.
Qed.

Lemma timer_op_event (id : nat) (due : Z) (k : string) (ev : WatchEvent) (p : string) :
  timer_op {| timer_id := id; timer_due := due; timer_key := k;
              timer_type := event_type ev; timer_path := p |}
  = Some (event_op ev p).
Proof. now destruct ev. Qed.

Lemma filter_omap_timer_op (l : list Timer) (k : string) :
  (forall tm, In tm l -> timer_key tm = key_of (timer_path tm)) ->
  List.filter (fun op => String.eqb (key_of (op_path op)) k) (omap timer_op l)
  = omap timer_op (List.filter (fun tm => String.eqb (timer_key tm) k) l).
Proof.
  induction l as [|tm l IH]; intros Hl; [reflexivity|].
  cbn [omap list_omap List.filter].
  rewrite (Hl tm (or_introl eq_refl)).
  destruct (timer_op tm) as [op|] eqn:E.
  - cbn [List.filter]. rewrite (timer_op_path tm op E).
    destruct (String.eqb (key_of (timer_path tm)) k).
    + cbn [omap list_omap]. rewrite E. f_equal. apply IH. intros; apply Hl; now right.
    + apply IH. intros; apply Hl; now right.
  - destruct (String.eqb (key_of (timer_path tm)) k).
    + cbn [omap list_omap]. rewrite E. apply IH. intros; apply Hl; now right.
    + apply IH. intros; apply Hl; now right.
Qed.

Lemma ops_for_advance (k : string) (t : Z) (W : World) :
  inv W ->
  ops_for P cfg k (advance cfg t W)
  = (ops_for P cfg k W
     ++ omap timer_op (List.filter (is_due (Z.max (now W) t)) (pending_for k W)))%list.
Proof.
  intros HW. unfold ops_for. rewrite advance_ops, List.filter_app. f_equal.
  rewrite filter_omap_timer_op.
  - unfold pending_for. now rewrite filter_comm_bool.
  - intros tm Htm. apply filter_In in Htm as [Htm _]. now apply (timer_key_of_path P cfg W HW).
Qed.

Lemma pending_for_advance (k : string) (t : Z) (W : World) :
  pending_for k (advance cfg t W)
  = List.filter (fun tm => negb (is_due (Z.max (now W) t) tm)) (pending_for k W).
Proof.
  unfold pending_for. destruct (advance_frame cfg t W) as (_ & _ & -> & _).
  apply filter_comm_bool.
Qed.

Lemma pending_for_scheduleOp (type filePath : string) (W : World) :
  inv W ->
  pending_for (key_of filePath) (scheduleOp P cfg type filePath W)
  = [{| timer_id := next_timer W; timer_due := (now W + timer_delay (DEBOUNCE_MS cfg))%Z;
        timer_key := key_of filePath; timer_type := type; timer_path := filePath |}].
Proof.
  intros HW. unfold pending_for, scheduleOp. cbn [timers].
  rewrite List.filter_app. cbn [List.filter timer_key]. rewrite String.eqb_refl.
  match goal with |- (?l ++ _)%list = _ => assert (l = []) as -> end; [|reflexivity].
  apply filter_nil_iff. intros tm Htm.
  apply (kept_timers_other_key P cfg W _ tm HW) in Htm as [_ Hne].
  now apply String.eqb_neq.
Qed.

(** Re-arming the timer of one key leaves the timers of the others. *)
Lemma pending_for_scheduleOp_other (k type filePath : string) (W : World) :
  inv W -> key_of filePath <> k ->
  pending_for k (scheduleOp P cfg type filePath W) = pending_for k W.
Proof.
  intros HW Hne. unfold pending_for, scheduleOp. cbn [timers].
  rewrite List.filter_app. cbn [List.filter timer_key].
  apply String.eqb_neq in Hne as Hne'. rewrite Hne', app_nil_r.
  pose proof (kept_timers_other_key P cfg W (key_of filePath)) as Hkept.
  destruct (debounceMap W !! key_of filePath) as [id|] eqn:E; [|reflexivity].
  unfold clearTimeout. apply filter_absorb. intros tm Htm Hk.
  apply String.eqb_eq in Hk.
  assert (Hin : In tm (clearTimeout id (timers W))).
  { apply Hkept; [exact HW|]. split; [exact Htm|]. congruence. }
  apply clearTimeout_In in Hin as [_ Hid].
  apply negb_true_iff, Nat.eqb_neq. exact Hid.
Qed.

(** A notification for a key none of whose timers is due yet: the clock
    moves to its instant, nothing is submitted for the key, and the timer now
    armed for the key is the one of this notification. *)
Lemma deliver_on_key (W : World) (t : Z) (ev : WatchEvent) (p : string) :
  inv W -> (now W <= t)%Z ->
  Forall (fun tm => (t < timer_due tm)%Z) (pending_for (key_of p) W) ->
  let W' := deliver P cfg W (t, ev, p) in
  now W' = t
  /\ ops_for P cfg (key_of p) W' = ops_for P cfg (key_of p) W
  /\ pending_for (key_of p) W'
     = [{| timer_id := next_timer W; timer_due := (t + timer_delay (DEBOUNCE_MS cfg))%Z;
           timer_key := key_of p; timer_type := event_type ev; timer_path := p |}].
Proof.
  intros HW Hnow Hpend. unfold deliver, on_event.
  destruct (advance_frame cfg t W) as (Hn & Hnext & _).
  assert (Ht : Z.max (now W) t = t) by lia.
  split; [|split].
  - unfold scheduleOp. simpl. rewrite Hn. exact Ht.
  - transitivity (ops_for P cfg (key_of p) (advance cfg t W)); [reflexivity|].
    rewrite ops_for_advance by assumption. rewrite Ht.
    assert (List.filter (is_due t) (pending_for (key_of p) W) = []) as ->;
      [|now rewrite app_nil_r].
    apply filter_nil_iff. intros tm Htm.
    rewrite List.Forall_forall in Hpend. specialize (Hpend tm Htm).
    unfold is_due. apply Z.leb_gt. exact Hpend.
  - rewrite pending_for_scheduleOp by now apply advance_inv.
    rewrite Hnext, Hn, Ht. reflexivity.
Qed.

(** The process keeps the invariant of the debouncer. *)
Lemma main_inv (t0 : Z) (access_ok : bool) (root : FsDir) :
  inv (main P cfg t0 access_ok root).
Proof.
  unfold main. destruct access_ok; [|apply with_phase_inv, boot_inv].
  unfold initialSync. destruct (walk P (LOCAL_DIR cfg) root []) as [[[]|err] files].
  - apply with_awaited_inv, with_limiter_inv, boot_inv.
  - apply with_phase_inv, boot_inv.
Qed.

Lemma step_inv (ios : nat -> Collaborators) (W : World) (e : Event) :
  inv W -> inv (step P cfg ios W e).
Proof.
  intros HW. unfold step.
  destruct (phase W) eqn:Eph; [| |exact HW]; destruct e; try exact HW;
    try (apply with_phase_inv; exact HW);
    try (apply advance_inv; exact HW);
    try (apply deliver_inv; exact HW).
  all: try (destruct (List.find _ _); [|exact HW];
            destruct (run_task P cfg ios _); [|exact HW];
            apply with_limiter_inv; exact HW).
  destruct (promise_all _ _) as [[]|]; [| |exact HW].
  - unfold startWatcher. now apply with_phase_inv.
  - now apply with_phase_inv.
Qed.

Lemma run_inv (ios : nat -> Collaborators) (es : list Event) (W : World) :
  inv W -> inv (run P cfg ios W es).
Proof.
  revert W. induction es as [|e es IH]; intros W HW; simpl; [exact HW|].
  apply IH, step_inv, HW.
Qed.

End BurstFacts.

(** ** The orchestration *)

Lemma find_app_bool {A : Type} (f : A -> bool) (l l' : list A) :
  List.find f (l ++ l')
  = match List.find f l with Some x => Some x | None => List.find f l' end.
Proof. induction l as [|x l IH]; simpl; [reflexivity|]. now destruct (f x). Qed.

Section EngineFacts.
Context (P : PathModule) (cfg : Config) (ios : nat -> Collaborators).

Lemma task_done_scheduled (id : nat) (c : Completion unit) (L : Limiter) :
  scheduled (task_done (CONCURRENCY cfg) id c L) = scheduled L.
Proof.
  unfold task_done. destruct (is_running id L); [|reflexivity].
  now rewrite start_next_scheduled.
Qed.

Lemma task_done_settled (id : nat) (c : Completion unit) (L : Limiter) :
  exists extra,
    settled (task_done (CONCURRENCY cfg) id c L) = (settled L ++ extra)%list
    /\ Forall (fun s => snd s = c) extra.
Proof.
  unfold task_done. destruct (is_running id L).
  - rewrite start_next_settled. simpl. eexists. split; [reflexivity|].
    repeat constructor.
  - exists []. split; [now rewrite app_nil_r|constructor].
Qed.

Lemma promise_of_grows (L L' : Limiter) (extra : list (nat * Completion unit))
    (id : nat) (c : Completion unit) :
  settled L' = (settled L ++ extra)%list ->
  promise_of L id = Some c -> promise_of L' id = Some c.
Proof.
  unfold promise_of. intros -> H. rewrite find_app_bool.
  destruct (List.find _ (settled L)) as [[i c']|]; [exact H|discriminate].
Qed.

Lemma promise_of_normal (L : Limiter) (id : nat) (c : Completion unit) :
  Forall (fun s => snd s = Normal tt) (settled L) ->
  promise_of L id = Some c -> c = Normal tt.
Proof.
  unfold promise_of. intros Hall H.
  destruct (List.find _ (settled L)) as [[i c']|] eqn:E; [|discriminate].
  inversion H; subst. apply find_some in E as [Hin _].
  rewrite List.Forall_forall in Hall. exact (Hall _ Hin).
Qed.

Lemma promise_all_fulfilled (L : Limiter) (ids : list nat) (c : Completion unit) :
  promise_all L ids = Some c -> is_throw c = false ->
  forall id, In id ids -> exists c', promise_of L id = Some c'.
Proof.
  unfold promise_all. intros H Hc id Hid.
  destruct (List.find _ (settled L)) as [[i c']|] eqn:E.
  - apply find_some in E as [_ E]. apply andb_prop in E as [_ E]. simpl in E.
    inversion H; subst. congruence.
  - destruct (forallb _ ids) eqn:Eall; [|discriminate].
    rewrite forallb_forall in Eall. specialize (Eall id Hid).
    destruct (promise_of L id); [eauto|discriminate].
Qed.

Lemma run_task_normal (t : Task) (c : Completion unit) :
  run_task P cfg ios t = Some c -> c = Normal tt.
Proof.
  unfold run_task. destruct (task_op t) as [f|f].
  - destruct (uploadFile_settles P cfg (ios (task_id t)) f first_attempt []) as (tr & ->).
    intros H. now inversion H.
  - destruct (deleteKey_settles P cfg (ios (task_id t)) f first_attempt []) as (tr & ->).
    intros H. now inversion H.
Qed.

Lemma fold_limit_uploads (files : list string) (L : Limiter) :
  map task_op (scheduled (fold_left (fun L f => limit (CONCURRENCY cfg) (Upload f) L) files L))
  = (map task_op (scheduled L) ++ map Upload files)%list
  /\ settled (fold_left (fun L f => limit (CONCURRENCY cfg) (Upload f) L) files L)
     = settled L.
Proof.
  revert L. induction files as [|f files IH]; intros L; simpl.
  - now rewrite app_nil_r.
  - destruct (IH (limit (CONCURRENCY cfg) (Upload f) L)) as [-> ->].
    rewrite limit_scheduled, limit_settled, map_app, <- app_assoc. auto.
Qed.

Lemma main_sync_inv (t0 : Z) (root : FsDir) (files : list string) :
  walk P (LOCAL_DIR cfg) root [] = (Normal tt, files) ->
  sync_inv files (main P cfg t0 true root)
  /\ phase (main P cfg t0 true root) = InitialSyncing.
Proof.
  intros Hwalk. unfold main, initialSync. rewrite Hwalk.
  destruct (fold_limit_uploads files empty_limiter) as [Hs Hset].
  split; [|reflexivity]. split; simpl.
  - reflexivity.
  - exists []. rewrite app_nil_r. split; [exact Hs|reflexivity].
  - auto.
  - rewrite Hset. constructor.
  - discriminate.
Qed.

Lemma step_sync_inv (files : list string) (W : World) (e : Event) :
  sync_inv files W -> sync_inv files (step P cfg ios W e).
Proof.
  intros [Haw [later [Hup Hlater]] Hidle Hnorm Hset].
  assert (Hsame : sync_inv files W) by (split; eauto).
  unfold step.
  destruct (phase W) eqn:Eph; [| |exact Hsame]; destruct e.
  - (* a task settles during the initial sync *)
    destruct (List.find _ _) as [t|]; [|exact Hsame].
    destruct (run_task P cfg ios t) as [c|] eqn:Erun; [|exact Hsame].
    apply run_task_normal in Erun. subst c.
    destruct (task_done_settled id (Normal tt) (limiter W)) as (extra & Hext & Hall).
    split; simpl; auto.
    + exists later. rewrite task_done_scheduled. split; [exact Hup|auto].
    + rewrite Hext. apply Forall_app. split; assumption.
    + rewrite Eph. discriminate.
  - (* the continuation of the await *)
    destruct (promise_all (limiter W) (awaited W)) as [[[]|err]|] eqn:Eall; [| |exact Hsame].
    + unfold startWatcher. split; simpl; auto; try discriminate.
      * exists later. split; [exact Hup|discriminate].
      * intros _ id Hid.
        destruct (promise_all_fulfilled _ _ _ Eall eq_refl id Hid) as (c & Hc).
        rewrite Hc. f_equal. eapply promise_of_normal; eauto.
    + split; simpl; auto; try discriminate.
      exists later. split; [exact Hup|discriminate].
  - exact Hsame.
  - (* the clock moves while no timer is armed *)
    destruct (Hidle eq_refl) as (Ht & Hm & Hn).
    destruct (advance_no_timers cfg t W Ht) as (Ht' & Hm' & Hl').
    destruct (advance_frame cfg t W) as (_ & Hnext & _ & Hph & Haw').
    split; rewrite ?Hl', ?Haw', ?Hph; auto.
    + exists later. auto.
    + intros _. rewrite Ht', Hm', Hnext. auto.
    + rewrite Eph. discriminate.
  - split; simpl; auto; try discriminate.
    exists later. split; [exact Hup|discriminate].
  - (* a task settles while watching *)
    destruct (List.find _ _) as [t|]; [|exact Hsame].
    destruct (run_task P cfg ios t) as [c|] eqn:Erun; [|exact Hsame].
    apply run_task_normal in Erun. subst c.
    destruct (task_done_settled id (Normal tt) (limiter W)) as (extra & Hext & Hall).
    split; simpl; auto.
    + exists later. rewrite task_done_scheduled, Eph. split; [exact Hup|discriminate].
    + rewrite Eph. discriminate.
    + rewrite Hext. apply Forall_app. split; assumption.
    + intros _ i Hi. eapply promise_of_grows; [exact Hext|]. now apply Hset.
  - exact Hsame.
  - (* a notification while watching *)
    unfold deliver, on_event, scheduleOp. cbn [limiter phase awaited].
    destruct (advance_frame cfg t W) as (_ & _ & _ & Hph & Haw').
    split; cbn [limiter phase awaited timers debounceMap next_timer];
      rewrite ?Hph, ?Haw', ?Eph; auto; try discriminate.
    + rewrite advance_ops, Hup, <- app_assoc. eexists. split; [reflexivity|discriminate].
    + now rewrite advance_settled.
    + intros _ i Hi. eapply promise_of_grows with (extra := []); [|now apply Hset].
      now rewrite advance_settled, app_nil_r.
  - (* the clock moves while watching *)
    destruct (advance_frame cfg t W) as (_ & _ & _ & Hph & Haw').
    split; rewrite ?Hph, ?Haw', ?Eph; auto; try discriminate.
    + rewrite advance_ops, Hup, <- app_assoc. eexists. split; [reflexivity|discriminate].
    + now rewrite advance_settled.
    + intros _ i Hi. eapply promise_of_grows with (extra := []); [|now apply Hset].
      now rewrite advance_settled, app_nil_r.
  - split; simpl; auto; try discriminate.
    exists later. split; [exact Hup|discriminate].
Qed.

Lemma run_sync_inv (files : list string) (es : list Event) (W : World) :
  sync_inv files W -> sync_inv files (run P cfg ios W es).
Proof.
  revert W. induction es as [|e es IH]; intros W HW; simpl; [exact HW|].
  apply IH, step_sync_inv, HW.
Qed.

End EngineFacts.

(** ** A burst on one key, among everything else that happens *)

Section Bursts.
Context (P : PathModule) (cfg : Config) (ios : nat -> Collaborators) (k : string).

Local Abbreviation key_of := (localPathToKey P cfg).
Local Abbreviation inv := (debounce_inv P cfg).
Local Abbreviation delay := (timer_delay (DEBOUNCE_MS cfg)).
Local Abbreviation armed id tl ev p :=
  {| timer_id := id; timer_due := Z.add tl delay; timer_key := k;
     timer_type := event_type ev; timer_path := p |}.

(** A settling task and a turn of [main] leave the debouncer alone. *)
Lemma step_watching_quiet (W : World) (e : Event) :
  phase W = Watching ->
  match e with TaskSettles _ | MainResumes => True | _ => False end ->
  let W' := step P cfg ios W e in
  phase W' = Watching /\ now W' = now W
  /\ ops_for P cfg k W' = ops_for P cfg k W /\ pending_for k W' = pending_for k W.
Proof.
  intros Hph He. unfold step. rewrite Hph. destruct e; try contradiction.
  - destruct (List.find _ _); [|now repeat split].
    destruct (run_task P cfg ios _); [|now repeat split].
    split; [exact Hph|]. split; [reflexivity|]. split; [|reflexivity].
    unfold ops_for. cbn [limiter with_limiter]. now rewrite task_done_scheduled.
  - now repeat split.
Qed.

(** The clock reaches [t] while the timer of [k] is armed. *)
Lemma advance_armed (W : World) (t : Z) (id : nat) (tl : Z) (ev : WatchEvent) (p : string) :
  inv W -> pending_for k W = [armed id tl ev p] ->
  ((Z.max (now W) t < tl + delay)%Z ->
     ops_for P cfg k (advance cfg t W) = ops_for P cfg k W
     /\ pending_for k (advance cfg t W) = [armed id tl ev p])
  /\ ((tl + delay <= Z.max (now W) t)%Z ->
     ops_for P cfg k (advance cfg t W) = (ops_for P cfg k W ++ [event_op ev p])%list
     /\ pending_for k (advance cfg t W) = []).
Proof.
  intros HW Hp.
  rewrite ops_for_advance, pending_for_advance, Hp by assumption.
  cbn [List.filter]. unfold is_due. cbn [timer_due]. split; intros H.
  - assert ((tl + delay <=? Z.max (now W) t)%Z = false) as -> by (apply Z.leb_gt; lia).
    simpl. now rewrite app_nil_r.
  - assert ((tl + delay <=? Z.max (now W) t)%Z = true) as -> by (apply Z.leb_le; lia).
    cbn [omap list_omap negb]. now rewrite timer_op_event.
Qed.

(** The clock reaches [t] while no timer of [k] is armed. *)
Lemma advance_idle (W : World) (t : Z) :
  inv W -> pending_for k W = [] ->
  ops_for P cfg k (advance cfg t W) = ops_for P cfg k W
  /\ pending_for k (advance cfg t W) = [].
Proof.
  intros HW Hp. rewrite ops_for_advance, pending_for_advance, Hp by assumption.
  simpl. now rewrite app_nil_r.
Qed.

(** What a notification for another key and a tick of the clock, both at
    instant [t], have in common for key [k]. *)
Lemma step_watching_other (W : World) (e : Event) (t : Z) :
  inv W -> phase W = Watching -> (now W <= t)%Z ->
  match e with
  | Tick t' => t' = t
  | FsNotify t' _ p => t' = t /\ key_of p <> k
  | _ => False
  end ->
  let W' := step P cfg ios W e in
  inv W' /\ phase W' = Watching /\ now W' = t
  /\ ops_for P cfg k W' = ops_for P cfg k (advance cfg t W)
  /\ pending_for k W' = pending_for k (advance cfg t W).
Proof.
  intros HW Hph Hnow He.
  destruct (advance_frame cfg t W) as (Hn & _ & _ & Hp & _).
  assert (Hmax : Z.max (now W) t = t) by lia.
  unfold step. rewrite Hph. destruct e as [| |t' ev p|t'|]; try contradiction.
  - destruct He as [-> Hne]. unfold deliver, on_event.
    split; [now apply scheduleOp_inv, advance_inv|].
    split; [cbn [phase scheduleOp]; congruence|].
    split; [cbn [now scheduleOp]; congruence|].
    split; [reflexivity|].
    apply (pending_for_scheduleOp_other P cfg); [now apply advance_inv|exact Hne].
  - subst t'. split; [now apply advance_inv|].
    split; [congruence|]. split; [congruence|]. split; reflexivity.
Qed.

(** Once the timer of [k] has fired, the rest of the events brings no
    notification for [k] and nothing more is submitted for it. *)
Lemma burst_over (es : list Event) :
  forall (W : World) (clock last : Z) (n : Z * WatchEvent * string),
    inv W -> phase W = Watching -> now W = clock -> (last + delay <= clock)%Z ->
    pending_for k W = [] ->
    burst_goes_on P cfg k clock last es = true ->
    let W' := run P cfg ios W es in
    burst_last P cfg k n es = n /\ inv W' /\ (last + delay <= now W')%Z
    /\ ops_for P cfg k W' = ops_for P cfg k W /\ pending_for k W' = [].
Proof.
  induction es as [|e es IH]; intros W clock last n HW Hph Hnow Hlate Hp Hb.
  { cbn [run fold_left burst_last]. split; [reflexivity|]. split; [exact HW|].
    split; [lia|]. split; [reflexivity|exact Hp]. }
  unfold run. cbn [fold_left]. fold (run P cfg ios (step P cfg ios W e) es).
  assert (Hquiet : match e with TaskSettles _ | MainResumes => True | _ => False end ->
                   burst_goes_on P cfg k clock last es = true ->
                   burst_last P cfg k n es = n
                   /\ inv (run P cfg ios (step P cfg ios W e) es)
                   /\ (last + delay <= now (run P cfg ios (step P cfg ios W e) es))%Z
                   /\ ops_for P cfg k (run P cfg ios (step P cfg ios W e) es)
                      = ops_for P cfg k W
                   /\ pending_for k (run P cfg ios (step P cfg ios W e) es) = []).
  { intros He Hb'.
    destruct (step_watching_quiet W e Hph He) as (Q1 & Q2 & Q3 & Q4).
    destruct (IH (step P cfg ios W e) clock last n) as (I1 & I2 & I3 & I4 & I5);
      auto; try congruence; [now apply step_inv|].
    split; [exact I1|]. split; [exact I2|]. split; [exact I3|].
    split; [congruence|exact I5]. }
  assert (Hother : forall t,
            (clock <= t)%Z ->
            match e with
            | Tick t' => t' = t
            | FsNotify t' _ p => t' = t /\ key_of p <> k
            | _ => False
            end ->
            burst_goes_on P cfg k t last es = true ->
            burst_last P cfg k n es = n
            /\ inv (run P cfg ios (step P cfg ios W e) es)
            /\ (last + delay <= now (run P cfg ios (step P cfg ios W e) es))%Z
            /\ ops_for P cfg k (run P cfg ios (step P cfg ios W e) es)
               = ops_for P cfg k W
            /\ pending_for k (run P cfg ios (step P cfg ios W e) es) = []).
  { intros t Ht He Hb'.
    destruct (step_watching_other W e t HW Hph ltac:(lia) He) as (S1 & S2 & S3 & S4 & S5).
    destruct (advance_idle W t HW Hp) as [A1 A2].
    destruct (IH (step P cfg ios W e) t last n) as (I1 & I2 & I3 & I4 & I5);
      auto; try congruence; [lia|].
    split; [exact I1|]. split; [exact I2|]. split; [exact I3|].
    split; [congruence|exact I5]. }
  destruct e as [id| |t ev p|t|]; cbn [burst_goes_on burst_last] in *.
  - now apply Hquiet.
  - now apply Hquiet.
  - apply andb_prop in Hb as [Hc Hb]. apply Z.leb_le in Hc.
    destruct (String.eqb (key_of p) k) eqn:Ek.
    + apply andb_prop in Hb as [Hlt _]. apply Z.ltb_lt in Hlt. lia.
    + apply String.eqb_neq in Ek. now apply (Hother t).
  - apply andb_prop in Hb as [Hc Hb]. apply Z.leb_le in Hc. now apply (Hother t).
  - discriminate.
Qed.

(** While the timer of [k] is armed: the rest of the burst. *)
Lemma burst_armed (es : list Event) :
  forall (W : World) (clock tl : Z) (evl : WatchEvent) (pl : string) (id : nat)
         (tl' : Z) (evl' : WatchEvent) (pl' : string),
    inv W -> phase W = Watching -> now W = clock -> (clock < tl + delay)%Z ->
    pending_for k W = [armed id tl evl pl] ->
    burst_goes_on P cfg k clock tl es = true ->
    burst_last P cfg k (tl, evl, pl) es = (tl', evl', pl') ->
    let W' := run P cfg ios W es in
    ((now W' < tl' + delay)%Z ->
       ops_for P cfg k W' = ops_for P cfg k W
       /\ exists id', pending_for k W' = [armed id' tl' evl' pl'])
    /\ ((tl' + delay <= now W')%Z ->
       ops_for P cfg k W' = (ops_for P cfg k W ++ [event_op evl' pl'])%list
       /\ pending_for k W' = [] /\ debounceMap W' !! k = None).
Proof.
  induction es as [|e es IH];
    intros W clock tl evl pl id tl' evl' pl' HW Hph Hnow Hearly Hp Hb Hlast.
  { simpl in Hlast. injection Hlast as <- <- <-. simpl. split; intros H; [eauto|lia]. }
  unfold run. cbn [fold_left]. fold (run P cfg ios (step P cfg ios W e) es).
  set (G := fun W' : World =>
    ((now W' < tl' + delay)%Z ->
       ops_for P cfg k W' = ops_for P cfg k W
       /\ exists id', pending_for k W' = [armed id' tl' evl' pl'])
    /\ ((tl' + delay <= now W')%Z ->
       ops_for P cfg k W' = (ops_for P cfg k W ++ [event_op evl' pl'])%list
       /\ pending_for k W' = [] /\ debounceMap W' !! k = None)).
  change (G (run P cfg ios (step P cfg ios W e) es)).
  assert (Hquiet : match e with TaskSettles _ | MainResumes => True | _ => False end ->
                   burst_goes_on P cfg k clock tl es = true ->
                   burst_last P cfg k (tl, evl, pl) es = (tl', evl', pl') ->
                   G (run P cfg ios (step P cfg ios W e) es)).
  { intros He Hb' Hl'.
    destruct (step_watching_quiet W e Hph He) as (Q1 & Q2 & Q3 & Q4).
    pose proof (IH (step P cfg ios W e) clock tl evl pl id tl' evl' pl'
                  (step_inv P cfg ios W e HW) Q1 ltac:(congruence) Hearly
                  ltac:(congruence) Hb' Hl') as HG.
    cbv zeta in HG. subst G. cbv beta. rewrite <- Q3. exact HG. }
  assert (Hother : forall t,
            (clock <= t)%Z ->
            match e with
            | Tick t' => t' = t
            | FsNotify t' _ p => t' = t /\ key_of p <> k
            | _ => False
            end ->
            burst_goes_on P cfg k t tl es = true ->
            burst_last P cfg k (tl, evl, pl) es = (tl', evl', pl') ->
            G (run P cfg ios (step P cfg ios W e) es)).
  { intros t Ht He Hb' Hl'.
    destruct (step_watching_other W e t HW Hph ltac:(lia) He) as (S1 & S2 & S3 & S4 & S5).
    destruct (advance_armed W t id tl evl pl HW Hp) as [Aearly Adue].
    assert (Hmax : Z.max (now W) t = t) by lia. rewrite Hmax in Aearly, Adue.
    destruct (Z_lt_le_dec t (tl + delay)) as [Hlt|Hge].
    - destruct (Aearly Hlt) as [A1 A2].
      pose proof (IH (step P cfg ios W e) t tl evl pl id tl' evl' pl'
                    S1 S2 S3 Hlt ltac:(congruence) Hb' Hl') as HG.
      cbv zeta in HG. subst G. cbv beta.
      replace (ops_for P cfg k W) with (ops_for P cfg k (step P cfg ios W e))
        by congruence.
      exact HG.
    - destruct (Adue Hge) as [A1 A2].
      destruct (burst_over es (step P cfg ios W e) t tl (tl, evl, pl)
                  S1 S2 S3 Hge ltac:(congruence) Hb') as (F1 & F2 & F3 & F4 & F5).
      rewrite F1 in Hl'. injection Hl' as <- <- <-.
      subst G. cbv beta. split; intros H; [lia|].
      split; [congruence|]. split; [exact F5|].
      now apply (pending_none_iff P cfg). }
  destruct e as [id0| |t ev p|t|]; cbn [burst_goes_on burst_last] in *.
  - now apply Hquiet.
  - now apply Hquiet.
  - apply andb_prop in Hb as [Hc Hb]. apply Z.leb_le in Hc.
    destruct (String.eqb (key_of p) k) eqn:Ek.
    + apply andb_prop in Hb as [Hlt Hb]. apply Z.ltb_lt in Hlt.
      apply String.eqb_eq in Ek.
      assert (Hstep : step P cfg ios W (FsNotify t ev p) = deliver P cfg W (t, ev, p))
        by (unfold step; now rewrite Hph).
      rewrite Hstep.
      destruct (deliver_on_key P cfg W t ev p HW ltac:(lia)) as (D1 & D2 & D3).
      { rewrite Ek, Hp. constructor; [simpl; lia|constructor]. }
      rewrite Ek in D2, D3.
      assert (Hph' : phase (deliver P cfg W (t, ev, p)) = Watching).
      { destruct (advance_frame cfg t W) as (_ & _ & _ & Hp' & _).
        unfold deliver, on_event. cbn [phase scheduleOp]. congruence. }
      pose proof (timer_delay_pos (DEBOUNCE_MS cfg)) as Hpos.
      pose proof (IH (deliver P cfg W (t, ev, p)) t t ev p (next_timer W) tl' evl' pl'
                    (deliver_inv P cfg W (t, ev, p) HW) Hph' D1 ltac:(lia) D3 Hb Hlast)
        as HG.
      cbv zeta in HG. subst G. cbv beta. rewrite <- D2. exact HG.
    + apply String.eqb_neq in Ek. now apply (Hother t).
  - apply andb_prop in Hb as [Hc Hb]. apply Z.leb_le in Hc. now apply (Hother t).
  - discriminate.
Qed.

End Bursts.

(** C1: debounce coalescing, as the code has it.  At every instant of a run
    of the process, every key has at most one armed timer, and the map has an
    entry for the key exactly when it has one; the callback of a timer
    removes the entry of its key.  The window is the delay the timer is armed
    with: DEBOUNCE_MS when that lies between 1 and 2^31 - 1, and 1 ms
    otherwise.  While the process watches, from an instant at which key [k]
    has no armed timer, take a notification for [k] and any events after it
    in which each further notification for [k] comes less than the delay
    after the one before, whatever notifications for other keys, ticks of the
    clock and settling tasks come in between and afterwards: as long as the
    clock has not reached the delay after the last notification for [k],
    nothing is submitted for [k] and one timer is armed for it, that of the
    last notification; once the clock has reached it, exactly one operation
    has been submitted for [k], of the kind and path of the last
    notification, and the entry of [k] is gone. *)
Theorem debounce_coalesces_bursts
    (P : PathModule) (cfg : Config) (ios : nat -> Collaborators)
    (t0 : Z) (access_ok : bool) (root : FsDir) (events : list Event) :
  let W := run P cfg ios (main P cfg t0 access_ok root) events in
  (forall k : string,
      (length (pending_for k W) <= 1)%nat
      /\ (debounceMap W !! k = None <-> pending_for k W = []))
  /\ (forall tm : Timer, debounceMap (fire cfg W tm) !! timer_key tm = None)
  /\ ((1 <= DEBOUNCE_MS cfg <= TIMEOUT_MAX)%Z -> timer_delay (DEBOUNCE_MS cfg) = DEBOUNCE_MS cfg)
  /\ (forall (k : string) (t : Z) (ev : WatchEvent) (p : string) (es : list Event),
        phase W = Watching ->
        debounceMap W !! k = None ->
        (now W <= t)%Z ->
        localPathToKey P cfg p = k ->
        burst_goes_on P cfg k t t es = true ->
        let '(tl, evl, pl) := burst_last P cfg k (t, ev, p) es in
        let W' := run P cfg ios W (FsNotify t ev p :: es) in
        let due := (tl + timer_delay (DEBOUNCE_MS cfg))%Z in
        ((now W' < due)%Z ->
           ops_for P cfg k W' = ops_for P cfg k W
           /\ exists id,
                pending_for k W'
                = [{| timer_id := id; timer_due := due; timer_key := k;
                      timer_type := event_type evl; timer_path := pl |}])
        /\ ((due <= now W')%Z ->
           ops_for P cfg k W' = (ops_for P cfg k W ++ [event_op evl pl])%list
           /\ pending_for k W' = []
           /\ debounceMap W' !! k = None)).
Proof.
  intros W.
  assert (HW : debounce_inv P cfg W) by apply run_inv, main_inv.
  split; [|split; [|split]].
  - intros k. split; [now apply (pending_at_most_one P cfg)|now apply (pending_none_iff P cfg)].
  - intros tm. destruct (fire_frame cfg W tm) as (_ & _ & _ & -> & _).
    apply lookup_delete_eq.
  - apply timer_delay_in_range.
  - intros k t ev p es Hph Hnone Hnow Hk Hburst.
    destruct (burst_last P cfg k (t, ev, p) es) as [[tl evl] pl] eqn:Hlast.
    assert (Hno : pending_for k W = []) by now apply (pending_none_iff P cfg W k HW).
    assert (Hstep : step P cfg ios W (FsNotify t ev p) = deliver P cfg W (t, ev, p))
      by (unfold step; now rewrite Hph).
    unfold run. cbn [fold_left]. rewrite Hstep.
    fold (run P cfg ios (deliver P cfg W (t, ev, p)) es).
    destruct (deliver_on_key P cfg W t ev p HW Hnow) as (D1 & D2 & D3).
    { rewrite Hk, Hno. constructor. }
    rewrite Hk in D2, D3.
    assert (Hph' : phase (deliver P cfg W (t, ev, p)) = Watching).
    { destruct (advance_frame cfg t W) as (_ & _ & _ & Hp' & _).
      unfold deliver, on_event. cbn [phase scheduleOp]. congruence. }
    pose proof (timer_delay_pos (DEBOUNCE_MS cfg)) as Hpos.
    pose proof (burst_armed P cfg ios k es (deliver P cfg W (t, ev, p)) t t ev p
                  (next_timer W) tl evl pl
                  (deliver_inv P cfg W (t, ev, p) HW) Hph' D1 ltac:(lia) D3 Hburst Hlast)
      as HG.
    cbv zeta in HG. rewrite D2 in HG. exact HG.
Qed.

Lemma debounce_coalesces_bursts_witness :
  let P := posix Sample.cwd in
  let W := run P Sample.cfg (fun _ => Sample.io_healthy)
             (main P Sample.cfg 0 true (Listing ENil)) [MainResumes] in
  let burst := FsNotify 0 EvChange "pdf/a.pdf" :: Sample.burst_tail in
  (phase W = Watching
   /\ debounceMap W !! "a.pdf" = None
   /\ (now W <= 0)%Z
   /\ localPathToKey P Sample.cfg "pdf/a.pdf" = "a.pdf"
   /\ burst_goes_on P Sample.cfg "a.pdf" 0 0 (Sample.burst_tail ++ [Tick 519])%list = true
   /\ burst_goes_on P Sample.cfg "a.pdf" 0 0 (Sample.burst_tail ++ [Tick 520])%list = true)
  /\ timer_delay (DEBOUNCE_MS Sample.cfg) = 500%Z
  /\ ops_for P Sample.cfg "a.pdf"
       (run P Sample.cfg (fun _ => Sample.io_healthy) W (burst ++ [Tick 519])%list) = []
  /\ ops_for P Sample.cfg "a.pdf"
       (run P Sample.cfg (fun _ => Sample.io_healthy) W (burst ++ [Tick 520])%list)
     = [Delete "pdf/a.pdf"]
  /\ debounceMap (run P Sample.cfg (fun _ => Sample.io_healthy) W (burst ++ [Tick 520])%list)
       !! "a.pdf" = None.
Proof.
  intros P W burst.
  assert (H0 : phase W = Watching) by reflexivity.
  assert (H1 : debounceMap W !! "a.pdf" = None) by (vm_compute; reflexivity).
  assert (H2 : (now W <= 0)%Z) by (vm_compute; discriminate).
  assert (H3 : localPathToKey P Sample.cfg "pdf/a.pdf" = "a.pdf") by (vm_compute; reflexivity).
  assert (H4 : burst_goes_on P Sample.cfg "a.pdf" 0 0 (Sample.burst_tail ++ [Tick 519])%list = true)
    by (vm_compute; reflexivity).
  assert (H5 : burst_goes_on P Sample.cfg "a.pdf" 0 0 (Sample.burst_tail ++ [Tick 520])%list = true)
    by (vm_compute; reflexivity).
  destruct (debounce_coalesces_bursts P Sample.cfg (fun _ => Sample.io_healthy)
              0 true (Listing ENil) [MainResumes]) as (_ & _ & Hdelay & Hburst).
  pose proof (Hburst "a.pdf" 0%Z EvChange "pdf/a.pdf" (Sample.burst_tail ++ [Tick 519])%list
                H0 H1 H2 H3 H4) as Hearly.
  pose proof (Hburst "a.pdf" 0%Z EvChange "pdf/a.pdf" (Sample.burst_tail ++ [Tick 520])%list
                H0 H1 H2 H3 H5) as Hlate.
  assert (HL : forall T, burst_last P Sample.cfg "a.pdf" (0%Z, EvChange, "pdf/a.pdf")
                           (Sample.burst_tail ++ [Tick T])%list
                         = (20%Z, EvUnlink, "pdf/a.pdf")) by (intros T; reflexivity).
  rewrite HL in Hearly, Hlate. cbv beta iota zeta in Hearly, Hlate.
  destruct Hearly as [Hearly _]. destruct Hlate as [_ Hlate].
  split; [auto 10|]. split; [apply Hdelay; vm_compute; split; discriminate|].
  destruct Hearly as [Ha _]; [vm_compute; reflexivity|].
  destruct Hlate as (Hb & _ & Hc); [vm_compute; discriminate|].
  split; [exact Ha|]. split; [exact Hb|exact Hc].
Defined.

(** C1, as stated, fails when DEBOUNCE_MS is beyond what a timer takes: with
    DEBOUNCE_MS = 2^31, a change of pdf/a.pdf and its removal 100 ms later
    arrive less than DEBOUNCE_MS apart, yet each gets an operation of its
    own, because the timer of the first was armed for 1 ms and has fired. *)
Lemma debounce_window_is_the_timer_delay :
  let P := posix Sample.cwd in
  let W := run P Sample.cfg_long_delay (fun _ => Sample.io_healthy)
             (main P Sample.cfg_long_delay 0 true (Listing ENil))
             [MainResumes; FsNotify 0 EvChange "pdf/a.pdf";
              FsNotify 100 EvUnlink "pdf/a.pdf"; Tick 101] in
  (0 <= 100 < 0 + DEBOUNCE_MS Sample.cfg_long_delay)%Z
  /\ localPathToKey P Sample.cfg_long_delay "pdf/a.pdf" = "a.pdf"
  /\ ops_for P Sample.cfg_long_delay "a.pdf" W = [Upload "pdf/a.pdf"; Delete "pdf/a.pdf"].
Proof.
  split; [vm_compute; split; [discriminate|reflexivity]|].
  split; vm_compute; reflexivity.
Qed.

(** C8: ordering of the initial sync.  After a completed walk over [files],
    [main] has handed one Upload per file to the limiter, in the order of the
    walk, without arming a timer or touching the debounce map, and it awaits
    exactly those promises.  As long as the process is in its
    initial-sync phase no timer has been armed and nothing else has been
    submitted; a later submission only follows the initial uploads; and
    whenever the process is watching, every one of the initial operations has
    settled. *)
Theorem initial_sync_settles_before_watching
    (P : PathModule) (cfg : Config) (ios : nat -> Collaborators)
    (t0 : Z) (root : FsDir) (files : list string) (events : list Event) :
  walk P (LOCAL_DIR cfg) root [] = (Normal tt, files) ->
  let W0 := main P cfg t0 true root in
  let W := run P cfg ios W0 events in
  (phase W0 = InitialSyncing
   /\ map task_op (scheduled (limiter W0)) = map Upload files
   /\ awaited W0 = seq 0 (length files)
   /\ timers W0 = [] /\ debounceMap W0 = ∅ /\ next_timer W0 = 1%nat)
  /\ (phase W = InitialSyncing ->
      map task_op (scheduled (limiter W)) = map Upload files
      /\ timers W = [] /\ debounceMap W = ∅ /\ next_timer W = 1%nat)
  /\ (exists later,
        map task_op (scheduled (limiter W)) = (map Upload files ++ later)%list)
  /\ (phase W = Watching ->
      forall i, (i < length files)%nat ->
                promise_of (limiter W) i = Some (Normal tt)).
Proof.
  intros Hwalk W0 W.
  destruct (main_sync_inv P cfg t0 root files Hwalk) as [H0 Hph0].
  fold W0 in H0, Hph0.
  pose proof (run_sync_inv P cfg ios files events W0 H0) as HW. fold W in HW.
  split; [|split; [|split]].
  - destruct H0 as [Haw (later & Hup & Hlater) Hidle _ _].
    destruct (Hidle Hph0) as (Ht & Hm & Hn).
    rewrite (Hlater Hph0), app_nil_r in Hup. auto 10.
  - intros Hph. destruct HW as [_ (later & Hup & Hlater) Hidle _ _].
    destruct (Hidle Hph) as (Ht & Hm & Hn).
    rewrite (Hlater Hph), app_nil_r in Hup. auto.
  - destruct HW as [_ (later & Hup & _) _ _ _]. eauto.
  - intros Hph i Hi. destruct HW as [Haw _ _ _ Hset].
    apply Hset; [exact Hph|]. rewrite Haw. apply in_seq. lia.
Qed.

Lemma initial_sync_settles_before_watching_witness :
  let P := posix Sample.cwd in
  let ios := fun _ : nat => Sample.io_remote_down in
  let W0 := main P Sample.cfg 0 true Sample.tree_mixed in
  walk P (LOCAL_DIR Sample.cfg) Sample.tree_mixed []
  = (Normal tt, ["pdf/paper.pdf"; "pdf/sub/Scan.PDF"])
  /\ map task_op (scheduled (limiter W0))
     = [Upload "pdf/paper.pdf"; Upload "pdf/sub/Scan.PDF"]
  /\ phase (run P Sample.cfg ios W0 [MainResumes; TaskSettles 0; MainResumes])
     = InitialSyncing
  /\ phase (run P Sample.cfg ios W0
              [MainResumes; TaskSettles 0; TaskSettles 1; MainResumes])
     = Watching
  /\ forall i, (i < 2)%nat ->
       promise_of (limiter (run P Sample.cfg ios W0
                              [MainResumes; TaskSettles 0; TaskSettles 1; MainResumes])) i
       = Some (Normal tt).
Proof.
  intros P ios W0.
  assert (Hwalk : walk P (LOCAL_DIR Sample.cfg) Sample.tree_mixed []
                  = (Normal tt, ["pdf/paper.pdf"; "pdf/sub/Scan.PDF"])) by reflexivity.
  destruct (initial_sync_settles_before_watching P Sample.cfg ios 0 Sample.tree_mixed
              _ [MainResumes; TaskSettles 0; TaskSettles 1; MainResumes] Hwalk)
    as ((_ & Hup & _) & _ & _ & Hsettled).
  split; [exact Hwalk|]. split; [exact Hup|].
  split; [vm_compute; reflexivity|]. split; [vm_compute; reflexivity|].
  apply Hsettled. vm_compute. reflexivity.
Defined.

(** The run of the witness, step by step: the subscription is attached only
    by the resumption that follows the last settlement. *)
Example watching_waits_for_the_last_upload :
  let P := posix Sample.cwd in
  let ios := fun _ : nat => Sample.io_remote_down in
  let W0 := main P Sample.cfg 0 true Sample.tree_mixed in
  map (fun es => phase (run P Sample.cfg ios W0 es))
    [ []; [MainResumes]; [TaskSettles 0]; [TaskSettles 0; MainResumes];
      [TaskSettles 0; TaskSettles 1]; [TaskSettles 0; TaskSettles 1; MainResumes];
      [FsNotify 5 EvAdd "pdf/new.pdf"; TaskSettles 0; TaskSettles 1; MainResumes] ]
  = [ InitialSyncing; InitialSyncing; InitialSyncing; InitialSyncing;
      InitialSyncing; Watching; Watching ]
  /\ timers (run P Sample.cfg ios W0
               [FsNotify 5 EvAdd "pdf/new.pdf"; TaskSettles 0; TaskSettles 1; MainResumes])
     = [].
Proof. vm_compute. split; reflexivity. Qed.

(** ** More on the retrying executor *)

Lemma Zsum_app (a b : list Z) : Zsum (a ++ b) = (Zsum a + Zsum b)%Z.
Proof. induction a as [|x a IH]; simpl; [reflexivity|]. rewrite IH. lia. Qed.

Lemma Zsum_backoff (m : nat) :
  Zsum (map backoff (Zseq 1 m)) = (200 * (2 ^ (Z.of_nat m + 1) - 2))%Z.
Proof.
  induction m as [|m IH]; [reflexivity|].
  rewrite Zseq_snoc, map_app, Zsum_app, IH. simpl. unfold backoff.
  replace (Z.of_nat (S m) + 1)%Z with (Z.succ (Z.of_nat m + 1)) by lia.
  rewrite Z.pow_succ_r by lia.
  replace (1 + Z.of_nat m)%Z with (Z.of_nat m + 1)%Z by lia. lia.
Qed.

(** The shape of every run of the loop shared by the two executors, whatever
    the [try] block does: [m] failed attempts, each followed by its pause,
    then either an attempt that succeeds or, the limit being reached, a last
    failed attempt and the FAILED line. *)
Section RetryShape.
Context (cfg : Config) (kind : OpKind) (key : string).
Context (body : Z -> Exec unit) (announce : Z -> list Effect).
Context (loop : nat -> Z -> Exec unit) (marker : Effect -> bool).
Context (success_line : LogLine) (allowed : Effect -> Prop).

Hypothesis body_appends : forall n tr,
  body n tr = match body n [] with
              | Some (c, e) => Some (c, (tr ++ e)%list)
              | None => None
              end.
Hypothesis body_total : forall n, body n [] <> None.
Hypothesis body_marks_once : forall n c e,
  body n [] = Some (c, e) ->
  sleeps e = [] /\ rhythm marker e = [None]
  /\ count_effects is_failed_line e = 0%nat /\ Forall allowed e.
Hypothesis body_success_last : forall n e,
  body n [] = Some (Normal tt, e) -> last e = Some (Console success_line).
Hypothesis announce_quiet : forall n,
  sleeps (announce n) = [] /\ rhythm marker (announce n) = []
  /\ count_effects is_failed_line (announce n) = 0%nat /\ Forall allowed (announce n).
Hypothesis marker_console : forall l, marker (Console l) = false.
Hypothesis allowed_error : forall n err, allowed (Console (LogError kind key n err)).
Hypothesis allowed_failed : allowed (Console (LogFailed kind key (RETRY_LIMIT cfg))).
Hypothesis allowed_sleep : forall ms, allowed (Sleep ms).

Hypothesis loop_unfold : forall fuel n tr,
  loop fuel n tr =
  match body n tr with
  | Some (Normal a, tr1) => Some (Normal a, tr1)
  | Some (Throw err, tr1) =>
      let tr2 := (tr1 ++ [Console (LogError kind key n err)])%list in
      if (n <? RETRY_LIMIT cfg)%Z then
        match fuel with
        | O => None
        | S fuel' =>
            loop fuel' (n + 1)%Z (tr2 ++ announce n ++ [Sleep (backoff n)])%list
        end
      else Some (Normal tt, (tr2 ++ [Console (LogFailed kind key (RETRY_LIMIT cfg))])%list)
  | None => None
  end.

Lemma loop_shape (fuel : nat) (n : Z) (tr : list Effect) :
  (Z.to_nat (RETRY_LIMIT cfg - n) <= fuel)%nat ->
  Forall allowed tr ->
  exists (tr' : list Effect) (m : nat),
    loop fuel n tr = Some (Normal tt, tr')
    /\ (m <= Z.to_nat (RETRY_LIMIT cfg - n))%nat
    /\ rhythm marker tr'
       = (rhythm marker tr
          ++ None :: flat_map (fun a => [Some (backoff a); None]) (Zseq n m))%list
    /\ sleeps tr' = (sleeps tr ++ map backoff (Zseq n m))%list
    /\ Forall allowed tr'
    /\ (forall a, (n <= a < n + Z.of_nat m)%Z -> body_throws (body a) = true)
    /\ ((body_throws (body (n + Z.of_nat m)%Z) = false
         /\ last tr' = Some (Console success_line)
         /\ count_effects is_failed_line tr' = count_effects is_failed_line tr)
        \/ (body_throws (body (n + Z.of_nat m)%Z) = true
            /\ m = Z.to_nat (RETRY_LIMIT cfg - n)
            /\ last tr' = Some (Console (LogFailed kind key (RETRY_LIMIT cfg))))).
Proof.
  revert n tr.
  assert (Hsucc : forall n tr e,
    body n [] = Some (Normal tt, e) -> Forall allowed tr ->
    exists (tr' : list Effect) (m : nat),
      Some (Normal tt, (tr ++ e)%list) = Some (Normal tt, tr')
      /\ (m <= Z.to_nat (RETRY_LIMIT cfg - n))%nat
      /\ rhythm marker tr'
         = (rhythm marker tr
            ++ None :: flat_map (fun a => [Some (backoff a); None]) (Zseq n m))%list
      /\ sleeps tr' = (sleeps tr ++ map backoff (Zseq n m))%list
      /\ Forall allowed tr'
      /\ (forall a, (n <= a < n + Z.of_nat m)%Z -> body_throws (body a) = true)
      /\ ((body_throws (body (n + Z.of_nat m)%Z) = false
           /\ last tr' = Some (Console success_line)
           /\ count_effects is_failed_line tr' = count_effects is_failed_line tr)
          \/ (body_throws (body (n + Z.of_nat m)%Z) = true
              /\ m = Z.to_nat (RETRY_LIMIT cfg - n)
              /\ last tr' = Some (Console (LogFailed kind key (RETRY_LIMIT cfg)))))).
  { intros n tr e Ebody Htr.
    destruct (body_marks_once n _ _ Ebody) as (Hs & Hr & Hf & Hall).
    exists (tr ++ e)%list, 0%nat. replace (n + Z.of_nat 0)%Z with n by lia.
    split_and!.
    - reflexivity.
    - lia.
    - now rewrite rhythm_app, Hr.
    - rewrite sleeps_app, Hs. reflexivity.
    - apply Forall_app; auto.
    - intros a Ha. lia.
    - left. split_and!.
      + unfold body_throws. now rewrite Ebody.
      + pose proof (body_success_last n e Ebody) as Hlast.
        destruct e as [|x e' _] using rev_ind; [discriminate|].
        rewrite last_snoc in Hlast. rewrite app_assoc, last_snoc. exact Hlast.
      + rewrite count_effects_app, Hf. lia. }
  assert (Hstop : forall n tr e err,
    body n [] = Some (Throw err, e) -> Forall allowed tr ->
    (RETRY_LIMIT cfg <= n)%Z ->
    exists (tr' : list Effect) (m : nat),
      Some (Normal tt, (((tr ++ e) ++ [Console (LogError kind key n err)])
                        ++ [Console (LogFailed kind key (RETRY_LIMIT cfg))])%list)
      = Some (Normal tt, tr')
      /\ (m <= Z.to_nat (RETRY_LIMIT cfg - n))%nat
      /\ rhythm marker tr'
         = (rhythm marker tr
            ++ None :: flat_map (fun a => [Some (backoff a); None]) (Zseq n m))%list
      /\ sleeps tr' = (sleeps tr ++ map backoff (Zseq n m))%list
      /\ Forall allowed tr'
      /\ (forall a, (n <= a < n + Z.of_nat m)%Z -> body_throws (body a) = true)
      /\ ((body_throws (body (n + Z.of_nat m)%Z) = false
           /\ last tr' = Some (Console success_line)
           /\ count_effects is_failed_line tr' = count_effects is_failed_line tr)
          \/ (body_throws (body (n + Z.of_nat m)%Z) = true
              /\ m = Z.to_nat (RETRY_LIMIT cfg - n)
              /\ last tr' = Some (Console (LogFailed kind key (RETRY_LIMIT cfg)))))).
  { intros n tr e err Ebody Htr Hn.
    destruct (body_marks_once n _ _ Ebody) as (Hs & Hr & Hf & Hall).
    eexists. exists 0%nat. replace (n + Z.of_nat 0)%Z with n by lia.
    split_and!.
    - reflexivity.
    - lia.
    - rewrite !rhythm_app, Hr. simpl. rewrite !marker_console.
      now rewrite !app_nil_r.
    - rewrite !sleeps_app, Hs. simpl. now rewrite !app_nil_r.
    - repeat (apply Forall_app; split); auto.
    - intros a Ha. lia.
    - right. split_and!.
      + unfold body_throws. now rewrite Ebody.
      + lia.
      + now rewrite last_snoc. }
  induction fuel as [|fuel IH]; intros n tr Hfuel Htr;
    rewrite loop_unfold, body_appends;
    pose proof (body_total n) as Htot;
    destruct (body n []) as [[[[]|err] e]|] eqn:Ebody; try congruence; cbv zeta.
  - now apply Hsucc.
  - destruct (n <? RETRY_LIMIT cfg)%Z eqn:E; [apply Z.ltb_lt in E; lia|].
    apply Z.ltb_ge in E. now apply Hstop.
  - now apply Hsucc.
  - destruct (n <? RETRY_LIMIT cfg)%Z eqn:E; [|apply Z.ltb_ge in E; now apply Hstop].
    apply Z.ltb_lt in E.
    destruct (body_marks_once n _ _ Ebody) as (Hs & Hr & Hf & Hall).
    destruct (announce_quiet n) as (Ha1 & Ha2 & Ha3 & Ha4).
    destruct (IH (n + 1)%Z (((tr ++ e) ++ [Console (LogError kind key n err)])
                            ++ announce n ++ [Sleep (backoff n)])%list)
      as (tr' & m & Hrun & Hm & Hrh & Hsl & Hal & Hthrows & Hend); [lia| |].
    { repeat (apply Forall_app; split); auto. }
    exists tr', (S m).
    replace (n + Z.of_nat (S m))%Z with (n + 1 + Z.of_nat m)%Z by lia.
    split_and!.
    + exact Hrun.
    + lia.
    + rewrite Hrh, !rhythm_app, Hr, Ha2. simpl.
      rewrite marker_console, !app_nil_r, <- !app_assoc. reflexivity.
    + rewrite Hsl, !sleeps_app, Hs, Ha1. simpl.
      rewrite !app_nil_r, <- !app_assoc. reflexivity.
    + exact Hal.
    + intros a Ha. destruct (Z.eq_dec a n) as [->|Hne].
      * unfold body_throws. now rewrite Ebody.
      * apply Hthrows. lia.
    + destruct Hend as [(H1 & H2 & H3)|(H1 & H2 & H3)].
      * left. split_and!; auto. rewrite H3, !count_effects_app, Hf, Ha3.
        unfold count_effects. simpl. lia.
      * right. split_and!; auto. lia.
Qed.

End RetryShape.

Section ExecutorShape.
Context (P : PathModule) (cfg : Config) (io : Collaborators) (localPath : string).

Local Abbreviation key := (localPathToKey P cfg localPath).

Lemma upload_body_effects (n : Z) (c : Completion unit) (e : list Effect) :
  upload_body cfg io localPath key n [] = Some (c, e) ->
  sleeps e = [] /\ rhythm is_read e = [None]
  /\ count_effects is_failed_line e = 0%nat
  /\ Forall (upload_effect P cfg io localPath) e.
Proof.
  unfold upload_body, exec_bind, perform, console, perform.
  destruct (io_readFile io localPath n) as [data|err] eqn:Er; simpl.
  - destruct (io_send io _ n) as [[]|err]; simpl; intros H; inversion H; subst;
      split_and!; auto; repeat constructor; simpl; eauto 10.
  - intros H; inversion H; subst. split_and!; auto. repeat constructor.
Qed.

Lemma upload_body_success_last (n : Z) (e : list Effect) :
  upload_body cfg io localPath key n [] = Some (Normal tt, e) ->
  last e = Some (Console (LogUploaded key)).
Proof.
  unfold upload_body, exec_bind, perform, console, perform.
  destruct (io_readFile io localPath n) as [data|err]; simpl; [|discriminate].
  destruct (io_send io _ n) as [[]|err]; simpl; intros H; now inversion H.
Qed.

Lemma delete_body_effects (n : Z) (c : Completion unit) (e : list Effect) :
  delete_body cfg io key n [] = Some (c, e) ->
  sleeps e = [] /\ rhythm is_send e = [None]
  /\ count_effects is_failed_line e = 0%nat
  /\ Forall (delete_effect P cfg localPath) e.
Proof.
  unfold delete_body, exec_bind, perform, console, perform.
  destruct (io_send io _ n) as [[]|err]; simpl; intros H; inversion H; subst;
    split_and!; auto; repeat constructor; simpl; auto.
Qed.

Lemma delete_body_success_last (n : Z) (e : list Effect) :
  delete_body cfg io key n [] = Some (Normal tt, e) ->
  last e = Some (Console (LogDeleted key)).
Proof.
  unfold delete_body, exec_bind, perform, console, perform.
  destruct (io_send io _ n) as [[]|err]; simpl; intros H; now inversion H.
Qed.

(** Every run of [uploadFile] from attempt 1. *)
Lemma uploadFile_shape :
  exists (tr : list Effect) (m : nat),
    uploadFile P cfg io localPath 1 [] = Some (Normal tt, tr)
    /\ (m <= Z.to_nat (RETRY_LIMIT cfg - 1))%nat
    /\ rhythm is_read tr
       = None :: flat_map (fun a => [Some (backoff a); None]) (Zseq 1 m)
    /\ sleeps tr = map backoff (Zseq 1 m)
    /\ Forall (upload_effect P cfg io localPath) tr
    /\ (forall a, (1 <= a < 1 + Z.of_nat m)%Z ->
                  upload_attempt_fails P cfg io localPath a = true)
    /\ ((upload_attempt_fails P cfg io localPath (1 + Z.of_nat m)%Z = false
         /\ last tr = Some (Console (LogUploaded key))
         /\ count_effects is_failed_line tr = 0%nat)
        \/ (upload_attempt_fails P cfg io localPath (1 + Z.of_nat m)%Z = true
            /\ m = Z.to_nat (RETRY_LIMIT cfg - 1)
            /\ last tr = Some (Console (LogFailed KUpload key (RETRY_LIMIT cfg))))).
Proof.
  unfold uploadFile, upload_attempt_fails.
  apply (loop_shape cfg KUpload key (upload_body cfg io localPath key)
           (fun n => [Console (LogRetrying key (backoff n))])
           (fun fuel n => uploadFile_fuel P cfg io fuel localPath n) is_read
           (LogUploaded key) (upload_effect P cfg io localPath)).
  - apply upload_body_appends.
  - apply upload_body_total.
  - apply upload_body_effects.
  - apply upload_body_success_last.
  - intros n. split_and!; auto. repeat constructor.
  - reflexivity.
  - intros n err. reflexivity.
  - reflexivity.
  - intros ms. exact I.
  - apply uploadFile_fuel_unfold.
  - unfold retries_left. lia.
  - constructor.
Qed.

Lemma deleteKey_shape :
  exists (tr : list Effect) (m : nat),
    deleteKey P cfg io localPath 1 [] = Some (Normal tt, tr)
    /\ (m <= Z.to_nat (RETRY_LIMIT cfg - 1))%nat
    /\ rhythm is_send tr
       = None :: flat_map (fun a => [Some (backoff a); None]) (Zseq 1 m)
    /\ sleeps tr = map backoff (Zseq 1 m)
    /\ Forall (delete_effect P cfg localPath) tr
    /\ (forall a, (1 <= a < 1 + Z.of_nat m)%Z ->
                  delete_attempt_fails P cfg io localPath a = true)
    /\ ((delete_attempt_fails P cfg io localPath (1 + Z.of_nat m)%Z = false
         /\ last tr = Some (Console (LogDeleted key))
         /\ count_effects is_failed_line tr = 0%nat)
        \/ (delete_attempt_fails P cfg io localPath (1 + Z.of_nat m)%Z = true
            /\ m = Z.to_nat (RETRY_LIMIT cfg - 1)
            /\ last tr = Some (Console (LogFailed KDelete key (RETRY_LIMIT cfg))))).
Proof.
  unfold deleteKey, delete_attempt_fails.
  apply (loop_shape cfg KDelete key (delete_body cfg io key) (fun _ => [])
           (fun fuel n => deleteKey_fuel P cfg io fuel localPath n) is_send
           (LogDeleted key) (delete_effect P cfg localPath)).
  - apply delete_body_appends.
  - apply delete_body_total.
  - apply delete_body_effects.
  - apply delete_body_success_last.
  - intros n. split_and!; auto.
  - reflexivity.
  - intros n err. reflexivity.
  - reflexivity.
  - intros ms. exact I.
  - apply deleteKey_fuel_unfold.
  - unfold retries_left. lia.
  - constructor.
Qed.

End ExecutorShape.

Lemma count_effects_rhythm (which : Effect -> bool) (tr : list Effect) :
  (forall ms, which (Sleep ms) = false) ->
  count_effects which tr
  = length (List.filter (fun x : option Z => match x with None => true | Some _ => false end)
              (rhythm which tr)).
Proof.
  intros Hsleep. unfold count_effects.
  induction tr as [|e tr IH]; [reflexivity|].
  destruct e; simpl; try rewrite Hsleep; try (destruct (which _); simpl; now rewrite IH).
  exact IH.
Qed.

Lemma count_none_alternation (n : Z) (m : nat) :
  length (List.filter (fun x : option Z => match x with None => true | Some _ => false end)
            (None :: flat_map (fun a => [Some (backoff a); None]) (Zseq n m)))
  = S m.
Proof.
  simpl. f_equal. revert n. induction m as [|m IH]; intros n; [reflexivity|].
  simpl. now rewrite IH.
Qed.



(** X2: Whatever the read and the remote call do, [uploadFile] and [deleteKey]
    run their [try] block at least once and at most max(1, RETRY_LIMIT)
    times, pause exactly once between two consecutive executions, and all
    their pauses together last at most 200 * (2^max(1, RETRY_LIMIT) - 2) ms;
    with RETRY_LIMIT at most 1 they never pause. *)
Theorem executor_attempts_and_waiting_bounded
    (P : PathModule) (cfg : Config) (io : Collaborators) (localPath : string) :
  (exists tr,
      uploadFile P cfg io localPath first_attempt [] = Some (Normal tt, tr)
      /\ (1 <= Z.of_nat (count_effects is_read tr) <= attempts_allowed cfg)%Z
      /\ S (length (sleeps tr)) = count_effects is_read tr
      /\ (Zsum (sleeps tr) <= 200 * (2 ^ attempts_allowed cfg - 2))%Z
      /\ ((RETRY_LIMIT cfg <= 1)%Z -> sleeps tr = []))
  /\ (exists tr,
      deleteKey P cfg io localPath first_attempt [] = Some (Normal tt, tr)
      /\ (1 <= Z.of_nat (count_effects is_send tr) <= attempts_allowed cfg)%Z
      /\ S (length (sleeps tr)) = count_effects is_send tr
      /\ (Zsum (sleeps tr) <= 200 * (2 ^ attempts_allowed cfg - 2))%Z
      /\ ((RETRY_LIMIT cfg <= 1)%Z -> sleeps tr = [])).
Proof.
  unfold attempts_allowed.
  assert (Hpow : forall m : nat, (m <= Z.to_nat (RETRY_LIMIT cfg - 1))%nat ->
            (200 * (2 ^ (Z.of_nat m + 1) - 2)
             <= 200 * (2 ^ Z.max 1 (RETRY_LIMIT cfg) - 2))%Z).
  { intros m Hm.
    assert (2 ^ (Z.of_nat m + 1) <= 2 ^ Z.max 1 (RETRY_LIMIT cfg))%Z
      by (apply Z.pow_le_mono_r; lia).
    lia. }
  split.
  - destruct (uploadFile_shape P cfg io localPath)
      as (tr & m & Hrun & Hm & Hrh & Hsl & _).
    exists tr. split; [exact Hrun|].
    rewrite (count_effects_rhythm is_read tr) by reflexivity.
    rewrite Hrh, count_none_alternation, Hsl, length_map, Zseq_length, Zsum_backoff.
    split_and!; try lia; auto.
    intros Hle. now replace m with 0%nat by lia.
  - destruct (deleteKey_shape P cfg io localPath)
      as (tr & m & Hrun & Hm & Hrh & Hsl & _).
    exists tr. split; [exact Hrun|].
    rewrite (count_effects_rhythm is_send tr) by reflexivity.
    rewrite Hrh, count_none_alternation, Hsl, length_map, Zseq_length, Zsum_backoff.
    split_and!; try lia; auto.
    intros Hle. now replace m with 0%nat by lia.
Qed.

Lemma executor_attempts_and_waiting_bounded_witness :
  let cfg := {| BUCKET := "papers"; LOCAL_DIR := "./pdf"; CONCURRENCY := 4;
                RETRY_LIMIT := 0; DEBOUNCE_MS := 500 |} in
  (RETRY_LIMIT cfg <= 1)%Z
  /\ exists tr,
       uploadFile (posix Sample.cwd) cfg Sample.io_remote_down "pdf/a.pdf" first_attempt []
       = Some (Normal tt, tr)
       /\ sleeps tr = [].
Proof.
  intros cfg. assert (Hle : (RETRY_LIMIT cfg <= 1)%Z) by (simpl; lia).
  split; [exact Hle|].
  destruct (executor_attempts_and_waiting_bounded (posix Sample.cwd) cfg
              Sample.io_remote_down "pdf/a.pdf") as [(tr & Hrun & _ & _ & _ & Hnone) _].
  exists tr. split; [exact Hrun|exact (Hnone Hle)].
Defined.

(** X3: Every effect of [uploadFile(localPath)] concerns that file and its key:
    it reads only [localPath]; every command it sends is a put into the
    configured bucket, under the key of the path, publicly readable, typed
    by [mime.lookup] or else as octet-stream, carrying a content that a read
    returned; it never sends a delete, and every line it logs names the key.
    Likewise [deleteKey(localPath)] never reads the file and sends only
    deletes of that key in that bucket. *)
Theorem executor_effects_stay_on_key
    (P : PathModule) (cfg : Config) (io : Collaborators) (localPath : string) :
  (exists tr,
      uploadFile P cfg io localPath first_attempt [] = Some (Normal tt, tr)
      /\ Forall (upload_effect P cfg io localPath) tr)
  /\ (exists tr,
      deleteKey P cfg io localPath first_attempt [] = Some (Normal tt, tr)
      /\ Forall (delete_effect P cfg localPath) tr
      /\ count_effects is_read tr = 0%nat).
Proof.
  split.
  - destruct (uploadFile_shape P cfg io localPath) as (tr & m & Hrun & _ & _ & _ & Hall & _).
    eauto.
  - destruct (deleteKey_shape P cfg io localPath) as (tr & m & Hrun & _ & _ & _ & Hall & _).
    exists tr. split_and!; auto.
    unfold count_effects. clear Hrun. induction Hall as [|e tr He _ IH]; [reflexivity|].
    destruct e; simpl in *; [contradiction|exact IH..].
Qed.

Section UnreadableFile.
Context (P : PathModule) (cfg : Config) (io : Collaborators) (localPath : string).
Hypothesis read_fails : forall n, is_throw (io_readFile io localPath n) = true.

Local Abbreviation key := (localPathToKey P cfg localPath).

Lemma upload_body_unreadable (n : Z) (c : Completion unit) (e : list Effect) :
  upload_body cfg io localPath key n [] = Some (c, e) ->
  sleeps e = [] /\ rhythm is_read e = [None]
  /\ count_effects is_failed_line e = 0%nat
  /\ Forall (fun x => is_send x = false) e.
Proof.
  unfold upload_body, exec_bind, perform, console, perform.
  pose proof (read_fails n) as Hn.
  destruct (io_readFile io localPath n) as [data|err]; [discriminate|]. simpl.
  intros H; inversion H; subst. split_and!; auto.
Qed.

Lemma uploadFile_unreadable :
  exists tr,
    uploadFile P cfg io localPath 1 [] = Some (Normal tt, tr)
    /\ Forall (fun x => is_send x = false) tr
    /\ last tr = Some (Console (LogFailed KUpload key (RETRY_LIMIT cfg))).
Proof.
  assert (Hshape : exists (tr : list Effect) (m : nat),
    uploadFile P cfg io localPath 1 [] = Some (Normal tt, tr)
    /\ (m <= Z.to_nat (RETRY_LIMIT cfg - 1))%nat
    /\ rhythm is_read tr
       = ([] ++ None :: flat_map (fun a => [Some (backoff a); None]) (Zseq 1 m))%list
    /\ sleeps tr = ([] ++ map backoff (Zseq 1 m))%list
    /\ Forall (fun x => is_send x = false) tr
    /\ (forall a, (1 <= a < 1 + Z.of_nat m)%Z ->
                  body_throws (upload_body cfg io localPath key a) = true)
    /\ ((body_throws (upload_body cfg io localPath key (1 + Z.of_nat m)%Z) = false
         /\ last tr = Some (Console (LogUploaded key))
         /\ count_effects is_failed_line tr = count_effects is_failed_line [])
        \/ (body_throws (upload_body cfg io localPath key (1 + Z.of_nat m)%Z) = true
            /\ m = Z.to_nat (RETRY_LIMIT cfg - 1)
            /\ last tr = Some (Console (LogFailed KUpload key (RETRY_LIMIT cfg)))))).
  { unfold uploadFile.
    apply (loop_shape cfg KUpload key (upload_body cfg io localPath key)
             (fun n => [Console (LogRetrying key (backoff n))])
             (fun fuel n => uploadFile_fuel P cfg io fuel localPath n) is_read
             (LogUploaded key) (fun x => is_send x = false)).
    - apply upload_body_appends.
    - apply upload_body_total.
    - apply upload_body_unreadable.
    - apply upload_body_success_last.
    - intros n. split_and!; auto.
    - reflexivity.
    - intros n err. reflexivity.
    - reflexivity.
    - intros ms. reflexivity.
    - apply uploadFile_fuel_unfold.
    - unfold retries_left. lia.
    - constructor. }
  destruct Hshape as (tr & m & Hrun & _ & _ & _ & Hall & _ & Hend).
  exists tr. split_and!; auto.
  destruct Hend as [(H1 & _)|(_ & _ & H3)]; [|exact H3].
  unfold body_throws, upload_body, exec_bind, perform in H1.
  pose proof (read_fails (1 + Z.of_nat m)%Z) as Hn.
  destruct (io_readFile io localPath (1 + Z.of_nat m)%Z); discriminate.
Qed.

End UnreadableFile.

(** X4: A file that cannot be read is never sent: when the read fails at every
    attempt, [uploadFile] issues no command to the remote store at all, and
    ends by logging the failure. *)
Theorem upload_sends_nothing_without_the_file
    (P : PathModule) (cfg : Config) (io : Collaborators) (localPath : string) :
  (forall n, is_throw (io_readFile io localPath n) = true) ->
  exists tr,
    uploadFile P cfg io localPath first_attempt [] = Some (Normal tt, tr)
    /\ count_effects is_send tr = 0%nat
    /\ last tr = Some (Console (LogFailed KUpload (localPathToKey P cfg localPath)
                                  (RETRY_LIMIT cfg))).
Proof.
  intros Hread.
  destruct (uploadFile_unreadable P cfg io localPath Hread) as (tr & Hrun & Hall & Hlast).
  exists tr. split_and!; auto.
  unfold count_effects. clear Hrun Hlast.
  induction Hall as [|e tr He _ IH]; [reflexivity|]. simpl. now rewrite He.
Qed.

Lemma upload_sends_nothing_without_the_file_witness :
  (forall n, is_throw (io_readFile Cases.io_file_gone "pdf/a.pdf" n) = true)
  /\ exists tr,
       uploadFile (posix Sample.cwd) Sample.cfg Cases.io_file_gone "pdf/a.pdf"
         first_attempt [] = Some (Normal tt, tr)
       /\ count_effects is_send tr = 0%nat
       /\ last tr = Some (Console (LogFailed KUpload "a.pdf" 3)).
Proof.
  split; [intros n; reflexivity|].
  apply (upload_sends_nothing_without_the_file (posix Sample.cwd) Sample.cfg
           Cases.io_file_gone "pdf/a.pdf").
  intros n. reflexivity.
Defined.

(** ** More on the key mapper *)

Lemma drop_common_spec (a b : list string) :
  exists c, a = (c ++ fst (drop_common a b))%list /\ b = (c ++ snd (drop_common a b))%list.
Proof.
  revert b. induction a as [|x a IH]; intros b.
  - exists []. now destruct b.
  - destruct b as [|y b]; [exists []; auto|]. simpl.
    destruct (String.eqb x y) eqn:E; [|exists []; auto].
    apply String.eqb_eq in E. subst y.
    destruct (IH b) as (c & Ha & Hb). exists (x :: c). simpl. split; congruence.
Qed.

Lemma join_nonempty (x : string) (l : list string) :
  x <> "" -> join "/" (x :: l) <> "".
Proof.
  intros Hx. unfold join. simpl. destruct l; [exact Hx|].
  destruct x; [congruence|]. discriminate.
Qed.

(** Joining with "/" loses nothing on non-empty pieces that hold no "/". *)
Lemma join_inj (l1 l2 : list string) :
  Forall (fun s => s <> "" /\ contains "/" s = false) l1 ->
  Forall (fun s => s <> "" /\ contains "/" s = false) l2 ->
  join "/" l1 = join "/" l2 -> l1 = l2.
Proof.
  intros H1 H2 E.
  assert (Hns : forall l, Forall (fun s => s <> "" /\ contains "/" s = false) l ->
                          Forall (fun s => contains "/" s = false) l).
  { intros l Hl. eapply Forall_impl; [exact Hl|]. now intros s [_ ?]. }
  destruct l1 as [|x1 l1], l2 as [|x2 l2]; [reflexivity| | |].
  - exfalso. inversion H2 as [|? ? [Hx _] _]; subst.
    apply (join_nonempty x2 l2 Hx). now rewrite <- E.
  - exfalso. inversion H1 as [|? ? [Hx _] _]; subst.
    apply (join_nonempty x1 l1 Hx). now rewrite E.
  - rewrite <- (split_join "/" (x1 :: l1)), <- (split_join "/" (x2 :: l2)); auto;
      try discriminate.
    now rewrite E.
Qed.

Lemma dots_then_clean_inj (u1 u2 d1 d2 : list string) :
  Forall clean d1 -> Forall clean d2 ->
  (map (fun _ => "..") u1 ++ d1)%list = (map (fun _ => "..") u2 ++ d2)%list ->
  length u1 = length u2 /\ d1 = d2.
Proof.
  intros H1 H2. revert u2. induction u1 as [|x u1 IH]; intros [|y u2] E; simpl in *.
  - auto.
  - exfalso. subst d1. inversion H1 as [|? ? (_&_&Hx&_) _]. now apply Hx.
  - exfalso. subst d2. inversion H2 as [|? ? (_&_&Hx&_) _]. now apply Hx.
  - inversion E as [E']. destruct (IH u2 E') as [Hl Hd]. auto.
Qed.

Lemma clean_pieces (l : list string) :
  Forall clean l -> Forall (fun s => s <> "" /\ contains "/" s = false) l.
Proof. intros H. eapply Forall_impl; [exact H|]. now intros s (?&_&_&?). Qed.

(** X5: Under POSIX the key mapper is injective on files: two local paths with
    the same key resolve to the same absolute path, so no two distinct files
    collapse to one key. *)
Theorem localPathToKey_injective (cwd : Cwd) (cfg : Config) (p1 p2 : string) :
  localPathToKey (posix cwd) cfg p1 = localPathToKey (posix cwd) cfg p2 ->
  posix_resolve cwd p1 = posix_resolve cwd p2.
Proof.
  intros E.
  destruct (resolve_shape cwd (LOCAL_DIR cfg)) as (lr & Hr & Er).
  destruct (resolve_shape cwd p1) as (l1 & H1 & E1).
  destruct (resolve_shape cwd p2) as (l2 & H2 & E2).
  rewrite (posix_key_of_segments cwd cfg p1 lr l1),
    (posix_key_of_segments cwd cfg p2 lr l2) in E by assumption.
  pose proof (drop_common_down_clean lr l1 H1) as Hd1.
  pose proof (drop_common_down_clean lr l2 H2) as Hd2.
  destruct (drop_common_spec lr l1) as (c1 & Hc1 & Hl1).
  destruct (drop_common_spec lr l2) as (c2 & Hc2 & Hl2).
  destruct (drop_common lr l1) as [u1 d1], (drop_common lr l2) as [u2 d2]. simpl in *.
  apply join_inj in E.
  - apply dots_then_clean_inj in E as [Hlen ->]; [|assumption..].
    assert (c1 = c2).
    { rewrite Hc1 in Hc2. apply app_inj_2 in Hc2; [tauto|exact Hlen]. }
    rewrite E1, E2. congruence.
  - apply Forall_app. split; [|now apply clean_pieces].
    clear. induction u1; constructor; auto; try (split; [discriminate|reflexivity]).
  - apply Forall_app. split; [|now apply clean_pieces].
    clear. induction u2; constructor; auto; try (split; [discriminate|reflexivity]).
Qed.

Lemma localPathToKey_injective_witness :
  localPathToKey (posix Sample.cwd) Sample.cfg "./pdf/a.pdf"
  = localPathToKey (posix Sample.cwd) Sample.cfg "/home/user/site/pdf/x/../a.pdf"
  /\ posix_resolve Sample.cwd "./pdf/a.pdf"
     = posix_resolve Sample.cwd "/home/user/site/pdf/x/../a.pdf".
Proof.
  split; [reflexivity|].
  apply (localPathToKey_injective Sample.cwd Sample.cfg). reflexivity.
Defined.

(** ** Normal forms of POSIX paths *)

Lemma push_normal_stack (a : bool) (T : list string) (x : string) :
  normal_stack T -> contains "/" x = false -> normal_stack (push_segment a T x).
Proof.
  intros HT Hx. unfold push_segment.
  destruct (String.eqb x "") eqn:E1; simpl; [exact HT|].
  destruct (String.eqb x ".") eqn:E2; simpl; [exact HT|].
  apply String.eqb_neq in E1, E2.
  destruct (String.eqb x "..") eqn:E3.
  - apply String.eqb_eq in E3. subst x.
    destruct T as [|y T'].
    + destruct a; simpl; auto 10.
    + destruct (String.eqb y "..") eqn:Ey.
      * apply String.eqb_eq in Ey. subst y. destruct a; [|exact HT].
        simpl in *. intuition.
      * simpl in HT. tauto.
  - apply String.eqb_neq in E3. simpl. split_and!; auto. congruence.
Qed.

Lemma fold_push_normal_stack (a : bool) (l T : list string) :
  normal_stack T -> Forall (fun s => contains "/" s = false) l ->
  normal_stack (fold_left (push_segment a) l T).
Proof.
  revert T. induction l as [|x l IH]; intros T HT Hl; simpl; [exact HT|].
  inversion Hl; subst. apply IH; [|assumption]. now apply push_normal_stack.
Qed.

Lemma normal_stack_pieces (T : list string) :
  normal_stack T -> Forall (fun s => s <> "" /\ contains "/" s = false) T.
Proof.
  induction T as [|x T IH]; intros H; [constructor|].
  destruct H as (H1 & _ & H3 & _ & H5). constructor; auto.
Qed.

Lemma clean_on_normal_stack (T names : list string) :
  normal_stack T -> Forall clean names -> normal_stack (rev names ++ T).
Proof.
  intros HT. induction names as [|x names IH] using rev_ind; intros Hn; [exact HT|].
  apply Forall_app in Hn as [Hn Hx]. inversion Hx as [|? ? (H1 & H2 & H3 & H4) _]; subst.
  rewrite rev_app_distr. simpl. split_and!; auto. congruence.
Qed.

Lemma push_kept (a : bool) (T : list string) (x : string) :
  x <> "" -> x <> "." -> x <> ".." -> push_segment a T x = x :: T.
Proof.
  intros H1 H2 H3. unfold push_segment.
  apply String.eqb_neq in H1, H2, H3. now rewrite H1, H2, H3.
Qed.

(** Normalizing what is already normal changes nothing. *)
Lemma fold_push_normal_id (a : bool) (T : list string) :
  normal_stack T -> (a = false -> Forall (fun x => x <> "..") T) ->
  fold_left (push_segment a) (rev T) [] = T.
Proof.
  induction T as [|x T IH]; intros HT Hdots; [reflexivity|].
  destruct HT as (H1 & H2 & H3 & H4 & H5).
  simpl. rewrite fold_left_app, IH; auto.
  2:{ intros Ha. specialize (Hdots Ha). now inversion Hdots. }
  simpl. destruct (string_dec x "..") as [->|Hne]; [|now apply push_kept].
  destruct a.
  - specialize (H4 eq_refl). unfold push_segment. simpl.
    destruct T as [|y T']; [reflexivity|]. subst y. reflexivity.
  - specialize (Hdots eq_refl). inversion Hdots. congruence.
Qed.

(** Resolving against a stack gives the same whether or not the relative
    path was normalized first. *)
Lemma fold_push_true_then_false (l S : list string) :
  Forall (fun s => contains "/" s = false) l ->
  fold_left (push_segment false) (rev (fold_left (push_segment true) l [])) S
  = fold_left (push_segment false) l S.
Proof.
  induction l as [|x l IH] using rev_ind; intros Hl; [reflexivity|].
  apply Forall_app in Hl as [Hl Hx]. specialize (IH Hl).
  pose proof (fold_push_normal_stack true l [] I Hl) as HT.
  rewrite !fold_left_app. simpl. rewrite <- IH.
  set (T := fold_left (push_segment true) l []) in *. clearbody T.
  set (Z := fold_left (push_segment false) (rev T) S).
  destruct (string_dec x "") as [->|H1]; [reflexivity|].
  destruct (string_dec x ".") as [->|H2]; [reflexivity|].
  destruct (string_dec x "..") as [->|H3].
  - destruct T as [|y T']; [reflexivity|].
    destruct (string_dec y "..") as [->|Hy].
    + change (push_segment true (".." :: T') "..") with (".." :: ".." :: T').
      change (rev (".." :: ".." :: T')) with (rev (".." :: T') ++ [".."])%list.
      now rewrite fold_left_app.
    + assert (push_segment true (y :: T') ".." = T') as ->.
      { unfold push_segment. simpl. apply String.eqb_neq in Hy. now rewrite Hy. }
      destruct HT as (Y1 & Y2 & _).
      subst Z. simpl. rewrite fold_left_app. simpl.
      rewrite (push_kept false _ y) by assumption.
      unfold push_segment. simpl. apply String.eqb_neq in Hy. now rewrite Hy.
  - rewrite !push_kept by assumption. subst Z. cbn [rev]. rewrite fold_left_app.
    cbn [fold_left]. now rewrite push_kept.
Qed.

Lemma join_snoc (M : list string) (x : string) :
  join "/" (M ++ [x]) = match M with
                        | [] => x
                        | _ => join "/" M +:+ String "/" x
                        end.
Proof.
  induction M as [|y M IH]; [reflexivity|].
  change ((y :: M) ++ [x])%list with (y :: (M ++ [x]))%list.
  destruct M as [|z M]; [reflexivity|].
  change ((z :: M) ++ [x])%list with (z :: (M ++ [x]))%list in *.
  rewrite (join_cons2 "/" y z (M ++ [x])), IH, (join_cons2 "/" y z M).
  rewrite append_assoc3. reflexivity.
Qed.

Lemma starts_with_slash_no_slash (x : string) :
  contains "/" x = false -> starts_with_slash x = false.
Proof. destruct x; simpl; [reflexivity|]. intros H. now apply orb_false_elim in H as [-> _]. Qed.

Lemma starts_with_slash_app (x y : string) :
  x <> "" -> starts_with_slash (x +:+ y) = starts_with_slash x.
Proof. destruct x; [congruence|reflexivity]. Qed.

Lemma starts_with_slash_join (x : string) (M : list string) :
  x <> "" -> contains "/" x = false -> starts_with_slash (join "/" (x :: M)) = false.
Proof.
  intros Hx Hs. destruct M as [|y M]; [now apply starts_with_slash_no_slash|].
  rewrite join_cons2, starts_with_slash_app by assumption.
  now apply starts_with_slash_no_slash.
Qed.

Lemma ends_with_slash_app (x y : string) :
  y <> "" -> ends_with_slash (x +:+ y) = ends_with_slash y.
Proof.
  intros Hy. induction x as [|c x IH]; [reflexivity|].
  rewrite append_cons. simpl. rewrite IH.
  destruct (x +:+ y) eqn:E; [|reflexivity].
  destruct x; [|discriminate]. rewrite append_nil_l in E. congruence.
Qed.

Lemma ends_with_slash_no_slash (x : string) :
  contains "/" x = false -> ends_with_slash x = false.
Proof.
  induction x as [|c x IH]; [reflexivity|]. simpl. intros H.
  apply orb_false_elim in H as [Hc Hx]. destruct x; [exact Hc|]. now apply IH.
Qed.

Lemma ends_with_slash_join (M : list string) (x : string) :
  x <> "" -> contains "/" x = false -> ends_with_slash (join "/" (M ++ [x])) = false.
Proof.
  intros Hx Hs. rewrite join_snoc. destruct M.
  - now apply ends_with_slash_no_slash.
  - change (String "/" x) with ("/" +:+ x). rewrite <- append_assoc3.
    rewrite ends_with_slash_app by assumption. now apply ends_with_slash_no_slash.
Qed.

Lemma clean_name_iff (s : string) : clean_name s = true <-> clean s.
Proof.
  unfold clean_name, clean. rewrite !andb_true_iff, !negb_true_iff, !String.eqb_neq.
  tauto.
Qed.

Lemma join_nonempty_list (l : list string) :
  l <> [] -> Forall (fun s => s <> "" /\ contains "/" s = false) l -> join "/" l <> "".
Proof.
  destruct l as [|x l]; [congruence|]. intros _ H. inversion H as [|? ? [Hx _] _]; subst.
  now apply join_nonempty.
Qed.

Lemma normalizeSegments_app_clean (a : bool) (l names : list string) :
  Forall clean names ->
  normalizeSegments a (l ++ names) = (normalizeSegments a l ++ names)%list.
Proof.
  intros Hn. unfold normalizeSegments.
  rewrite fold_left_app, fold_push_clean_id by assumption.
  now rewrite rev_app_distr, rev_involutive.
Qed.

Lemma normalizeSegments_pieces (a : bool) (l : list string) :
  Forall (fun s => contains "/" s = false) l ->
  Forall (fun s => s <> "" /\ contains "/" s = false) (normalizeSegments a l).
Proof.
  intros Hl. unfold normalizeSegments. apply Forall_rev, normal_stack_pieces.
  now apply fold_push_normal_stack.
Qed.

(** [path.join(dir, names.join("/"))] for directory-entry names: the
    normalized segments of [dir] followed by the names. *)
Lemma posix_join_normal (dir : string) (names : list string) :
  Forall clean names -> names <> [] ->
  posix_join dir (join "/" names)
  = normal_path (starts_with_slash dir)
      (normalizeSegments (negb (starts_with_slash dir)) (split "/" dir) ++ names).
Proof.
  intros Hn Hne.
  assert (Hb : join "/" names <> "") by (apply join_nonempty_list; [assumption|now apply clean_pieces]).
  assert (Hend : ends_with_slash (join "/" names) = false).
  { destruct names as [|x names _] using rev_ind; [congruence|].
    apply Forall_app in Hn as [_ Hx]. inversion Hx as [|? ? (H1&_&_&H4) _]; subst.
    now apply ends_with_slash_join. }
  assert (Hsplit : split "/" (join "/" names) = names)
    by (apply split_join; [now apply clean_no_sep|assumption]).
  unfold posix_join.
  destruct (String.eqb dir "") eqn:Ed.
  - apply String.eqb_eq in Ed. subst dir.
    apply String.eqb_neq in Hb. rewrite Hb. unfold normalize. rewrite Hb.
    assert (Hs : starts_with_slash (join "/" names) = false).
    { destruct names as [|x names]; [congruence|].
      inversion Hn as [|? ? (H1&_&_&H4) _]; subst. now apply starts_with_slash_join. }
    rewrite Hs, Hend. unfold normalizeString. rewrite Hsplit.
    assert (Hid : normalizeSegments true names = names).
    { unfold normalizeSegments. rewrite fold_push_clean_id by assumption.
      now rewrite app_nil_r, rev_involutive. }
    simpl negb. rewrite Hid, Hb. reflexivity.
  - apply String.eqb_neq in Hb as Hb'. rewrite Hb'.
    apply String.eqb_neq in Ed.
    change (dir +:+ "/" +:+ join "/" names) with (dir +:+ String "/" (join "/" names)).
    set (joined := dir +:+ String "/" (join "/" names)).
    assert (Hj : String.eqb joined "" = false).
    { apply String.eqb_neq. subst joined. destruct dir; [congruence|discriminate]. }
    rewrite Hj. unfold normalize. rewrite Hj.
    assert (Hs : starts_with_slash joined = starts_with_slash dir)
      by (apply starts_with_slash_app; exact Ed).
    assert (He : ends_with_slash joined = false).
    { subst joined. rewrite ends_with_slash_app by discriminate.
      simpl. destruct (join "/" names) eqn:Ej; [congruence|exact Hend]. }
    rewrite Hs, He. unfold normalizeString. subst joined.
    rewrite split_app, Hsplit, normalizeSegments_app_clean by assumption.
    set (M := (normalizeSegments (negb (starts_with_slash dir)) (split "/" dir) ++ names)%list).
    assert (HM : join "/" M <> "").
    { apply join_nonempty_list.
      - subst M. destruct names; [congruence|]. now destruct (normalizeSegments _ _).
      - subst M. apply Forall_app. split; [|now apply clean_pieces].
        apply normalizeSegments_pieces, split_pieces_no_sep. }
    apply String.eqb_neq in HM. rewrite HM. unfold normal_path.
    now destruct (starts_with_slash dir).
Qed.

(** A normal path splits back into its segments. *)
Lemma normal_path_resplit (a : bool) (T : list string) :
  normal_stack T -> T <> [] -> (a = true -> Forall (fun x => x <> "..") T) ->
  starts_with_slash (normal_path a (rev T)) = a
  /\ normalizeSegments (negb a) (split "/" (normal_path a (rev T))) = rev T.
Proof.
  intros HT Hne Hdots.
  assert (Hp : Forall (fun s => s <> "" /\ contains "/" s = false) (rev T))
    by (apply Forall_rev, normal_stack_pieces, HT).
  assert (Hrev : rev T <> []) by (intros E; apply Hne; now rewrite <- (rev_involutive T), E).
  assert (Hsplit : split "/" (join "/" (rev T)) = rev T).
  { apply split_join; [|assumption]. eapply Forall_impl; [exact Hp|]. now intros s [_ ?]. }
  destruct a; unfold normal_path.
  - split; [reflexivity|].
    change (split "/" (String "/" (join "/" (rev T))))
      with ("" :: split "/" (join "/" (rev T))).
    rewrite Hsplit. unfold normalizeSegments. simpl.
    rewrite fold_push_normal_id; auto.
  - split.
    + destruct (rev T) as [|x M]; [congruence|].
      inversion Hp as [|? ? [H1 H2] _]; subst. now apply starts_with_slash_join.
    + rewrite Hsplit. unfold normalizeSegments. simpl.
      rewrite fold_push_normal_id; auto.
Qed.

Lemma entry_in_well_named (name : string) (n : FsNode) (es : FsEntries) :
  entry_in name n es -> well_named_entries es = true ->
  clean name /\ well_named_node n = true.
Proof.
  induction 1 as [name n rest|name n name' n' rest _ IH]; simpl; intros H;
    apply andb_prop in H as [H Hrest]; apply andb_prop in H as [Hname Hn].
  - split; [now apply clean_name_iff|exact Hn].
  - now apply IH.
Qed.

Lemma no_dots_of_clean (T : list string) : Forall clean T -> Forall (fun x => x <> "..") T.
Proof. intros H. eapply Forall_impl; [exact H|]. now intros s (_&_&?&_). Qed.

(** Descending into a sub-directory adds its name to the directories. *)
Lemma descend_path (dir sub_name : string) (rest : list string) :
  clean sub_name ->
  normal_path (starts_with_slash (posix_join dir sub_name))
    (normalizeSegments (negb (starts_with_slash (posix_join dir sub_name)))
       (split "/" (posix_join dir sub_name)) ++ rest)
  = normal_path (starts_with_slash dir)
      (normalizeSegments (negb (starts_with_slash dir)) (split "/" dir) ++ sub_name :: rest).
Proof.
  intros Hsub.
  pose proof (posix_join_normal dir [sub_name] ltac:(now constructor) ltac:(discriminate))
    as Hj. simpl join in Hj. rewrite Hj.
  set (a := starts_with_slash dir).
  set (T := fold_left (push_segment (negb a)) (split "/" dir) []).
  assert (HT : normal_stack (sub_name :: T)).
  { apply (clean_on_normal_stack T [sub_name]); [|now constructor].
    apply fold_push_normal_stack; [exact I|apply split_pieces_no_sep]. }
  assert (Hdots : a = true -> Forall (fun x => x <> "..") (sub_name :: T)).
  { intros Ha. constructor; [now destruct Hsub as (_&_&?&_)|].
    apply no_dots_of_clean. subst T. rewrite Ha. simpl.
    apply fold_push_false_clean; [constructor|apply split_pieces_no_sep]. }
  destruct (normal_path_resplit a (sub_name :: T) HT ltac:(discriminate) Hdots) as [Hs Hn].
  change (normalizeSegments (negb a) (split "/" dir) ++ [sub_name])%list
    with (rev (sub_name :: T)).
  rewrite Hs, Hn. simpl. now rewrite <- app_assoc.
Qed.

(** The path the walker builds for a file: the normalized segments of the
    directory it started from, then the names on the way down. *)
Lemma walk_path_shape (cwd : Cwd) (dir : string) (d : FsDir) (full name : string) :
  file_at (posix cwd) dir d full name ->
  well_named_dir d = true ->
  exists dirs,
    located d dirs name /\ Forall clean dirs /\ clean name
    /\ full = normal_path (starts_with_slash dir)
                (normalizeSegments (negb (starts_with_slash dir)) (split "/" dir)
                 ++ dirs ++ [name]).
Proof.
  induction 1 as [dir es name Hin|dir es sub_name sub full name Hin Hat IH]; intros Hwn;
    simpl in Hwn.
  - destruct (entry_in_well_named _ _ _ Hin Hwn) as [Hname _].
    exists []. split; [now constructor|]. split; [constructor|]. split; [exact Hname|].
    simpl path_join.
    apply (posix_join_normal dir [name]); [now constructor|discriminate].
  - destruct (entry_in_well_named _ _ _ Hin Hwn) as [Hsub Hwsub]. simpl in Hwsub.
    destruct (IH Hwsub) as (dirs & Hloc & Hdirs & Hname & ->).
    exists (sub_name :: dirs). split; [econstructor 2; eauto|].
    split; [now constructor|]. split; [exact Hname|].
    simpl path_join. now apply descend_path.
Qed.

(** Resolving a directory, from its segments. *)
Lemma resolve_of_segments (cwd : Cwd) (dir : string) :
  posix_resolve cwd dir
  = abs_path (if starts_with_slash dir then normalizeSegments false (split "/" dir)
              else rev (fold_left (push_segment false) (split "/" dir)
                          (fold_left (push_segment false) (split "/" (cwd_path cwd)) []))).
Proof.
  unfold posix_resolve.
  destruct (starts_with_slash dir) eqn:Hs.
  - assert (String.eqb dir "" = false) as -> by now destruct dir.
    unfold normalizeString.
    change (dir +:+ "/") with (dir +:+ String "/" "").
    rewrite split_app. unfold normalizeSegments. now rewrite fold_left_app.
  - rewrite (cwd_absolute cwd). unfold normalizeString, normalizeSegments.
    destruct (String.eqb dir "") eqn:Ed.
    + apply String.eqb_eq in Ed. subst dir.
      change (cwd_path cwd +:+ "/" +:+ "") with (cwd_path cwd +:+ String "/" "").
      now rewrite split_app, fold_left_app.
    + change (cwd_path cwd +:+ "/" +:+ dir +:+ "/")
        with (cwd_path cwd +:+ String "/" (dir +:+ String "/" "")).
      now rewrite !split_app, !fold_left_app.
Qed.

Lemma resolve_normal_path (cwd : Cwd) (dir : string) (names ld : list string) :
  Forall clean names -> names <> [] -> Forall clean ld ->
  posix_resolve cwd dir = abs_path ld ->
  posix_resolve cwd
    (normal_path (starts_with_slash dir)
       (normalizeSegments (negb (starts_with_slash dir)) (split "/" dir) ++ names))
  = abs_path (ld ++ names).
Proof.
  intros Hn Hne Hld Hdir. rewrite resolve_of_segments in Hdir.
  set (S := fold_left (push_segment false) (split "/" (cwd_path cwd)) []) in *.
  assert (HS : Forall clean S)
    by (apply fold_push_false_clean; [constructor|apply split_pieces_no_sep]).
  destruct (starts_with_slash dir) eqn:Hs; simpl negb in *.
  - assert (Hc : Forall clean (normalizeSegments false (split "/" dir)))
      by apply normalizeSegments_false_clean, split_pieces_no_sep.
    apply abs_path_inj in Hdir; [|assumption..]. subst ld.
    unfold normal_path. apply resolve_abs_path. apply Forall_app. now split.
  - assert (Hc : Forall clean (rev (fold_left (push_segment false) (split "/" dir) S))).
    { apply Forall_rev, fold_push_false_clean; [exact HS|apply split_pieces_no_sep]. }
    apply abs_path_inj in Hdir; [|assumption..]. subst ld.
    unfold normal_path.
    set (M := (normalizeSegments true (split "/" dir) ++ names)%list).
    assert (HMp : Forall (fun s => s <> "" /\ contains "/" s = false) M).
    { subst M. apply Forall_app. split; [|now apply clean_pieces].
      apply normalizeSegments_pieces, split_pieces_no_sep. }
    assert (HMne : M <> []).
    { subst M. destruct names; [congruence|]. now destruct (normalizeSegments _ _). }
    assert (Hj : join "/" M <> "") by now apply join_nonempty_list.
    assert (Hsw : starts_with_slash (join "/" M) = false).
    { destruct M as [|x M']; [congruence|]. inversion HMp as [|? ? [H1 H2] _]; subst.
      now apply starts_with_slash_join. }
    unfold posix_resolve. apply String.eqb_neq in Hj. rewrite Hj, Hsw, (cwd_absolute cwd).
    unfold normalizeString, normalizeSegments.
    change (cwd_path cwd +:+ "/" +:+ join "/" M +:+ "/")
      with (cwd_path cwd +:+ String "/" (join "/" M +:+ String "/" "")).
    rewrite !split_app, split_join; [|eapply Forall_impl; [exact HMp|]; now intros s [_ ?]|exact HMne].
    rewrite !fold_left_app. fold S. simpl fold_left at 1.
    subst M. rewrite fold_left_app. unfold normalizeSegments.
    rewrite fold_push_true_then_false by apply split_pieces_no_sep.
    rewrite fold_push_clean_id by assumption.
    change (push_segment false ?X "") with X.
    rewrite rev_app_distr, rev_involutive. reflexivity.
Qed.

Lemma rev_nil_inv {A} (l : list A) : rev l = [] -> l = [].
Proof. intros E. rewrite <- (rev_involutive l), E. reflexivity. Qed.

(** Resolving a path, from the stack of directories it leaves. *)
Lemma resolve_of_stack (cwd : Cwd) (s : string) :
  posix_resolve cwd s
  = abs_path (rev (fold_left (push_segment false) (split "/" s)
                     (if starts_with_slash s then []
                      else fold_left (push_segment false) (split "/" (cwd_path cwd)) []))).
Proof. rewrite resolve_of_segments. now destruct (starts_with_slash s). Qed.

(** [path.normalize] keeps what a path resolves to: it stays absolute or
    relative, and leaves the same directories on any stack. *)
Lemma normalize_same_stack (s : string) (X : list string) :
  (starts_with_slash s = true -> X = []) ->
  starts_with_slash (normalize s) = starts_with_slash s
  /\ fold_left (push_segment false) (split "/" (normalize s)) X
     = fold_left (push_segment false) (split "/" s) X.
Proof.
  intros HX. unfold normalize.
  destruct (String.eqb s "") eqn:Es.
  { apply String.eqb_eq in Es. subst s. split; reflexivity. }
  unfold normalizeString.
  pose proof (normalizeSegments_pieces (negb (starts_with_slash s)) (split "/" s)
                (split_pieces_no_sep "/"%char s)) as HNp.
  destruct (normalizeSegments (negb (starts_with_slash s)) (split "/" s)) as [|x N'] eqn:EN.
  - simpl join. simpl String.eqb.
    unfold normalizeSegments in EN. apply rev_nil_inv in EN.
    destruct (starts_with_slash s) eqn:Hs.
    + split; [reflexivity|]. rewrite (HX eq_refl). simpl negb in EN. now rewrite EN.
    + simpl negb in EN.
      rewrite <- (fold_push_true_then_false (split "/" s) X) by apply split_pieces_no_sep.
      rewrite EN. destruct (ends_with_slash s); split; reflexivity.
  - assert (Hj : join "/" (x :: N') <> "")
      by (apply join_nonempty_list; [discriminate|exact HNp]).
    assert (Hsplit : split "/" (join "/" (x :: N')) = x :: N').
    { apply split_join; [|discriminate]. eapply Forall_impl; [exact HNp|]. now intros ? [_ ?]. }
    apply String.eqb_neq in Hj as Hj'. rewrite Hj'.
    assert (Hfold : forall Y,
      fold_left (push_segment false)
        (split "/" (if ends_with_slash s then join "/" (x :: N') +:+ "/"
                    else join "/" (x :: N'))) Y
      = fold_left (push_segment false) (x :: N') Y).
    { intros Y. destruct (ends_with_slash s); [|now rewrite Hsplit].
      change (join "/" (x :: N') +:+ "/") with (join "/" (x :: N') +:+ String "/" "").
      rewrite split_app, Hsplit, fold_left_app. reflexivity. }
    destruct (starts_with_slash s) eqn:Hs; simpl negb in EN.
    + split; [reflexivity|]. rewrite (HX eq_refl).
      change (split "/" ("/" +:+ ?p)) with ("" :: split "/" p).
      change (fold_left (push_segment false) ("" :: ?l) []) with (fold_left (push_segment false) l []).
      rewrite Hfold, <- EN. unfold normalizeSegments.
      apply fold_push_normal_id.
      * apply fold_push_normal_stack; [exact I|apply split_pieces_no_sep].
      * intros _. apply no_dots_of_clean, fold_push_false_clean;
          [constructor|apply split_pieces_no_sep].
    + split.
      * inversion HNp as [|? ? [H1 H2] _]; subst.
        destruct (ends_with_slash s); [rewrite starts_with_slash_app by exact Hj|];
          now apply starts_with_slash_join.
      * rewrite Hfold, <- EN. unfold normalizeSegments.
        apply fold_push_true_then_false, split_pieces_no_sep.
Qed.

Lemma resolve_normalize (cwd : Cwd) (s : string) :
  posix_resolve cwd (normalize s) = posix_resolve cwd s.
Proof.
  rewrite !resolve_of_stack.
  set (S := fold_left (push_segment false) (split "/" (cwd_path cwd)) []).
  destruct (normalize_same_stack s (if starts_with_slash s then [] else S)) as [Hs Hf].
  { now intros ->. }
  now rewrite Hs, Hf.
Qed.

(** Resolving [path.join(dir, b)] for a relative [b]: the segments of [b]
    pushed on the directories of the resolved [dir]. *)
Lemma resolve_join (cwd : Cwd) (dir b : string) (ld : list string) :
  starts_with_slash b = false -> Forall clean ld ->
  posix_resolve cwd dir = abs_path ld ->
  posix_resolve cwd (posix_join dir b)
  = abs_path (rev (fold_left (push_segment false) (split "/" b) (rev ld))).
Proof.
  intros Hb Hld Hdir. rewrite resolve_of_stack in Hdir.
  set (S := fold_left (push_segment false) (split "/" (cwd_path cwd)) []) in *.
  assert (HS : Forall clean S)
    by (apply fold_push_false_clean; [constructor|apply split_pieces_no_sep]).
  apply abs_path_inj in Hdir; [|apply Forall_rev, fold_push_false_clean;
    [destruct (starts_with_slash dir); [constructor|exact HS]|apply split_pieces_no_sep]
    |exact Hld].
  subst ld. rewrite rev_involutive.
  unfold posix_join.
  destruct (String.eqb dir "") eqn:Ed.
  - apply String.eqb_eq in Ed. subst dir. simpl starts_with_slash. cbv iota.
    change (fold_left (push_segment false) (split "/" "") S) with S.
    destruct (String.eqb b "") eqn:Eb.
    + apply String.eqb_eq in Eb. subst b. rewrite resolve_of_stack. reflexivity.
    + rewrite resolve_normalize, resolve_of_stack, Hb. reflexivity.
  - destruct (String.eqb b "") eqn:Eb.
    + apply String.eqb_eq in Eb. subst b. rewrite Ed, resolve_normalize, resolve_of_stack.
      reflexivity.
    + apply String.eqb_neq in Ed.
      change (dir +:+ "/" +:+ b) with (dir +:+ String "/" b).
      assert (Hj : String.eqb (dir +:+ String "/" b) "" = false).
      { apply String.eqb_neq. destruct dir; [congruence|discriminate]. }
      rewrite Hj, resolve_normalize, resolve_of_stack.
      rewrite starts_with_slash_app by exact Ed.
      now rewrite split_app, fold_left_app.
Qed.

(** One ".." per directory of [up] takes those directories off again. *)
Lemma pop_dots (up X : list string) :
  Forall clean up ->
  fold_left (push_segment false) (map (fun _ => "..") up) (rev up ++ X)%list = X.
Proof.
  induction up as [|u up IH] using rev_ind; intros Hup; [reflexivity|].
  apply Forall_app in Hup as [Hup Hu]. inversion Hu as [|? ? (_&_&H3&_) _]; subst.
  rewrite map_app, rev_app_distr. simpl.
  rewrite <- (IH Hup) at 2.
  assert (Hdots : forall (l : list string) Y,
    fold_left (push_segment false) (map (fun _ => "..") l ++ [".."])%list Y
    = fold_left (push_segment false) (".." :: map (fun _ => "..") l) Y).
  { intros l Y. f_equal. induction l as [|y l IHl]; [reflexivity|]. simpl. now rewrite IHl. }
  rewrite Hdots. simpl fold_left at 1.
  assert (push_segment false (u :: rev up ++ X) ".." = (rev up ++ X)%list) as ->; [|reflexivity].
  unfold push_segment. simpl. apply String.eqb_neq in H3. now rewrite H3.
Qed.

(** The key is relative: it never starts with a separator. *)
Lemma key_segments_relative (up down : list string) :
  Forall clean down ->
  starts_with_slash (join "/" (map (fun _ => "..") up ++ down)) = false.
Proof.
  intros Hd. destruct up as [|u up]; simpl app.
  - destruct down as [|x down]; [reflexivity|].
    inversion Hd as [|? ? (H1&_&_&H4) _]; subst. now apply starts_with_slash_join.
  - now apply starts_with_slash_join.
Qed.

(** Conversely to [walk_path_shape], a file located in the tree is reached
    by the walker under the path made of the names on the way down. *)
Lemma located_file_at (cwd : Cwd) (d : FsDir) (dirs : list string) (name : string) :
  located d dirs name -> well_named_dir d = true ->
  forall dir,
    file_at (posix cwd) dir d
      (normal_path (starts_with_slash dir)
         (normalizeSegments (negb (starts_with_slash dir)) (split "/" dir)
          ++ dirs ++ [name])) name.
Proof.
  induction 1 as [es name Hin|es sub_name sub dirs name Hin Hloc IH]; intros Hwn dir;
    simpl in Hwn.
  - destruct (entry_in_well_named _ _ _ Hin Hwn) as [Hname _].
    pose proof (file_here (posix cwd) dir es name Hin) as Hhere. simpl path_join in Hhere.
    change name with (join "/" [name]) in Hhere at 1.
    rewrite posix_join_normal in Hhere by (try discriminate; now constructor).
    exact Hhere.
  - destruct (entry_in_well_named _ _ _ Hin Hwn) as [Hsub Hwsub]. simpl in Hwsub.
    econstructor 2; [exact Hin|].
    specialize (IH Hwsub (posix_join dir sub_name)).
    simpl path_join. rewrite descend_path in IH by exact Hsub. exact IH.
Qed.

(** ** The key, joined back onto the root *)

(** X6: Round trip of the key mapper.  Joining the key of a path onto LOCAL_DIR
    names the file the path names: both resolve to the same absolute path,
    whatever the path, also outside the root, where the key climbs with
    "..", and for the root itself, whose key is empty. *)
Theorem localPathToKey_round_trip (cwd : Cwd) (cfg : Config) (p : string) :
  posix_resolve cwd (posix_join (LOCAL_DIR cfg) (localPathToKey (posix cwd) cfg p))
  = posix_resolve cwd p.
Proof.
  destruct (resolve_shape cwd (LOCAL_DIR cfg)) as (lr & Hr & Er).
  destruct (resolve_shape cwd p) as (lp & Hp & Ep).
  rewrite (posix_key_of_segments cwd cfg p lr lp) by assumption.
  pose proof (drop_common_down_clean lr lp Hp) as Hd.
  destruct (drop_common_spec lr lp) as (c & Hc & Hl).
  destruct (drop_common lr lp) as [up down]. simpl in *.
  assert (Hup : Forall clean up) by (rewrite Hc in Hr; now apply Forall_app in Hr as [_ ?]).
  rewrite (resolve_join cwd (LOCAL_DIR cfg) _ lr (key_segments_relative up down Hd) Hr Er).
  rewrite Ep. f_equal.
  assert (Hfold : fold_left (push_segment false) (map (fun _ => "..") up ++ down)%list (rev lr)
                  = rev lp).
  { rewrite fold_left_app, Hc, rev_app_distr, pop_dots by assumption.
    rewrite fold_push_clean_id by assumption. now rewrite Hl, rev_app_distr. }
  destruct (map (fun _ => "..") up ++ down)%list as [|x l] eqn:El.
  - simpl in Hfold. simpl. rewrite Hfold. apply rev_involutive.
  - rewrite split_join; [now rewrite Hfold, rev_involutive| |discriminate].
    rewrite <- El. apply Forall_app. split; [|now apply clean_no_sep].
    clear. induction up; constructor; auto.
Qed.

(** ** The keys of the initial walk *)

Lemma located_clean (d : FsDir) (dirs : list string) (name : string) :
  located d dirs name -> well_named_dir d = true -> Forall clean dirs /\ clean name.
Proof.
  induction 1 as [es name Hin|es sub_name sub dirs name Hin Hloc IH]; intros Hwn;
    simpl in Hwn.
  - destruct (entry_in_well_named _ _ _ Hin Hwn) as [Hname _]. split; [constructor|exact Hname].
  - destruct (entry_in_well_named _ _ _ Hin Hwn) as [Hsub Hwsub]. simpl in Hwsub.
    destruct (IH Hwsub) as [Hdirs Hname]. split; [now constructor|exact Hname].
Qed.

Section WalkedKeys.
Context (cwd : Cwd) (cfg : Config).

Local Abbreviation key_of := (localPathToKey (posix cwd) cfg).

Lemma walked_path_key (dirs : list string) (name : string) :
  Forall clean dirs -> clean name ->
  let full := normal_path (starts_with_slash (LOCAL_DIR cfg))
                (normalizeSegments (negb (starts_with_slash (LOCAL_DIR cfg)))
                   (split "/" (LOCAL_DIR cfg)) ++ dirs ++ [name]) in
  key_of full = join "/" (dirs ++ [name]) /\ under_root cwd cfg full = true.
Proof.
  intros Hdirs Hname full.
  destruct (resolve_shape cwd (LOCAL_DIR cfg)) as (lr & Hr & Er).
  assert (Hn : Forall clean (dirs ++ [name])) by (apply Forall_app; split; [assumption|now constructor]).
  assert (Hne : (dirs ++ [name])%list <> []) by now destruct dirs.
  pose proof (resolve_normal_path cwd (LOCAL_DIR cfg) (dirs ++ [name]) lr Hn Hne Hr Er) as Ef.
  fold full in Ef.
  assert (Hlp : Forall clean (lr ++ dirs ++ [name])) by (apply Forall_app; now split).
  split.
  - rewrite (posix_key_of_segments cwd cfg full lr _ Hr Hlp Er Ef), drop_common_app.
    reflexivity.
  - rewrite (under_root_segments cwd cfg full lr _ Hr Hlp Er Ef).
    apply drop_common_prefix. now rewrite drop_common_app.
Qed.

End WalkedKeys.

(** X7: The keys of the initial synchronisation.  When every entry of the tree
    under LOCAL_DIR has an ordinary name, each path the walk returns lies
    under the root and its key is the names of the directories on the way
    down to the file and the name of the file, joined with "/"; and each
    regular file of the tree with a PDF extension has its key among those of
    the returned paths.  No key climbs with ".." and the spelling of LOCAL_DIR
    leaves no trace in a key. *)
Theorem initial_walk_keys_are_relative_paths
    (cwd : Cwd) (cfg : Config) (root : FsDir) (files : list string) :
  well_named_dir root = true ->
  walk (posix cwd) (LOCAL_DIR cfg) root [] = (Normal tt, files) ->
  (forall f, In f files ->
     under_root cwd cfg f = true
     /\ exists dirs name,
          located root dirs name /\ is_pdf (posix cwd) name = true
          /\ localPathToKey (posix cwd) cfg f = join "/" (dirs ++ [name]))
  /\ (forall dirs name,
        located root dirs name -> is_pdf (posix cwd) name = true ->
        In (join "/" (dirs ++ [name])) (map (localPathToKey (posix cwd) cfg) files)).
Proof.
  intros Hwn Hwalk. split.
  - intros f Hf.
    apply (walk_files_exact (posix cwd) _ _ _ Hwalk) in Hf as (name & Hat & Hpdf).
    destruct (walk_path_shape cwd _ _ _ _ Hat Hwn) as (dirs & Hloc & Hdirs & Hname & ->).
    destruct (walked_path_key cwd cfg dirs name Hdirs Hname) as [Hk Hu].
    split; [exact Hu|]. exists dirs, name. auto.
  - intros dirs name Hloc Hpdf.
    pose proof (located_file_at cwd root dirs name Hloc Hwn (LOCAL_DIR cfg)) as Hat.
    destruct (located_clean root dirs name Hloc Hwn) as [Hdirs Hname].
    apply in_map_iff. eexists. split.
    + apply (walked_path_key cwd cfg dirs name Hdirs Hname).
    + apply (walk_files_exact (posix cwd) _ _ _ Hwalk). eauto.
Qed.

Lemma initial_walk_keys_are_relative_paths_witness :
  well_named_dir Sample.tree_mixed = true
  /\ walk (posix Sample.cwd) (LOCAL_DIR Sample.cfg) Sample.tree_mixed []
     = (Normal tt, ["pdf/paper.pdf"; "pdf/sub/Scan.PDF"])
  /\ (forall f, In f ["pdf/paper.pdf"; "pdf/sub/Scan.PDF"] ->
        under_root Sample.cwd Sample.cfg f = true
        /\ exists dirs name,
             located Sample.tree_mixed dirs name /\ is_pdf (posix Sample.cwd) name = true
             /\ localPathToKey (posix Sample.cwd) Sample.cfg f = join "/" (dirs ++ [name]))
  /\ (forall dirs name,
        located Sample.tree_mixed dirs name -> is_pdf (posix Sample.cwd) name = true ->
        In (join "/" (dirs ++ [name]))
          (map (localPathToKey (posix Sample.cwd) Sample.cfg)
             ["pdf/paper.pdf"; "pdf/sub/Scan.PDF"])).
Proof.
  split; [reflexivity|]. split; [reflexivity|].
  apply (initial_walk_keys_are_relative_paths Sample.cwd Sample.cfg Sample.tree_mixed);
    reflexivity.
Defined.

(** ** The walk returns no path twice *)

Lemma normal_path_inj (a : bool) (l1 l2 : list string) :
  Forall (fun s => s <> "" /\ contains "/" s = false) l1 ->
  Forall (fun s => s <> "" /\ contains "/" s = false) l2 ->
  normal_path a l1 = normal_path a l2 -> l1 = l2.
Proof.
  intros H1 H2 E. apply join_inj; [assumption..|].
  unfold normal_path in E. destruct a; [now inversion E|exact E].
Qed.

Lemma entry_in_names (name : string) (n : FsNode) (es : FsEntries) :
  entry_in name n es -> In name (entry_names es).
Proof. induction 1; simpl; auto. Qed.

Lemma located_head (es : FsEntries) (dirs : list string) (name : string) :
  located (Listing es) dirs name ->
  exists h t, (dirs ++ [name])%list = h :: t /\ In h (entry_names es).
Proof.
  intros H. inversion H as [? ? Hin|? ? ? ? ? Hin _]; subst.
  - exists name, []. split; [reflexivity|]. eapply entry_in_names, Hin.
  - eexists _, _. split; [reflexivity|]. eapply entry_in_names, Hin.
Qed.

Section WalkOnce.
Context (cwd : Cwd).

Local Abbreviation segs dir :=
  (normalizeSegments (negb (starts_with_slash dir)) (split "/" dir)).

(** A path found in a listing starts, below the directory, with the name of
    one of its entries. *)
Lemma file_at_head (dir : string) (es : FsEntries) (f name : string) :
  file_at (posix cwd) dir (Listing es) f name -> well_named_entries es = true ->
  exists h t, In h (entry_names es) /\ Forall clean (h :: t)
              /\ f = normal_path (starts_with_slash dir) (segs dir ++ h :: t).
Proof.
  intros Hat Hwn.
  destruct (walk_path_shape cwd dir (Listing es) f name Hat Hwn)
    as (dirs & Hloc & Hdirs & Hname & ->).
  destruct (located_head es dirs name Hloc) as (h & t & E & Hin).
  exists h, t. split; [exact Hin|]. rewrite <- E. split; [|reflexivity].
  apply Forall_app. split; [exact Hdirs|now constructor].
Qed.

Lemma same_head (dir : string) (h1 h2 : string) (t1 t2 : list string) :
  Forall clean (h1 :: t1) -> Forall clean (h2 :: t2) ->
  normal_path (starts_with_slash dir) (segs dir ++ h1 :: t1)
  = normal_path (starts_with_slash dir) (segs dir ++ h2 :: t2) ->
  h1 = h2 /\ t1 = t2.
Proof.
  intros H1 H2 E. apply normal_path_inj in E.
  - apply app_inv_head in E. now inversion E.
  - apply Forall_app. split; [|now apply clean_pieces].
    apply normalizeSegments_pieces, split_pieces_no_sep.
  - apply Forall_app. split; [|now apply clean_pieces].
    apply normalizeSegments_pieces, split_pieces_no_sep.
Qed.

Lemma walk_appends_once :
  (forall n, well_named_node n = true -> distinct_names_node n = true ->
     forall dir ename files files',
       walk_entry (posix cwd) dir ename n files = (Normal tt, files') ->
       exists new, files' = (files ++ new)%list /\ NoDup new
         /\ forall f, In f new ->
              (n = RegFile /\ f = posix_join dir ename)
              \/ (exists sub name, n = Directory sub
                    /\ file_at (posix cwd) (posix_join dir ename) sub f name))
  /\ (forall d, well_named_dir d = true -> distinct_names_dir d = true ->
     forall dir files files',
       walk (posix cwd) dir d files = (Normal tt, files') ->
       exists new, files' = (files ++ new)%list /\ NoDup new
         /\ forall f, In f new -> exists name, file_at (posix cwd) dir d f name)
  /\ (forall es, well_named_entries es = true -> distinct_names_entries es = true ->
     forall dir files files',
       walk_entries (posix cwd) dir es files = (Normal tt, files') ->
       exists new, files' = (files ++ new)%list /\ NoDup new
         /\ forall f, In f new -> exists name, file_at (posix cwd) dir (Listing es) f name).
Proof.
  apply Fs_mutind.
  - (* RegFile *)
    intros _ _ dir ename files files' H. simpl in H.
    destruct (is_pdf (posix cwd) ename); inversion H; subst.
    + exists [posix_join dir ename]. split; [reflexivity|]. split; [apply NoDup_singleton|].
      intros f [<-|[]]. now left.
    + exists []. split; [now rewrite app_nil_r|]. split; [constructor|]. intros f [].
  - (* OtherNode *)
    intros _ _ dir ename files files' H. inversion H; subst.
    exists []. split; [now rewrite app_nil_r|]. split; [constructor|]. intros f [].
  - (* Directory *)
    intros d IH Hwn Hdn dir ename files files' H. simpl in *.
    destruct (IH Hwn Hdn _ _ _ H) as (new & -> & Hnd & Hin).
    exists new. split; [reflexivity|]. split; [exact Hnd|].
    intros f Hf. destruct (Hin f Hf) as (name & Hat). right. eauto.
  - (* Unreadable *)
    intros err _ _ dir files files' H. discriminate H.
  - (* Listing *)
    intros es IH Hwn Hdn dir files files' H. simpl in *. now apply IH.
  - (* ENil *)
    intros _ _ dir files files' H. inversion H; subst.
    exists []. split; [now rewrite app_nil_r|]. split; [constructor|]. intros f [].
  - (* ECons *)
    intros ename n IHn rest IHrest Hwn Hdn dir files files' H. simpl in *.
    apply andb_prop in Hwn as [Hwn Hwrest]. apply andb_prop in Hwn as [Hname Hwnode].
    apply andb_prop in Hdn as [Hdn Hdrest]. apply andb_prop in Hdn as [Hfresh Hdnode].
    apply clean_name_iff in Hname.
    destruct (walk_entry (posix cwd) dir ename n files) as [[[]|err] files1] eqn:E;
      [|discriminate].
    destruct (IHn Hwnode Hdnode _ _ _ _ E) as (new1 & -> & Hnd1 & Hin1).
    destruct (IHrest Hwrest Hdrest _ _ _ H) as (new2 & -> & Hnd2 & Hin2).
    exists (new1 ++ new2)%list. split; [now rewrite app_assoc|]. split.
    + apply NoDup_app. split; [exact Hnd1|]. split; [|exact Hnd2].
      intros f Hf1 Hf2. apply list_elem_of_In in Hf1, Hf2.
      assert (Hshape : exists t, Forall clean t
                /\ f = normal_path (starts_with_slash dir) (segs dir ++ ename :: t)).
      { destruct (Hin1 f Hf1) as [(-> & ->)|(sub & name & -> & Hat)].
        - exists []. split; [constructor|].
          apply (posix_join_normal dir [ename]); [now constructor|discriminate].
        - simpl in Hwnode.
          destruct (walk_path_shape cwd _ _ _ _ Hat Hwnode)
            as (dirs & _ & Hdirs & Hnm & ->).
          exists (dirs ++ [name])%list. split.
          + apply Forall_app. split; [exact Hdirs|now constructor].
          + now apply descend_path. }
      destruct Hshape as (t1 & Ht1 & E1).
      destruct (Hin2 f Hf2) as (name & Hat).
      destruct (file_at_head dir rest f name Hat Hwrest) as (h & t2 & Hh & Ht2 & E2).
      rewrite E1 in E2. apply same_head in E2 as [-> _];
        [|constructor; assumption|exact Ht2].
      apply negb_true_iff in Hfresh.
      assert (existsb (String.eqb h) (entry_names rest) = true); [|congruence].
      apply existsb_exists. exists h. split; [exact Hh|apply String.eqb_refl].
    + intros f Hf. apply in_app_or in Hf as [Hf|Hf].
      * destruct (Hin1 f Hf) as [(-> & ->)|(sub & name & -> & Hat)].
        { exists ename. apply file_at_cons. left. auto. }
        { exists name. apply file_at_cons. right; left. eauto. }
      * destruct (Hin2 f Hf) as (name & Hat). exists name.
        apply file_at_cons. right; right. exact Hat.
Qed.

End WalkOnce.

(** X8: The initial walk returns each file once.  When every entry of the tree
    has an ordinary name and no directory lists a name twice, the paths the
    walk returns are pairwise different, and so are their keys: the initial
    synchronisation submits one upload per eligible file and no two of its
    uploads write the same object. *)
Theorem initial_walk_returns_each_file_once
    (cwd : Cwd) (cfg : Config) (root : FsDir) (files : list string) :
  well_named_dir root = true -> distinct_names_dir root = true ->
  walk (posix cwd) (LOCAL_DIR cfg) root [] = (Normal tt, files) ->
  NoDup files /\ NoDup (map (localPathToKey (posix cwd) cfg) files).
Proof.
  intros Hwn Hdn Hwalk.
  destruct (walk_appends_once cwd) as (_ & Hd & _).
  destruct (Hd root Hwn Hdn _ _ _ Hwalk) as (new & E & Hnd & _). simpl in E. subst new.
  split; [exact Hnd|].
  apply (NoDup_fmap_2_strong (localPathToKey (posix cwd) cfg)); [|exact Hnd].
  intros f1 f2 H1 H2 Ek. apply list_elem_of_In in H1, H2.
  apply (walk_files_exact (posix cwd) _ _ _ Hwalk) in H1 as (n1 & Hat1 & _).
  apply (walk_files_exact (posix cwd) _ _ _ Hwalk) in H2 as (n2 & Hat2 & _).
  destruct (walk_path_shape cwd _ _ _ _ Hat1 Hwn) as (d1 & _ & Hd1 & Hn1 & ->).
  destruct (walk_path_shape cwd _ _ _ _ Hat2 Hwn) as (d2 & _ & Hd2 & Hn2 & ->).
  rewrite (proj1 (walked_path_key cwd cfg d1 n1 Hd1 Hn1)),
    (proj1 (walked_path_key cwd cfg d2 n2 Hd2 Hn2)) in Ek.
  apply join_inj in Ek; [now rewrite Ek| |];
    apply clean_pieces, Forall_app; split; auto.
Qed.

Lemma initial_walk_returns_each_file_once_witness :
  well_named_dir Sample.tree_mixed = true
  /\ distinct_names_dir Sample.tree_mixed = true
  /\ NoDup (map (localPathToKey (posix Sample.cwd) Sample.cfg)
              (snd (walk (posix Sample.cwd) (LOCAL_DIR Sample.cfg) Sample.tree_mixed []))).
Proof.
  split; [reflexivity|]. split; [reflexivity|].
  apply (initial_walk_returns_each_file_once Sample.cwd Sample.cfg Sample.tree_mixed);
    reflexivity.
Defined.

(** ** The filter of the watcher and the initial walk *)

Lemma prefix_app_r (sub s b : string) :
  String.prefix sub s = true -> String.prefix sub (s +:+ b) = true.
Proof.
  revert s. induction sub as [|c sub IH]; intros s H; [now destruct (s +:+ b)|].
  destruct s as [|c' s]; [discriminate|]. rewrite append_cons. simpl in *.
  destruct (ascii_dec c c'); [now apply IH|discriminate].
Qed.

Lemma includes_app_r (s b sub : string) :
  includes s sub = true -> includes (s +:+ b) sub = true.
Proof.
  induction s as [|c s IH]; intros H.
  - simpl in H. rewrite orb_false_r in H.
    destruct sub; [now destruct b|discriminate].
  - rewrite append_cons. cbn [includes] in *.
    apply orb_true_iff in H as [H|H]; apply orb_true_iff.
    + left. rewrite <- append_cons. now apply prefix_app_r.
    + right. now apply IH.
Qed.

Lemma includes_app_l (a s sub : string) :
  includes s sub = true -> includes (a +:+ s) sub = true.
Proof.
  intros H. induction a as [|c a IH]; [exact H|].
  rewrite append_cons. cbn [includes]. rewrite IH. apply orb_true_r.
Qed.

Lemma includes_join (l : list string) (d sub : string) :
  In d l -> includes d sub = true -> includes (join "/" l) sub = true.
Proof.
  intros Hin Hd. induction l as [|x l IH]; [destruct Hin|].
  destruct l as [|y l].
  - destruct Hin as [->|[]]. exact Hd.
  - rewrite join_cons2. destruct Hin as [->|Hin].
    + now apply includes_app_r.
    + apply includes_app_l. cbn [includes]. rewrite (IH Hin). apply orb_true_r.
Qed.

Lemma ignored_normal_path (a : bool) (l : list string) (d : string) :
  In d l -> ignored d = true -> ignored (normal_path a l) = true.
Proof.
  unfold ignored. intros Hin H.
  assert (Hsub : forall sub, includes d sub = true -> includes (normal_path a l) sub = true).
  { intros sub Hd. pose proof (includes_join l d sub Hin Hd) as Hj.
    unfold normal_path. destruct a; [|exact Hj].
    cbn [includes]. rewrite Hj. apply orb_true_r. }
  apply orb_true_iff in H as [H|H]; apply orb_true_iff; [left|right]; now apply Hsub.
Qed.

(** X9: The initial walk does not apply the filter of the watcher.  A PDF file
    of the tree whose own name, or the name of a directory above it, contains
    "node_modules" or ".git" is among the paths the walk returns, under its
    relative path as key, although the filter given to the watcher rejects
    that very path. *)
Theorem initial_walk_ignores_the_watcher_filter
    (cwd : Cwd) (cfg : Config) (root : FsDir) (files : list string)
    (dirs : list string) (name d : string) :
  well_named_dir root = true ->
  walk (posix cwd) (LOCAL_DIR cfg) root [] = (Normal tt, files) ->
  located root dirs name -> is_pdf (posix cwd) name = true ->
  In d (dirs ++ [name]) -> ignored d = true ->
  exists f, In f files /\ ignored f = true
            /\ localPathToKey (posix cwd) cfg f = join "/" (dirs ++ [name]).
Proof.
  intros Hwn Hwalk Hloc Hpdf Hd Hign.
  pose proof (located_file_at cwd root dirs name Hloc Hwn (LOCAL_DIR cfg)) as Hat.
  destruct (located_clean root dirs name Hloc Hwn) as [Hdirs Hname].
  eexists. split; [|split].
  - apply (walk_files_exact (posix cwd) _ _ _ Hwalk). eauto.
  - apply (ignored_normal_path _ _ d); [|exact Hign]. apply in_or_app. now right.
  - apply (walked_path_key cwd cfg dirs name Hdirs Hname).
Qed.

Lemma initial_walk_ignores_the_watcher_filter_witness :
  exists f,
    In f (snd (walk (posix Sample.cwd) (LOCAL_DIR Sample.cfg) Cases.tree_vendored []))
    /\ ignored f = true
    /\ localPathToKey (posix Sample.cwd) Sample.cfg f
       = join "/" (["node_modules"; "lib"] ++ ["manual.pdf"]).
Proof.
  apply (initial_walk_ignores_the_watcher_filter Sample.cwd Sample.cfg Cases.tree_vendored
           _ ["node_modules"; "lib"] "manual.pdf" "node_modules").
  - reflexivity.
  - reflexivity.
  - apply located_below with (sub := Listing (ECons "lib" (Directory (Listing
        (ECons "manual.pdf" RegFile ENil))) ENil)); [apply entry_first|].
    apply located_below with (sub := Listing (ECons "manual.pdf" RegFile ENil));
      [apply entry_first|].
    apply located_here, entry_first.
  - reflexivity.
  - simpl. now left.
  - reflexivity.
Defined.

(** ** More on the debouncer *)

Section DebounceMore.
Context (P : PathModule) (cfg : Config).

Local Abbreviation key_of := (localPathToKey P cfg).
Local Abbreviation inv := (debounce_inv P cfg).

Lemma exited_run (ios : nat -> Collaborators) (W : World) (status : Z) (es : list Event) :
  phase W = Exited status -> run P cfg ios W es = W.
Proof.
  intros Hph. induction es as [|e es IH]; [reflexivity|].
  unfold run in *. cbn [fold_left]. unfold step at 2. rewrite Hph. exact IH.
Qed.

(** *** Where submitted operations come from *)

Section Provenance.
Context (ios : nat -> Collaborators) (files : list string).

Local Abbreviation from_events seen W :=
  ((forall tm, In tm (timers W) ->
      exists t ev p, In (FsNotify t ev p) seen
                     /\ timer_type tm = event_type ev /\ timer_path tm = p)
   /\ (forall op, In op (map task_op (scheduled (limiter W))) ->
         In op (map Upload files)
         \/ exists t ev p, In (FsNotify t ev p) seen /\ op = event_op ev p)).

Lemma from_events_mono (seen more : list Event) (W : World) :
  from_events seen W -> from_events (seen ++ more)%list W.
Proof.
  intros [Ht Ho]. split.
  - intros tm Htm. destruct (Ht tm Htm) as (t & ev & p & Hin & H).
    exists t, ev, p. split; [apply in_or_app; now left|exact H].
  - intros op Hop. destruct (Ho op Hop) as [H|(t & ev & p & Hin & H)]; [now left|].
    right. exists t, ev, p. split; [apply in_or_app; now left|exact H].
Qed.

Lemma from_events_same (seen : list Event) (W W' : World) :
  timers W' = timers W ->
  map task_op (scheduled (limiter W')) = map task_op (scheduled (limiter W)) ->
  from_events seen W -> from_events seen W'.
Proof. intros -> ->. auto. Qed.

Lemma timer_op_of_event (tm : Timer) (ev : WatchEvent) (op : Op) :
  timer_type tm = event_type ev -> timer_op tm = Some op ->
  op = event_op ev (timer_path tm).
Proof.
  destruct tm as [id due k ty pa]. simpl. intros ->.
  rewrite timer_op_event. now intros [= <-].
Qed.

Lemma from_events_advance (seen : list Event) (t : Z) (W : World) :
  from_events seen W -> from_events seen (advance cfg t W).
Proof.
  intros [Ht Ho]. destruct (advance_frame cfg t W) as (_ & _ & Htimers & _).
  split.
  - intros tm Htm. rewrite Htimers in Htm. apply filter_In in Htm as [Htm _]. now apply Ht.
  - intros op Hop. rewrite advance_ops in Hop. apply in_app_or in Hop as [Hop|Hop];
      [now apply Ho|].
    apply list_elem_of_In, list_elem_of_omap in Hop as (tm & Htm & Hfire).
    apply list_elem_of_In, filter_In in Htm as [Htm _].
    destruct (Ht tm Htm) as (t' & ev & p & Hin & Hty & Hpa).
    right. exists t', ev, p. split; [exact Hin|].
    rewrite <- Hpa. now apply timer_op_of_event.
Qed.

Lemma from_events_scheduleOp (seen : list Event) (t : Z) (ev : WatchEvent) (p : string)
    (W : World) :
  In (FsNotify t ev p) seen ->
  from_events seen W -> from_events seen (scheduleOp P cfg (event_type ev) p W).
Proof.
  intros Hin [Ht Ho]. split; [|exact Ho].
  intros tm Htm. unfold scheduleOp in Htm. cbn [timers] in Htm.
  apply in_app_or in Htm as [Htm|[<-|[]]].
  - apply Ht. destruct (debounceMap W !! key_of p); [|exact Htm].
    now apply clearTimeout_In in Htm as [Htm _].
  - exists t, ev, p. auto.
Qed.

Lemma from_events_step (seen : list Event) (W : World) (e : Event) :
  from_events seen W -> from_events (seen ++ [e])%list (step P cfg ios W e).
Proof.
  intros H. pose proof (from_events_mono seen [e] W H) as Hm.
  unfold step. destruct (phase W) eqn:Eph; [| |exact Hm]; destruct e; try exact Hm;
    try (apply from_events_advance; exact Hm).
  all: try (destruct (List.find _ _); [|exact Hm];
            destruct (run_task P cfg ios _); [|exact Hm];
            apply (from_events_same _ W); [reflexivity| |exact Hm];
            cbn [limiter with_limiter]; now rewrite task_done_scheduled).
  - destruct (promise_all _ _) as [[]|]; exact Hm.
  - unfold deliver, on_event. apply (from_events_scheduleOp _ t).
    + apply in_or_app. right. now left.
    + apply from_events_advance. exact Hm.
Qed.

Lemma from_events_run (es seen : list Event) (W : World) :
  from_events seen W -> from_events (seen ++ es)%list (run P cfg ios W es).
Proof.
  revert seen W. induction es as [|e es IH]; intros seen W H.
  - rewrite app_nil_r. exact H.
  - unfold run. cbn [fold_left].
    replace (seen ++ e :: es)%list with ((seen ++ [e]) ++ es)%list
      by (rewrite <- app_assoc; reflexivity).
    apply IH, from_events_step, H.
Qed.

End Provenance.

End DebounceMore.

(** X10: Where submitted operations come from.  Whatever happens to the process,
    an operation is handed to the limiter only after LOCAL_DIR was found
    readable and the walk completed, and then it is either the upload of a
    path the walk returned or the operation of a notification the watcher
    delivered: an upload of the notified path for "add" and "change", a
    delete for "unlink".  In particular a delete is never submitted for a
    path no "unlink" notification named. *)
Theorem submitted_operations_come_from_walk_or_events
    (P : PathModule) (cfg : Config) (ios : nat -> Collaborators)
    (t0 : Z) (access_ok : bool) (root : FsDir) (events : list Event) :
  let W := run P cfg ios (main P cfg t0 access_ok root) events in
  (forall op, In op (map task_op (scheduled (limiter W))) ->
     access_ok = true
     /\ exists files,
          walk P (LOCAL_DIR cfg) root [] = (Normal tt, files)
          /\ (In op (map Upload files)
              \/ exists t ev p, In (FsNotify t ev p) events /\ op = event_op ev p))
  /\ (forall f, In (Delete f) (map task_op (scheduled (limiter W))) ->
        exists t, In (FsNotify t EvUnlink f) events).
Proof.
  intros W.
  assert (Hall : forall op, In op (map task_op (scheduled (limiter W))) ->
     access_ok = true
     /\ exists files,
          walk P (LOCAL_DIR cfg) root [] = (Normal tt, files)
          /\ (In op (map Upload files)
              \/ exists t ev p, In (FsNotify t ev p) events /\ op = event_op ev p)).
  { subst W. unfold main. destruct access_ok.
    - unfold initialSync.
      destruct (walk P (LOCAL_DIR cfg) root []) as [[[]|err] files] eqn:Ewalk.
      + intros op Hop. split; [reflexivity|]. exists files. split; [reflexivity|].
        refine (proj2 (from_events_run P cfg ios files events [] _ _) op Hop).
        split; [intros tm []|].
        intros op'. cbn [limiter with_awaited with_limiter boot].
        rewrite (proj1 (fold_limit_uploads cfg files empty_limiter)). now left.
      + rewrite (exited_run P cfg ios (with_phase (boot t0) (Exited 1)) 1 events eq_refl).
        intros op [].
    - rewrite (exited_run P cfg ios (with_phase (boot t0) (Exited 1)) 1 events eq_refl).
      intros op []. }
  split; [exact Hall|].
  intros f Hf. destruct (Hall _ Hf) as (_ & files & _ & [Hup|(t & ev & p & Hin & E)]).
  - apply in_map_iff in Hup as (x & Hx & _). discriminate.
  - destruct ev; try discriminate. simpl in E. injection E as ->. now exists t.
Qed.

Lemma submitted_operations_come_from_walk_or_events_witness :
  let P := posix Sample.cwd in
  let events := [MainResumes; FsNotify 0 EvUnlink "pdf/a.pdf"; Tick 500] in
  let W := run P Sample.cfg (fun _ => Sample.io_healthy)
             (main P Sample.cfg 0 true (Listing ENil)) events in
  In (Delete "pdf/a.pdf") (map task_op (scheduled (limiter W)))
  /\ exists t, In (FsNotify t EvUnlink "pdf/a.pdf") events.
Proof.
  intros P events W.
  assert (H : In (Delete "pdf/a.pdf") (map task_op (scheduled (limiter W))))
    by (vm_compute; now left).
  split; [exact H|].
  exact (proj2 (submitted_operations_come_from_walk_or_events P Sample.cfg
                  (fun _ => Sample.io_healthy) 0 true (Listing ENil) events)
               "pdf/a.pdf" H).
Defined.

(** X11: Keys are debounced independently.  At every instant of a run, a
    notification for a path with another key than [k] neither cancels nor
    postpones the timer of [k] and adds nothing to what is submitted for [k]:
    for [k] it is as if only the time had passed, now and at every later
    instant. *)
Theorem debounce_keys_are_independent
    (P : PathModule) (cfg : Config) (ios : nat -> Collaborators)
    (t0 : Z) (access_ok : bool) (root : FsDir) (events : list Event)
    (k : string) (t : Z) (ev : WatchEvent) (p : string) :
  let W := run P cfg ios (main P cfg t0 access_ok root) events in
  localPathToKey P cfg p <> k ->
  pending_for k (deliver P cfg W (t, ev, p)) = pending_for k (advance cfg t W)
  /\ forall T : Z,
       ops_for P cfg k (advance cfg T (deliver P cfg W (t, ev, p)))
       = ops_for P cfg k (advance cfg T (advance cfg t W))
       /\ pending_for k (advance cfg T (deliver P cfg W (t, ev, p)))
          = pending_for k (advance cfg T (advance cfg t W)).
Proof.
  intros W Hne.
  assert (HW : debounce_inv P cfg W) by apply run_inv, main_inv.
  assert (HA : debounce_inv P cfg (advance cfg t W)) by now apply advance_inv.
  assert (Hpend : pending_for k (deliver P cfg W (t, ev, p))
                  = pending_for k (advance cfg t W)).
  { unfold deliver, on_event. now apply pending_for_scheduleOp_other. }
  split; [exact Hpend|]. intros T.
  assert (HD : debounce_inv P cfg (deliver P cfg W (t, ev, p))) by now apply deliver_inv.
  assert (Hnow : now (deliver P cfg W (t, ev, p)) = now (advance cfg t W)) by reflexivity.
  assert (Hops : ops_for P cfg k (deliver P cfg W (t, ev, p))
                 = ops_for P cfg k (advance cfg t W)) by reflexivity.
  split.
  - rewrite (ops_for_advance P cfg k T _ HD), (ops_for_advance P cfg k T _ HA).
    now rewrite Hpend, Hnow, Hops.
  - rewrite (pending_for_advance cfg k T (deliver P cfg W (t, ev, p))),
      (pending_for_advance cfg k T (advance cfg t W)).
    now rewrite Hpend, Hnow.
Qed.

Lemma debounce_keys_are_independent_witness :
  let P := posix Sample.cwd in
  let W := run P Sample.cfg (fun _ => Sample.io_healthy)
             (main P Sample.cfg 0 true (Listing ENil))
             [MainResumes; FsNotify 0 EvChange "pdf/a.pdf"] in
  localPathToKey P Sample.cfg "pdf/b.pdf" <> "a.pdf"
  /\ length (pending_for "a.pdf" (deliver P Sample.cfg W (100%Z, EvAdd, "pdf/b.pdf"))) = 1%nat
  /\ ops_for P Sample.cfg "a.pdf"
       (advance Sample.cfg 500 (deliver P Sample.cfg W (100%Z, EvAdd, "pdf/b.pdf")))
     = [Upload "pdf/a.pdf"].
Proof.
  intros P W.
  assert (Hne : localPathToKey P Sample.cfg "pdf/b.pdf" <> "a.pdf") by (vm_compute; discriminate).
  destruct (debounce_keys_are_independent P Sample.cfg (fun _ => Sample.io_healthy)
              0 true (Listing ENil) [MainResumes; FsNotify 0 EvChange "pdf/a.pdf"]
              "a.pdf" 100%Z EvAdd "pdf/b.pdf" Hne) as [Hpend Hlater].
  split; [exact Hne|]. split.
  - fold P W in Hpend. rewrite Hpend. reflexivity.
  - destruct (Hlater 500%Z) as [Hops _]. fold P W in Hops. rewrite Hops. reflexivity.
Defined.



(** ** The debouncer comes to rest *)

Section Deadlines.
Context (P : PathModule) (cfg : Config) (ios : nat -> Collaborators).

Local Abbreviation in_time W :=
  (forall tm, In tm (timers W) ->
     Z.le (timer_due tm) (Z.add (now W) (timer_delay (DEBOUNCE_MS cfg)))).






End Deadlines.



